(** * lotter: lot bookkeeping for ledger-cli journals

    A shallow embedding of the lot engine of [lotter] (amounts, splits,
    lots, lot queues, the move and trade resolvers and the gain
    apportionment of the [lot] operation), with the properties of its
    specification stated and proved over it.

    Conventions of the embedding:
    - a [*big.Rat] is a [Q]; [big.Rat] keeps its values normalised, so
      equality of values is [Qeq] ([==]);
    - a [time.Time] is an instant on the time line, a [Z];
    - a [log.Panic] is the outcome [Panic], a returned [error] is a value
      of type [error];
    - package-level variables ([weight], [decimalPlaces], [lotQueue],
      [base], the flags) are passed explicitly. *)

From Stdlib Require Import ZArith QArith Qabs Qminmax Qround Lqa Lia.
From Stdlib Require Import List String Ascii Sorting.Sorted Permutation.
From stdpp Require Import base option gmap strings list sorting.
Import ListNotations.

Local Open Scope Z_scope.
Local Open Scope Q_scope.

(** ** Outcomes of a call *)

(** A Go call returns, panics, or (in the model only) runs out of the fuel
    that bounds a [for] loop. *)
Inductive outcome (A : Type) : Type :=
| Ok (a : A)
| Panic (msg : string)
| OutOfFuel.
Arguments Ok {A} a.
Arguments Panic {A} msg.
Arguments OutOfFuel {A}.

#[global] Instance outcome_ret : MRet outcome := fun A a => Ok a.
#[global] Instance outcome_bind : MBind outcome := fun A B k m =>
  match m with
  | Ok a => k a
  | Panic msg => Panic msg
  | OutOfFuel => OutOfFuel
  end.

Definition returns {A} (m : outcome A) : Prop := exists a, m = Ok a.

(** ** Amount (amount.go) *)

Definition Asset := string.
Definition AssetUnknown : Asset := EmptyString.

Record Amount := mkAmount { asset : Asset; rat : Q }.

(** [big.Rat.Sign]: -1, 0 or +1. *)
Definition Qsign (q : Q) : Z := Z.sgn (Qnum q).
Definition Sign (x : Amount) : Z := Qsign (rat x).

Definition NewAmount (a : Asset) (amount : Q) : Amount := mkAmount a amount.

Definition ZeroClone (this : Amount) : Amount := mkAmount (asset this) 0.
Definition NegClone (this : Amount) : Amount := mkAmount (asset this) (- rat this).
Definition AbsClone (this : Amount) : Amount := mkAmount (asset this) (Qabs (rat this)).
Definition Clone (this : Amount) : Amount := mkAmount (asset this) (rat this).

Definition Compatible (this x : Amount) : bool :=
  bool_decide (asset this = asset x).

(** [big.Rat.Quo] panics on a zero divisor. *)
Definition Quo (x y : Q) : outcome Q :=
  if (Qsign y =? 0)%Z then Panic "division by zero" else Ok (x / y).

(** ** Lot (lot.go) *)

Definition Time := Z.

Record Lot := mkLot {
  name : string;
  date : Time;
  weight : Z;              (* uint: order tie-break when dates are equal *)
  inventory : Amount;
  startInventory : Amount;
  startCost : Amount;
  price : Q
}.

(** [weight++] on the package-level [uint] counter (64 bits). *)
Definition uint_incr (w : Z) : Z := ((w + 1) mod 2 ^ 64)%Z.

(** [NewLot], with the counter [weight] threaded through. *)
Definition NewLot (nm : string) (d : Time) (inv basis : Amount) (w : Z)
  : outcome (Lot * Z) :=
  if (Sign inv <? 1)%Z then Panic "lot must have positive inventory" else
  if (Sign basis <? 0)%Z then Panic "lot must have non-negative basis" else
  pr ← Quo (rat basis) (rat inv);
  let w' := uint_incr w in
  let this := mkLot nm d w' inv inv basis pr in
  if (Qsign (price this) <? 0)%Z then Panic "Calculated new lot price" else
  Ok (this, w').

(** [this.inventory = x]: the field is given a new [Amount]. *)
Definition assign_inventory (this : Lot) (x : Amount) : Lot :=
  mkLot (name this) (date this) (weight this) x
        (startInventory this) (startCost this) (price this).

(** [this.inventory.Set(tmp)]: the rational the field points to is
    overwritten in place. [NewLot] stores one [Amount], hence one
    [*big.Rat], in both [inventory] and [startInventory], and a lot whose
    [inventory] was re-assigned holds zero and is never set again: the
    write is seen through [startInventory] as well. *)
Definition set_inventory (this : Lot) (tmp : Q) : Lot :=
  mkLot (name this) (date this) (weight this)
        (mkAmount (asset (inventory this)) tmp)
        (mkAmount (asset (startInventory this)) tmp)
        (startCost this) (price this).

Definition set_weight (this : Lot) (w : Z) : Lot :=
  mkLot (name this) (date this) w (inventory this)
        (startInventory this) (startCost this) (price this).

Definition set_name (this : Lot) (nm : string) : Lot :=
  mkLot nm (date this) (weight this) (inventory this)
        (startInventory this) (startCost this) (price this).

(** [Lot.Sell]: the lot afterwards, the amount actually sold, its basis. *)
Definition Lot_Sell (this : Lot) (delta : Amount) : outcome (Lot * Amount * Amount) :=
  if (Sign delta >? -1)%Z then Panic "lot.Sell() expects negative amount" else
  if negb (Compatible delta (inventory this)) then
    Panic "lot.Sell() account/asset mismatch" else
  let tmp := rat (inventory this) + rat delta in
  let '(this', actual) :=
    match Qsign tmp with
    | Zneg _ => (assign_inventory this (ZeroClone (inventory this)), inventory this)
    | Zpos _ => (set_inventory this tmp, NegClone delta)
    | Z0 => (assign_inventory this (ZeroClone (inventory this)), NegClone delta)
    end in
  let basis := mkAmount (asset (startCost this)) (- (price this * rat actual)) in
  if (Sign actual <? 1)%Z then Panic "lot.Sell() calculated" else
  if (Sign basis >? 0)%Z then Panic "lot.Sell() basis" else
  Ok (this', actual, basis).

(** ** LotQueue (lot.go) *)

(** The flag [-order] is taken to be one of the two values the program
    names, [fifo] and [lifo]. The program does not check the flag: with
    another value [Less] panics (unexpected lot order) when a sort first
    compares two lots; such runs are outside the model. *)
Inductive order := FIFO | LIFO.

Record LotQueue := mkQueue { lot : list Lot; qorder : order }.

Definition Len (this : LotQueue) : nat := length (lot this).

(** The comparison of [LotQueue.Less] on two lots; the queue is sold from
    the tail of the slice. *)
Definition lot_less (o : order) (a b : Lot) : bool :=
  match o with
  | FIFO => (date a >? date b)%Z || ((date a =? date b)%Z && (weight a >? weight b)%Z)
  | LIFO => (date a <? date b)%Z || ((date a =? date b)%Z && (weight a <? weight b)%Z)
  end.

Definition Less (this : LotQueue) (i j : nat) : outcome bool :=
  match lot this !! i, lot this !! j with
  | Some a, Some b => Ok (lot_less (qorder this) a b)
  | _, _ => Panic "index out of range"
  end.

(** A slice is in the order of [Less] when no element is [Less] than one
    before it. *)
Definition in_order (o : order) (l : list Lot) : Prop :=
  StronglySorted (fun a b => lot_less o b a = false) l.

(** [sort.Sort] is the standard library's: it permutes the slice into the
    order of [Less], and is not stable. The development holds for every
    sort with that contract. *)
Class Sorter := {
  sort_lots : order -> list Lot -> list Lot;
  sort_lots_perm : forall o l, Permutation (sort_lots o l) l;
  sort_lots_in_order : forall o l, in_order o (sort_lots o l)
}.

Definition sanity (this : LotQueue) (delta : Amount) : outcome unit :=
  if (Sign delta =? 0)%Z then Panic "attempt to buy/sell zero amount" else
  match lot this with
  | [] =>
      if (Sign delta <? 0)%Z then Panic "attempt to sell from empty inventory"
      else Ok tt
  | l0 :: _ =>
      if bool_decide (asset delta <> asset (inventory l0)) then Panic "currency mismatch"
      else Ok tt
  end.

Definition LotQueue_Buy `{Sorter} (this : LotQueue) (l : Lot) : outcome LotQueue :=
  _ ← sanity this (inventory l);
  Ok (mkQueue (sort_lots (qorder this) (lot this ++ [l])) (qorder this)).

Inductive error :=
| ErrNoInventory (remaining delta : Amount)
| ErrSellBase (delta : Amount)
| ErrEmptyLot (delta : Amount) (qualifier : string)
| ErrCountMismatch
| ErrNonBasePrice (line : string)
| ErrSellSideNonBase (line : string)
| ErrConsumeSell (line : string) (e : error)
| ErrNoPrice (line : string)
| ErrAmountShape (str : string)
| ErrAmountNumber (str : string)
| ErrSplit (line : string).

(** What [LotQueue.Sell] leaves and returns: the queue's slice, and the
    named results [lot], [inventory], [basis], [err]. *)
Record Sold := mkSold {
  sold_queue : list Lot;
  sold_lot : list Lot;
  sold_inventory : list Amount;
  sold_basis : list Amount;
  sold_err : option error
}.

(** [l, this.lot = this.lot[len-1], this.lot[:len-1]] *)
Definition pop (lots : list Lot) : option (Lot * list Lot) :=
  match lots with
  | [] => None
  | d :: _ => Some (List.last lots d, removelast lots)
  end.

(** The loop of [LotQueue.Sell]; every turn but the last removes a lot. *)
Fixpoint sell_loop (fuel : nat) (delta : Amount) (lots : list Lot)
    (remaining : Amount) (lts : list Lot) (ivs bss : list Amount) : outcome Sold :=
  if (Sign remaining =? 0)%Z then Ok (mkSold lots lts ivs bss None) else
  match fuel with
  | O => OutOfFuel
  | S fuel' =>
      match pop lots with
      | None =>
          Ok (mkSold lots lts ivs bss (Some (ErrNoInventory remaining delta)))
      | Some (l, lots') =>
          '(l', sold, soldBasis) ← Lot_Sell l remaining;
          if (Sign sold =? -1)%Z || (Sign soldBasis =? 1)%Z then Panic "insane sale" else
          let lts' := lts ++ [l'] in
          let ivs' := ivs ++ [sold] in
          let bss' := bss ++ [soldBasis] in
          let remaining' := mkAmount (asset remaining) (rat remaining + rat sold) in
          if (Sign remaining' >? -1)%Z then
            if negb (Sign remaining' =? 0)%Z then Panic "lotFIFO.Sell() remaining" else
            if (Sign (inventory l') >? 0)%Z then
              sell_loop fuel' delta (lots' ++ [l']) remaining' lts' ivs' bss'
            else sell_loop fuel' delta lots' remaining' lts' ivs' bss'
          else sell_loop fuel' delta lots' remaining' lts' ivs' bss'
      end
  end.

Definition LotQueue_Sell (this : LotQueue) (delta : Amount) : outcome Sold :=
  _ ← sanity this delta;
  sell_loop (S (Len this)) delta (lot this) (Clone delta) [] [] [].

(** The queue after a [Sell]. *)
Definition queue_after (this : LotQueue) (s : Sold) : LotQueue :=
  mkQueue (sold_queue s) (qorder this).

(** ** Split (split.go) *)

(** One leg of a transaction. [delta], [price] and [cost] are pointers in
    the source, [nil] when the leg does not give them. *)
Record Split := mkSplit {
  account : string;
  split_delta : option Amount;
  split_price : option Amount;
  split_cost : option Amount;
  line : string;
  nullAmount : bool;
  comment : string
}.

Definition set_split_price (this : Split) (p : Amount) : Split :=
  mkSplit (account this) (split_delta this) (Some p) (split_cost this)
          (line this) (nullAmount this) (comment this).

Definition set_split_cost (this : Split) (c : Amount) : Split :=
  mkSplit (account this) (split_delta this) (split_price this) (Some c)
          (line this) (nullAmount this) (comment this).

Definition set_split_delta (this : Split) (d : Amount) : Split :=
  mkSplit (account this) (Some d) (split_price this) (split_cost this)
          (line this) (nullAmount this) (comment this).

(** [p != nil] *)
Definition non_nil {A} (p : option A) : bool :=
  match p with Some _ => true | None => false end.

(** [Split.Price]: the price, computed from the cost and stored in the
    split when it was not given. *)
Definition Split_Price (this : Split) : outcome (Split * Amount) :=
  match split_price this with
  | Some p => Ok (this, p)
  | None =>
      match split_cost this with
      | None => Panic "cannot determine price of split"
      | Some c =>
          match split_delta this with
          | None => Panic "nil pointer dereference"
          | Some d =>
              q ← Quo (rat c) (rat d);
              let p := mkAmount (asset c) q in
              Ok (set_split_price this p, p)
          end
      end
  end.

(** [Split.Cost]: the cost, computed from the price and stored in the
    split when it was not given. *)
Definition Split_Cost (this : Split) : outcome (Split * Amount) :=
  match split_cost this with
  | Some c => Ok (this, c)
  | None =>
      match split_price this with
      | None => Panic "cannot determine cost of split"
      | Some p =>
          match split_delta this with
          | None => Panic "nil pointer dereference"
          | Some d =>
              let c := mkAmount (asset p) (rat p * rat d) in
              Ok (set_split_cost this c, c)
          end
      end
  end.

(** [Split.Tally]: the cost with the sign of the delta when the split is
    priced, the delta ([nil] when there is none) otherwise. *)
Definition Split_Tally (this : Split) : outcome (Split * option Amount) :=
  if non_nil (split_cost this) || non_nil (split_price this) then
    '(this', c) ← Split_Cost this;
    match split_delta this' with
    | None => Panic "nil pointer dereference"
    | Some d =>
        if bool_decide (Sign c <> Sign d) then Ok (this', Some (NegClone c))
        else Ok (this', Some c)
    end
  else Ok (this, split_delta this).

(** [Split.Inventory]: the delta negated. *)
Definition Split_Inventory (this : Split) : outcome Amount :=
  match split_delta this with
  | None => Panic "nil pointer dereference"
  | Some d => Ok (NegClone d)
  end.

(** The split of the posting [  Assets:Crypto   -2 ABC @ 3 USD]. *)
Definition priced_sale : Split :=
  mkSplit "Assets:Crypto" (Some (mkAmount "ABC" (-2))) (Some (mkAmount "USD" 3)) None
          "  Assets:Crypto   -2 ABC @ 3 USD" false "".

(** The split of the posting [  Assets:Crypto   2 ABC @@ 6 USD]. *)
Definition costed_purchase : Split :=
  mkSplit "Assets:Crypto" (Some (mkAmount "ABC" 2)) None (Some (mkAmount "USD" 6))
          "  Assets:Crypto   2 ABC @@ 6 USD" false "".

(** ** Strings (the Go library functions the program calls)

    A Go string is its bytes, a [string]. *)

(** [strings.Split(s, sep)] for a separator of one byte. *)
Fixpoint strings_Split (s : string) (sep : ascii) : list string :=
  match s with
  | EmptyString => [EmptyString]
  | String c s' =>
      if Ascii.eqb c sep then EmptyString :: strings_Split s' sep
      else match strings_Split s' sep with
           | h :: t => String c h :: t
           | [] => [String c EmptyString]
           end
  end.

(** [strings.Join(parts, sep)] *)
Fixpoint strings_Join (parts : list string) (sep : string) : string :=
  match parts with
  | [] => EmptyString
  | [p] => p
  | p :: rest => p ++ sep ++ strings_Join rest sep
  end.

(** [strings.TrimRight(s, cutset)] for a cutset of one byte. *)
Fixpoint strings_TrimRight (s : string) (cut : ascii) : string :=
  match s with
  | EmptyString => EmptyString
  | String c s' =>
      match strings_TrimRight s' cut with
      | EmptyString => if Ascii.eqb c cut then EmptyString else String c EmptyString
      | t => String c t
      end
  end.

(** The white space of [strings.TrimSpace] among the ASCII bytes:
    tab, line feed, vertical tab, form feed, carriage return, space. *)
Definition is_space (c : ascii) : bool :=
  let n := N_of_ascii c in ((9 <=? n) && (n <=? 13) || (n =? 32))%N.

(** The white space runes outside ASCII ([unicode.IsSpace]), by the bytes
    of their UTF-8 encoding: U+0085 and U+00A0 (C2 85, C2 A0); U+1680
    (E1 9A 80), U+2000 to U+200A, U+2028, U+2029 and U+202F (E2 80 80 to
    E2 80 8A, E2 80 A8, E2 80 A9, E2 80 AF), U+205F (E2 81 9F) and U+3000
    (E3 80 80). *)
Definition space_rune2 (b1 b2 : ascii) : bool :=
  let n1 := N_of_ascii b1 in
  let n2 := N_of_ascii b2 in
  ((n1 =? 194) && ((n2 =? 133) || (n2 =? 160)))%N.

Definition space_rune3 (b1 b2 b3 : ascii) : bool :=
  let n1 := N_of_ascii b1 in
  let n2 := N_of_ascii b2 in
  let n3 := N_of_ascii b3 in
  (((n1 =? 225) && ((n2 =? 154) && (n3 =? 128)))
   || ((n1 =? 226) && ((n2 =? 128)
                       && (((128 <=? n3) && (n3 <=? 138))
                           || (n3 =? 168) || (n3 =? 169) || (n3 =? 175))))
   || ((n1 =? 226) && ((n2 =? 129) && (n3 =? 159)))
   || ((n1 =? 227) && ((n2 =? 128) && (n3 =? 128))))%N.

(** The white space runes that a string starts with are cut. A byte or
    a sequence of bytes that is not the encoding of a rune is read by Go
    as [utf8.RuneError], which is no white space. *)
Fixpoint trim_left_space (s : string) : string :=
  match s with
  | EmptyString => EmptyString
  | String b1 s1 =>
      if is_space b1 then trim_left_space s1 else
      match s1 with
      | String b2 s2 =>
          if space_rune2 b1 b2 then trim_left_space s2 else
          match s2 with
          | String b3 s3 => if space_rune3 b1 b2 b3 then trim_left_space s3 else s
          | EmptyString => s
          end
      | EmptyString => s
      end
  end.

Fixpoint string_rev (s : string) : string :=
  match s with
  | EmptyString => EmptyString
  | String c s' => (string_rev s' ++ String c EmptyString)%string
  end.

(** The same from the end, on the string reversed: the bytes of the last
    rune come first, the last of them at the head. *)
Fixpoint trim_space_reversed (r : string) : string :=
  match r with
  | EmptyString => EmptyString
  | String b1 r1 =>
      if is_space b1 then trim_space_reversed r1 else
      match r1 with
      | String b2 r2 =>
          if space_rune2 b2 b1 then trim_space_reversed r2 else
          match r2 with
          | String b3 r3 => if space_rune3 b3 b2 b1 then trim_space_reversed r3 else r
          | EmptyString => r
          end
      | EmptyString => r
      end
  end.

Definition trim_right_space (s : string) : string :=
  string_rev (trim_space_reversed (string_rev s)).

(** [strings.TrimSpace]: the white space runes at both ends are cut,
    those of ASCII and those of Unicode. *)
Definition strings_TrimSpace (s : string) : string := trim_right_space (trim_left_space s).

(** *** Decimal digits *)

Definition digit_char (d : N) : ascii := ascii_of_N (48 + d).

Definition char_digit (c : ascii) : option N :=
  let n := N_of_ascii c in
  if ((48 <=? n) && (n <=? 57))%N then Some (n - 48)%N else None.

(** [nat.utoa(10)]: the digits of [n], most significant first; one turn of
    the loop per digit, [fuel] bounding their number. *)
Fixpoint utoa_loop (fuel : nat) (n : N) (acc : string) : string :=
  match fuel with
  | O => acc
  | S fuel' =>
      let acc' := String (digit_char (n mod 10)) acc in
      if (n <? 10)%N then acc' else utoa_loop fuel' (n / 10)%N acc'
  end.

Definition utoa (n : N) : string := utoa_loop (S (N.to_nat (N.log2 n))) n EmptyString.

(** The number a string of decimal digits writes; [None] when a byte is
    not a digit. *)
Fixpoint digits_from (s : string) (acc : N) : option N :=
  match s with
  | EmptyString => Some acc
  | String c s' =>
      match char_digit c with
      | Some d => digits_from s' (10 * acc + d)%N
      | None => None
      end
  end.

Definition digits (s : string) : option N := digits_from s 0.

Fixpoint zeros (k : nat) : string :=
  match k with O => EmptyString | S k' => String "0" (zeros k') end.

(** *** big.Rat *)

Fixpoint pow10 (k : nat) : positive :=
  match k with O => 1%positive | S k' => (10 * pow10 k')%positive end.

(** [big.Rat.FloatString(prec)]: [x] in decimal with [prec] digits after
    the point, the last one rounded to nearest, halves away from zero.
    [big.Rat] holds [x] in lowest terms. *)
Definition FloatString (x : Q) (prec : nat) : string :=
  let x' := Qred x in
  let neg := (Qnum x' <? 0)%Z in
  let a := Z.abs_N (Qnum x') in
  let b := Npos (Qden x') in
  let sign := if neg then "-" else "" in
  if (b =? 1)%N then
    sign ++ utoa a ++ (if (0 <? prec)%nat then "." ++ zeros prec else "")
  else
    let q := (a / b)%N in
    let r := (a mod b)%N in
    let p := (10 ^ N.of_nat prec)%N in
    let r := (r * p)%N in
    let r2 := (r mod b)%N in
    let r := (r / b)%N in
    let r2 := (r2 + r2)%N in
    let '(q, r) :=
      if (b <=? r2)%N then
        let r := (r + 1)%N in
        if (p <=? r)%N then ((q + 1)%N, (r - p)%N) else (q, r)
      else (q, r) in
    sign ++ utoa q ++
    (if (0 <? prec)%nat then
       let rs := utoa r in
       "." ++ zeros (prec - String.length rs) ++ rs
     else "").

(** [big.Rat.SetString] on decimal literals: an optional sign, digits, and
    optionally a point and digits, with a digit on one side of the point at
    least. The other literals Go reads (fractions, exponents, prefixed
    bases, digit separators) are outside the model, which refuses them. *)
Definition SetString (s : string) : option Q :=
  let '(neg, body) :=
    match s with
    | String "-" t => (true, t)
    | String "+" t => (false, t)
    | _ => (false, s)
    end in
  let signed (v : Q) : Q := if neg then Qopp v else v in
  match strings_Split body "." with
  | [ip] =>
      if (String.length ip =? 0)%nat then None else
      match digits ip with
      | Some n => Some (signed (inject_Z (Z.of_N n)))
      | None => None
      end
  | [ip; fp] =>
      if (String.length ip + String.length fp =? 0)%nat then None else
      match digits ip, digits fp with
      | Some n, Some m =>
          Some (signed (inject_Z (Z.of_N n)
                        + (Z.of_N m # pow10 (String.length fp))))
      | _, _ => None
      end
  | _ => None
  end.

(** ** Amount: display and parsing (amount.go) *)

(** [precision]: the decimal places observed for the asset in
    [decimalPlaces], 6 when none were. *)
Definition precision (decimalPlaces : gmap Asset nat) (a : Asset) : nat :=
  match decimalPlaces !! a with
  | Some p => p
  | None => 6%nat
  end.

Definition Amount_FloatString (decimalPlaces : gmap Asset nat) (this : Amount) : string :=
  FloatString (rat this) (precision decimalPlaces (asset this)).

(** [Amount.String] *)
Definition Amount_String (decimalPlaces : gmap Asset nat) (this : Amount) : string :=
  let f := Amount_FloatString decimalPlaces this in
  let parts := strings_Split f "." in
  let parts :=
    match parts with
    | p0 :: p1 :: rest =>
        let p1 := strings_TrimRight p1 "0" in
        if (String.length p1 =? 0)%nat then [p0] else p0 :: p1 :: rest
    | _ => parts
    end in
  strings_Join parts "." ++ " " ++ asset this.

(** [parseAmount]: the amount or the error, and [decimalPlaces]
    afterwards. *)
Definition parseAmount (str : string) (decimalPlaces : gmap Asset nat)
  : (Amount + error) * gmap Asset nat :=
  match strings_Split (strings_TrimSpace str) " " with
  | num :: a :: _ =>
      match SetString num with
      | None => (inr (ErrAmountNumber str), decimalPlaces)
      | Some v =>
          let this := mkAmount a v in
          let decimalPlaces :=
            match strings_Split num "." with
            | _ :: d1 :: _ =>
                if (precision decimalPlaces a <? String.length d1)%nat
                then <[a := String.length d1]> decimalPlaces
                else decimalPlaces
            | _ => decimalPlaces
            end in
          (inl this, decimalPlaces)
      end
  | _ => (inr (ErrAmountShape str), decimalPlaces)
  end.

(** ** Gains (op_lot.go, lotMain) *)

(** The nested maps [map[Asset]map[string][]Split] in the order [range]
    visits them. *)
Definition SplitSet := list (Asset * list (string * list Split)).

(** [new(big.Rat).SetString(x.FloatString())]: the amount as it is printed. *)
Definition printed (decimalPlaces : gmap Asset nat) (x : Amount) : outcome Q :=
  match SetString (Amount_FloatString decimalPlaces x) with
  | Some v => Ok v
  | None => Panic "bad amount"
  end.

(** The deltas in the base asset, as printed, added to [totalGain]. *)
Fixpoint base_deltas (decimalPlaces : gmap Asset nat) (base : Asset)
    (split : list Split) (totalGain : Q) : outcome Q :=
  match split with
  | [] => Ok totalGain
  | s :: rest =>
      match split_delta s with
      | None => Panic "nil pointer dereference"
      | Some d =>
          if bool_decide (asset d = base) then
            p ← printed decimalPlaces d;
            base_deltas decimalPlaces base rest (totalGain + p)
          else base_deltas decimalPlaces base rest totalGain
      end
  end.

Fixpoint base_deltas_qualified (decimalPlaces : gmap Asset nat) (base : Asset)
    (qualified : list (string * list Split)) (totalGain : Q) : outcome Q :=
  match qualified with
  | [] => Ok totalGain
  | (_, split) :: rest =>
      t ← base_deltas decimalPlaces base split totalGain;
      base_deltas_qualified decimalPlaces base rest t
  end.

Fixpoint base_deltas_splits (decimalPlaces : gmap Asset nat) (base : Asset)
    (splits : SplitSet) (totalGain : Q) : outcome Q :=
  match splits with
  | [] => Ok totalGain
  | (_, qualified) :: rest =>
      t ← base_deltas_qualified decimalPlaces base qualified totalGain;
      base_deltas_splits decimalPlaces base rest t
  end.

(** The variables of the tally of long and short term. *)
Record GainTally := mkGainTally {
  longBasis : Q;
  shortBasis : Q;
  longInventory : option Amount;
  shortInventory : option Amount;
  totalGain : Q
}.

(** [x.Add(x.Rat, y.Rat)] through a pointer. *)
Definition add_to (x : option Amount) (y : Amount) : outcome (option Amount) :=
  match x with
  | Some a => Ok (Some (mkAmount (asset a) (rat a + rat y)))
  | None => Panic "nil pointer dereference"
  end.

Section Gains.
(** [Elapsed] is not among the sources; the program uses the second of
    its results, the years from the first time to the second. *)
Variable Elapsed_years : Time -> Time -> Z.

(** One turn of the inventory loop. *)
Definition tally_event (decimalPlaces : gmap Asset nat) (txDate : Time)
    (t : GainTally) (l : Lot) (inv basis : Amount) : outcome GainTally :=
  let sold := (Sign inv >? 0)%Z in
  let isLongTerm := sold && (Elapsed_years (date l) txDate >? 0)%Z in
  let isShortTerm := sold && negb (Elapsed_years (date l) txDate >? 0)%Z in
  '(li, si) ←
    (if sold then
       let '(li, si) :=
         match longInventory t with
         | None => (Some (ZeroClone inv), Some (ZeroClone inv))
         | Some _ => (longInventory t, shortInventory t)
         end in
       match li with
       | Some x =>
           if bool_decide (asset x <> asset inv) then Panic "trade with mixed inventory"
           else Ok (li, si)
       | None => Panic "nil pointer dereference"
       end
     else Ok (longInventory t, shortInventory t));
  p ← printed decimalPlaces basis;
  '(lb, li) ← (if isLongTerm then li' ← add_to li inv; Ok (longBasis t + p, li')
               else Ok (longBasis t, li));
  '(sb, si) ← (if isShortTerm then si' ← add_to si inv; Ok (shortBasis t + p, si')
               else Ok (shortBasis t, si));
  Ok (mkGainTally lb sb li si (totalGain t + p)).

Fixpoint tally_events (decimalPlaces : gmap Asset nat) (txDate : Time)
    (t : GainTally) (lot : list Lot) (inventory basis : list Amount)
  : outcome GainTally :=
  match lot, inventory, basis with
  | l :: lot', i :: inventory', b :: basis' =>
      t' ← tally_event decimalPlaces txDate t l i b;
      tally_events decimalPlaces txDate t' lot' inventory' basis'
  | _, [], _ => Ok t
  | _, _, _ => Panic "index out of range"
  end.

(** The gains of a transaction: the total, its short and long term
    parts when inventory was sold, and the postings written. *)
Record Gains := mkGains {
  gain_tally : GainTally;
  gain_parts : option (Q * Q);
  gain_postings : list (string * Amount)
}.

Definition apportion (base : Asset) (t : GainTally) : outcome Gains :=
  match shortInventory t, longInventory t with
  | Some si, Some li =>
      let sellInventory := rat si + rat li in
      ratio ← Quo (rat si) sellInventory;
      let shortTermGain := totalGain t * ratio in
      let longTermGain := totalGain t - shortTermGain in
      let short :=
        if negb (Qsign shortTermGain =? 0)%Z
        then [("Lot:Income:short term gain"%string, NewAmount base (- shortTermGain))]
        else [] in
      let long :=
        if negb (Qsign longTermGain =? 0)%Z
        then [("Lot:Income:long term gain"%string, NewAmount base (- longTermGain))]
        else [] in
      Ok (mkGains t (Some (shortTermGain, longTermGain)) (short ++ long))
  | _, _ => Ok (mkGains t None [])
  end.

(** The part of [lotMain] from the check of the result slices to the
    gain postings; the lines it writes for the lots are left out, but for
    the panic on an inventory of zero. *)
Definition lotMain_gains (decimalPlaces : gmap Asset nat) (base : Asset)
    (isTrade : bool) (splits : SplitSet) (txDate : Time)
    (lot : list Lot) (inventory basis : list Amount) (comment : list string)
  : outcome Gains :=
  if negb (length lot =? length inventory)%nat
     || negb (length lot =? length basis)%nat
     || negb (length lot =? length comment)%nat
  then Panic "mismatch of lot/inventory/basis changes" else
  if existsb (fun i => (Sign i =? 0)%Z) inventory then Panic "zero inventory!" else
  total ← (if isTrade then base_deltas_splits decimalPlaces base splits 0 else Ok 0);
  t ← tally_events decimalPlaces txDate (mkGainTally 0 0 None None total)
        lot inventory basis;
  apportion base t.
End Gains.

(** ** The lot queues of the ledger (op_lot.go) *)

(** [strings.ReplaceAll(s, old, new)] for an [old] of one byte. *)
Fixpoint strings_ReplaceAll (s : string) (old : ascii) (new : string) : string :=
  match s with
  | EmptyString => EmptyString
  | String c rest =>
      if Ascii.eqb c old then (new ++ strings_ReplaceAll rest old new)%string
      else String c (strings_ReplaceAll rest old new)
  end.

(** [lotShortName], i.e. [100BTC@123.45USD]. *)
Definition lotShortName (decimalPlaces : gmap Asset nat) (inventory price : Amount)
  : string :=
  (strings_ReplaceAll (Amount_String decimalPlaces inventory) " " EmptyString
   ++ "@" ++
   strings_ReplaceAll (Amount_String decimalPlaces price) " " EmptyString)%string.

(** [getAssetQualifier], for the flag [-prune]. *)
Definition getAssetQualifier (pruneFlag : Z) (split : Split) : string :=
  if (pruneFlag >? -1)%Z then
    let accountSeg := strings_Split (account split) ":" in
    if (Z.of_nat (length accountSeg) >? pruneFlag)%Z
    then strings_Join (take (Z.to_nat pruneFlag) accountSeg) ":"
    else account split
  else account split.

(** The loop of [produceMoves] over the splits of a qualifier. *)
Fixpoint move_tally (splits : list Split) (sum : Q) : outcome Q :=
  match splits with
  | [] => Ok sum
  | split :: rest =>
      if non_nil (split_price split) || non_nil (split_cost split)
      then move_tally rest sum
      else match split_delta split with
           | None => Panic "nil pointer dereference"
           | Some d => move_tally rest (sum + rat d)
           end
  end.

Fixpoint move_tallies (qualified : list (string * list Split))
  : outcome (list (string * Q)) :=
  match qualified with
  | [] => Ok []
  | (qual, splits) :: rest =>
      sum ← move_tally splits 0;
      tallies ← move_tallies rest;
      Ok ((qual, sum) :: tallies)
  end.

(** [produceMoves]: for each asset and qualifier the sum of the deltas of
    the splits without price or cost. *)
Fixpoint produceMoves (splitSet : SplitSet) : outcome (list (Asset * list (string * Q))) :=
  match splitSet with
  | [] => Ok []
  | (a, qualified) :: rest =>
      tallies ← move_tallies qualified;
      moves ← produceMoves rest;
      Ok ((a, tallies) :: moves)
  end.

(** The package-level [lotQueue]: a queue for each asset and qualifier. *)
Definition Ledger := gmap Asset (gmap string LotQueue).

(** [lotQueue[asset][qualifier] = queue]; a write to an inner map that
    was never made panics. *)
Definition store (lotQueue : Ledger) (a : Asset) (qualifier : string)
    (queue : LotQueue) : outcome Ledger :=
  match lotQueue !! a with
  | None => Panic "assignment to entry in nil map"
  | Some inner => Ok (<[a := <[qualifier := queue]> inner]> lotQueue)
  end.

(** The state the resolvers of a transaction work on: the package-level
    [lotQueue] and [weight], and the named results [lot], [inventory],
    [basis], [comment] and [err] as they are built. *)
Record Resolver := mkResolver {
  res_ledger : Ledger;
  res_weight : Z;
  res_lot : list Lot;
  res_inventory : list Amount;
  res_basis : list Amount;
  res_comment : list string;
  res_err : option error
}.

Definition set_ledger (st : Resolver) (lq : Ledger) : Resolver :=
  mkResolver lq (res_weight st) (res_lot st) (res_inventory st) (res_basis st)
             (res_comment st) (res_err st).

Definition set_counter (st : Resolver) (w : Z) : Resolver :=
  mkResolver (res_ledger st) w (res_lot st) (res_inventory st) (res_basis st)
             (res_comment st) (res_err st).

Definition set_err (st : Resolver) (e : error) : Resolver :=
  mkResolver (res_ledger st) (res_weight st) (res_lot st) (res_inventory st)
             (res_basis st) (res_comment st) (Some e).

(** The four [append]s that report one lot. *)
Definition report (st : Resolver) (l : Lot) (i b : Amount) (c : string) : Resolver :=
  mkResolver (res_ledger st) (res_weight st) (res_lot st ++ [l])
             (res_inventory st ++ [i]) (res_basis st ++ [b])
             (res_comment st ++ [c]) (res_err st).

Definition start (lotQueue : Ledger) (w : Z) : Resolver :=
  mkResolver lotQueue w [] [] [] [] None.

Section Ledger.
Context `{Sorter}.
(** The flags [-base] and [-order], the precision registry, and
    [time.Time.Format] with the layout [2006-01-02]. *)
Variable base : Asset.
Variable orderFlag : order.
Variable decimalPlaces : gmap Asset nat.
Variable Format : Time -> string.
(** A second [range] over a map need not visit it in the order of the
    first: the order in which it does. *)
Variable range_again : list (string * Q) -> list (string * Q).

Definition getQueue (lotQueue : Ledger) (a : Asset) (qualifier : string)
  : outcome (LotQueue * Ledger) :=
  let inner := default ∅ (lotQueue !! a) in
  let queue := default (mkQueue [] orderFlag) (inner !! qualifier) in
  if bool_decide (a = base) && (0 <? Len queue)%nat
  then Panic "getQueue: base currency has lots!"
  else Ok (queue, <[a := <[qualifier := queue]> inner]> lotQueue).

Definition buy (lotQueue : Ledger) (l : Lot) (qualifier : string) : outcome Ledger :=
  '(queue, lq) ← getQueue lotQueue (asset (inventory l)) qualifier;
  queue' ← LotQueue_Buy queue l;
  store lq (asset (inventory l)) qualifier queue'.

(** [sell]: the results [lot], [inventory], [basis], [err], and the
    ledger afterwards. *)
Definition sell (lotQueue : Ledger) (qualifier : string) (delta : Amount)
  : outcome (list Lot * list Amount * list Amount * option error * Ledger) :=
  if bool_decide (asset delta = base)
  then Ok ([], [], [], Some (ErrSellBase delta), lotQueue) else
  '(queue, lq) ← getQueue lotQueue (asset delta) qualifier;
  if (Len queue <? 1)%nat
  then Ok ([], [], [], Some (ErrEmptyLot delta qualifier), lq) else
  s ← LotQueue_Sell queue delta;
  match sold_err s with
  | Some e => Ok (sold_lot s, sold_inventory s, sold_basis s, Some e, lq)
  | None =>
      if negb (length (sold_lot s) =? length (sold_inventory s))%nat
         || negb (length (sold_inventory s) =? length (sold_basis s))%nat
      then Ok (sold_lot s, sold_inventory s, sold_basis s, Some ErrCountMismatch, lq)
      else
        lq' ← store lq (asset delta) qualifier (queue_after queue s);
        Ok (sold_lot s, sold_inventory s, sold_basis s, None, lq')
  end.

(** *** Moves *)

Definition move_from_comment (amt : Amount) (qual : string) (j total : nat) : string :=
  (":MOVE: move " ++ Amount_String decimalPlaces amt ++ " from " ++ qual
   ++ " (" ++ utoa (N.of_nat j) ++ " of " ++ utoa (N.of_nat total) ++ ")")%string.

Definition move_to_comment (inv : Amount) (qual : string) : string :=
  (":MOVE: move " ++ Amount_String decimalPlaces inv ++ " to " ++ qual)%string.

Definition lot_name (qual : string) (d : Time) (shortName : string) (w : Z) : string :=
  ("Lot:" ++ qual ++ ":" ++ Format d ++ ":" ++ shortName ++ ":" ++ utoa (Z.to_N w))%string.

(** First pass, the loop over the lots a [sell] consumed: they are
    reported, and remembered as lots of the temporary queue. *)
Fixpoint move_out (amt : Amount) (qual : string) (total j : nat)
    (l : list Lot) (i b : list Amount) (tmpQueue : LotQueue) (st : Resolver)
  : outcome (LotQueue * Resolver) :=
  match l, i, b with
  | [], _, _ => Ok (tmpQueue, st)
  | lj :: l', ij :: i', bj :: b' =>
      let st1 := report st lj (Clone ij) (Clone bj)
                        (move_from_comment amt qual (S j) total) in
      '(tmpLot, w) ← NewLot "tmp" (date lj) ij (NegClone bj) (res_weight st1);
      tmpQueue' ← LotQueue_Buy tmpQueue tmpLot;
      move_out amt qual total (S j) l' i' b' tmpQueue' (set_counter st1 w)
  | _, _, _ => Panic "index out of range"
  end.

Fixpoint first_pass (a : Asset) (qualified : list (string * Q))
    (tmpQueue : LotQueue) (st : Resolver) : outcome (LotQueue * Resolver) :=
  match qualified with
  | [] => Ok (tmpQueue, st)
  | (qual, delta) :: rest =>
      if (Qsign delta =? -1)%Z then
        let amt := NewAmount a delta in
        '(l, i, b, e, lq) ← sell (res_ledger st) qual amt;
        match e with
        | Some e => Ok (tmpQueue, set_err (set_ledger st lq) e)
        | None =>
            '(tmpQueue', st') ←
              move_out amt qual (length l) 0 l i b tmpQueue (set_ledger st lq);
            first_pass a rest tmpQueue' st'
        end
      else first_pass a rest tmpQueue st
  end.

(** Second pass, the loop over the lots consumed from the temporary
    queue: each becomes a lot of the qualifier moved to. *)
Fixpoint move_in (qual : string) (l : list Lot) (i b : list Amount) (st : Resolver)
  : outcome Resolver :=
  match l, i, b with
  | [], _, _ => Ok st
  | lj :: l', ij :: i', bj :: b' =>
      let shortName :=
        lotShortName decimalPlaces ij (NewAmount (asset bj) (price lj)) in
      let nm := lot_name qual (date lj) shortName (weight lj) in
      '(newLot, w) ← NewLot nm (date lj) ij (NegClone bj) (res_weight st);
      let newLot := set_weight newLot (weight lj) in
      lq ← buy (res_ledger st) newLot qual;
      move_in qual l' i' b'
        (report (set_counter (set_ledger st lq) w) newLot (NegClone ij) (NegClone bj)
                (move_to_comment (inventory newLot) qual))
  | _, _, _ => Panic "index out of range"
  end.

Fixpoint second_pass (a : Asset) (qualified : list (string * Q))
    (tmpQueue : LotQueue) (st : Resolver) : outcome Resolver :=
  match qualified with
  | [] => Ok st
  | (qual, delta) :: rest =>
      if (Qsign delta =? 1)%Z then
        let amt := NegClone (NewAmount a delta) in
        s ← LotQueue_Sell tmpQueue amt;
        match sold_err s with
        | Some e => Ok (set_err st e)
        | None =>
            st' ← move_in qual (sold_lot s) (sold_inventory s) (sold_basis s) st;
            second_pass a rest (queue_after tmpQueue s) st'
        end
      else second_pass a rest tmpQueue st
  end.

(** [consumeMoves]; the maps are given in the order [range] visits
    them. A [return] on an error ends every loop. *)
Fixpoint consume_moves (moves : list (Asset * list (string * Q))) (st : Resolver)
  : outcome Resolver :=
  match moves with
  | [] => Ok st
  | (a, qualified) :: rest =>
      if bool_decide (a = base) then consume_moves rest st else
      '(tmpQueue, st1) ← first_pass a qualified (mkQueue [] orderFlag) st;
      if non_nil (res_err st1) then Ok st1 else
      st2 ← second_pass a (range_again qualified) tmpQueue st1;
      if non_nil (res_err st2) then Ok st2 else
      consume_moves rest st2
  end.

(** *** Trades *)

(** The sell side of a trade: the loop that reports the lots consumed. *)
Fixpoint report_sold (c : string) (l : list Lot) (i b : list Amount) (st : Resolver)
  : outcome Resolver :=
  match l, i, b with
  | [], _, _ => Ok st
  | lj :: l', ij :: i', bj :: b' =>
      report_sold c l' i' b' (report st lj (Clone ij) (Clone bj) c)
  | _, _, _ => Panic "index out of range"
  end.

(** The loop of a deferred purchase over the lots consumed to pay for
    it: they are reported, their bases as printed are taken from
    [lotBasis], and [lotDate] is set to the date of each in turn. *)
Fixpoint defer (l : list Lot) (i b : list Amount) (lotBasis : Amount)
    (lotDate : Time) (st : Resolver) : outcome (Amount * Time * Resolver) :=
  match l, i, b with
  | [], _, _ => Ok (lotBasis, lotDate, st)
  | lj :: l', ij :: i', bj :: b' =>
      let st1 := report st lj (Clone ij) (Clone bj) ":SELL:DEFER:" in
      roundedBasis ← printed decimalPlaces bj;
      defer l' i' b' (mkAmount (asset lotBasis) (rat lotBasis - roundedBasis))
            (date lj) st1
  | _, _, _ => Panic "index out of range"
  end.

(** The body of the loop of [consumeTrades] for one split; the flag
    returned is set when the body ends in [return]. *)
Definition consume_split (txDate : Time) (qual : string) (split : Split)
    (st : Resolver) : outcome (Resolver * bool) :=
  match split_delta split with
  | None => Panic "unexpected null amount in consumeTrades()"
  | Some delta =>
      let priced := non_nil (split_price split) || non_nil (split_cost split) in
      if bool_decide (asset delta = base) then
        Ok (if priced then set_err st (ErrNonBasePrice (line split)) else st, false)
      else if (Sign delta =? -1)%Z then
        if negb priced then Ok (st, false) else
        '(split, cost) ← Split_Cost split;
        let st := if bool_decide (asset cost <> base)
                  then set_err st (ErrSellSideNonBase (line split)) else st in
        '(l, i, b, e, lq) ← sell (res_ledger st) qual delta;
        match e with
        | Some e => Ok (set_err (set_ledger st lq) (ErrConsumeSell (line split) e), true)
        | None =>
            st' ← report_sold ":SELL:" l i b (set_ledger st lq);
            Ok (st', false)
        end
      else
        if negb priced then Ok (set_err st (ErrNoPrice (line split)), true) else
        '(split, pr) ← Split_Price split;
        let lotName := lotShortName decimalPlaces delta pr in
        '(split, cost) ← Split_Cost split;
        '(lotName, lotDate, lotBasis, lotComment, st, stop) ←
          (if bool_decide (asset cost <> base) then
             '(l, i, b, e, lq) ← sell (res_ledger st) qual (NegClone cost);
             match e with
             | Some e => Ok (lotName, txDate, cost, ":BUY:"%string,
                             set_err (set_ledger st lq) e, true)
             | None =>
                 if negb (length l =? length i)%nat || negb (length l =? length b)%nat
                 then Panic "deferred sell sanity check failed" else
                 match b with
                 | [] => Panic "index out of range"
                 | b0 :: _ =>
                     '(lotBasis, lotDate, st') ←
                       defer l i b (ZeroClone b0) txDate (set_ledger st lq);
                     Ok ((lotName ++ "@" ++
                          strings_ReplaceAll (Amount_String decimalPlaces lotBasis)
                                             " " EmptyString)%string,
                         lotDate, lotBasis, ":BUY:DEFER:"%string, st', false)
                 end
             end
           else Ok (lotName, txDate, cost, ":BUY:"%string, st, false));
        if (stop : bool) then Ok (st, true) else
        '(l, w) ← NewLot "temp" txDate delta lotBasis (res_weight st);
        let l := set_name l (lot_name qual lotDate lotName (weight l)) in
        lq ← buy (res_ledger st) l qual;
        inv ← Split_Inventory split;
        Ok (report (set_counter (set_ledger st lq) w) l (Clone inv) (Clone lotBasis)
                   lotComment, false)
  end.

Fixpoint consume_splits (txDate : Time) (qual : string) (splits : list Split)
    (st : Resolver) : outcome (Resolver * bool) :=
  match splits with
  | [] => Ok (st, false)
  | split :: rest =>
      '(st', stop) ← consume_split txDate qual split st;
      if (stop : bool) then Ok (st', true) else consume_splits txDate qual rest st'
  end.

Fixpoint consume_qualified (txDate : Time) (qualified : list (string * list Split))
    (st : Resolver) : outcome (Resolver * bool) :=
  match qualified with
  | [] => Ok (st, false)
  | (qual, splits) :: rest =>
      '(st', stop) ← consume_splits txDate qual splits st;
      if (stop : bool) then Ok (st', true) else consume_qualified txDate rest st'
  end.

Fixpoint consume_trades (txDate : Time) (trades : SplitSet) (st : Resolver)
  : outcome (Resolver * bool) :=
  match trades with
  | [] => Ok (st, false)
  | (_, qualified) :: rest =>
      '(st', stop) ← consume_qualified txDate qualified st;
      if (stop : bool) then Ok (st', true) else consume_trades txDate rest st'
  end.

(** [consumeTrades]; the maps are given in the order [range] visits
    them. *)
Definition consumeTrades (trades : SplitSet) (txDate : Time)
    (lotQueue : Ledger) (w : Z) : outcome Resolver :=
  '(st, _) ← consume_trades txDate trades (start lotQueue w);
  Ok st.

Definition consumeMoves (moves : list (Asset * list (string * Q)))
    (lotQueue : Ledger) (w : Z) : outcome Resolver :=
  consume_moves moves (start lotQueue w).
End Ledger.
(** * Properties *)

(** ** Signs of rationals *)

Lemma Qsign_cases (q : Q) :
  (q < 0 /\ Qsign q = (-1)%Z) \/ (q == 0 /\ Qsign q = 0%Z) \/ (0 < q /\ Qsign q = 1%Z).
Proof.
  destruct q as [n d]. unfold Qsign, Qlt, Qeq. simpl.
  destruct n as [|p|p]; simpl.
  - right; left; split; reflexivity.
  - right; right; split; [reflexivity | reflexivity].
  - left; split; reflexivity.
Qed.

Lemma Qsign_neg (q : Q) : q < 0 -> Qsign q = (-1)%Z.
Proof. intros Hq. destruct (Qsign_cases q) as [[_ E]|[[H _]|[H _]]]; [exact E | lra | lra]. Qed.

Lemma Qsign_zero (q : Q) : q == 0 -> Qsign q = 0%Z.
Proof. intros Hq. destruct (Qsign_cases q) as [[H _]|[[_ E]|[H _]]]; [lra | exact E | lra]. Qed.

Lemma Qsign_pos (q : Q) : 0 < q -> Qsign q = 1%Z.
Proof. intros Hq. destruct (Qsign_cases q) as [[H _]|[[H _]|[_ E]]]; [lra | lra | exact E]. Qed.

Lemma Qsign_neg_inv (q : Q) : Qsign q = (-1)%Z -> q < 0.
Proof. intros E. destruct (Qsign_cases q) as [[H _]|[[_ E']|[_ E']]]; [exact H | lia | lia]. Qed.

Lemma Qsign_zero_inv (q : Q) : Qsign q = 0%Z -> q == 0.
Proof. intros E. destruct (Qsign_cases q) as [[_ E']|[[H _]|[_ E']]]; [lia | exact H | lia]. Qed.

Lemma Qsign_pos_inv (q : Q) : Qsign q = 1%Z -> 0 < q.
Proof. intros E. destruct (Qsign_cases q) as [[_ E']|[[_ E']|[H _]]]; [lia | lia | exact H]. Qed.

(** ** Lot *)

(** The invariant [NewLot] establishes and [Lot.Sell] keeps: the unit price
    is not negative. *)
Definition priced (l : Lot) : Prop := 0 <= price l.

Lemma NewLot_ok nm d inv basis w l w' :
  NewLot nm d inv basis w = Ok (l, w') ->
  0 < rat inv /\ 0 <= rat basis /\ l = mkLot nm d (uint_incr w) inv inv basis (rat basis / rat inv)
  /\ w' = uint_incr w /\ priced l.
Proof.
  unfold NewLot, Quo, Sign. intros H.
  destruct (Qsign_cases (rat inv)) as [[Hi Ei]|[[Hi Ei]|[Hi Ei]]]; rewrite Ei in H;
    simpl in H; try discriminate.
  destruct (Qsign_cases (rat basis)) as [[Hb Eb]|[[Hb Eb]|[Hb Eb]]]; rewrite Eb in H;
    simpl in H; try discriminate.
  all: destruct (Qsign_cases (rat basis / rat inv)) as [[Hp Ep]|[[Hp Ep]|[Hp Ep]]];
    rewrite Ep in H; simpl in H; try discriminate.
  all: injection H as <- <-; unfold priced; simpl.
  all: repeat split; try lra.
Qed.

Lemma Lot_Sell_ok (this : Lot) (delta : Amount) :
  0 < rat (inventory this) -> priced this -> rat delta < 0 ->
  asset delta = asset (inventory this) ->
  exists this' actual basis,
    Lot_Sell this delta = Ok (this', actual, basis)
    /\ rat actual == Qmin (Qabs (rat delta)) (rat (inventory this))
    /\ 0 < rat actual
    /\ rat (inventory this') == rat (inventory this) - rat actual
    /\ 0 <= rat (inventory this')
    /\ (rat (inventory this) <= Qabs (rat delta) -> rat (inventory this') = 0)
    /\ rat basis = - (price this * rat actual)
    /\ rat basis <= 0
    /\ asset actual = asset (inventory this)
    /\ asset (inventory this') = asset (inventory this)
    /\ asset basis = asset (startCost this)
    /\ name this' = name this /\ date this' = date this /\ weight this' = weight this
    /\ price this' = price this /\ startCost this' = startCost this.
Proof.
  intros Hinv Hp Hd Ha. unfold Lot_Sell, Sign, Compatible.
  rewrite (Qsign_neg _ Hd). simpl.
  rewrite bool_decide_eq_true_2 by exact Ha. simpl.
  assert (Habs : Qabs (rat delta) == - rat delta) by (apply Qabs_neg; lra).
  unfold priced in Hp.
  destruct (Qsign_cases (rat (inventory this) + rat delta)) as [[Ht Et]|[[Ht Et]|[Ht Et]]];
    rewrite Et; simpl.
  - rewrite (Qsign_pos _ Hinv). simpl.
    assert (Hb : - (price this * rat (inventory this)) <= 0).
    { assert (0 <= price this * rat (inventory this)) by (apply Qmult_le_0_compat; lra). lra. }
    destruct (Qsign_cases (- (price this * rat (inventory this)))) as [[Hs Es]|[[Hs Es]|[Hs Es]]];
      rewrite Es; simpl; try lra.
    all: eexists _, _, _; split; [reflexivity|]; simpl.
    all: repeat split; try reflexivity; try lra; try assumption; try (intros; exfalso; lra).
    all: destruct (Q.min_spec (Qabs (rat delta)) (rat (inventory this))) as [[? ?]|[? ?]]; lra.
  - assert (Hact : 0 < - rat delta) by lra.
    rewrite (Qsign_pos _ Hact). simpl.
    assert (Hb : - (price this * - rat delta) <= 0).
    { assert (0 <= price this * - rat delta) by (apply Qmult_le_0_compat; lra). lra. }
    destruct (Qsign_cases (- (price this * - rat delta))) as [[Hs Es]|[[Hs Es]|[Hs Es]]];
      rewrite Es; simpl; try lra.
    all: eexists _, _, _; split; [reflexivity|]; simpl.
    all: repeat split; try reflexivity; try lra; try assumption; try (intros; exfalso; lra).
    all: destruct (Q.min_spec (Qabs (rat delta)) (rat (inventory this))) as [[? ?]|[? ?]]; lra.
  - assert (Hact : 0 < - rat delta) by lra.
    rewrite (Qsign_pos _ Hact). simpl.
    assert (Hb : - (price this * - rat delta) <= 0).
    { assert (0 <= price this * - rat delta) by (apply Qmult_le_0_compat; lra). lra. }
    destruct (Qsign_cases (- (price this * - rat delta))) as [[Hs Es]|[[Hs Es]|[Hs Es]]];
      rewrite Es; simpl; try lra.
    all: eexists _, _, _; split; [reflexivity|]; simpl.
    all: repeat split; try reflexivity; try lra; try assumption; try (intros; exfalso; lra).
    all: destruct (Q.min_spec (Qabs (rat delta)) (rat (inventory this))) as [[? ?]|[? ?]]; lra.
Qed.
(** ** LotQueue *)

(** A lot of a queue of asset [a]: positive inventory, a price that is not
    negative, the queue's asset. *)
Definition lot_ok (a : Asset) (l : Lot) : Prop :=
  0 < rat (inventory l) /\ priced l /\ asset (inventory l) = a.

(** Sum of the remaining inventories of a slice of lots. *)
Definition total (lots : list Lot) : Q :=
  fold_right (fun l acc => rat (inventory l) + acc) 0 lots.

Definition sumQ (xs : list Amount) : Q :=
  fold_right (fun x acc => rat x + acc) 0 xs.

Lemma total_app l1 l2 : total (l1 ++ l2) == total l1 + total l2.
Proof. induction l1 as [|x l1 IH]; simpl; [lra | rewrite IH; lra]. Qed.

Lemma sumQ_app l1 l2 : sumQ (l1 ++ l2) == sumQ l1 + sumQ l2.
Proof. induction l1 as [|x l1 IH]; simpl; [lra | rewrite IH; lra]. Qed.

Lemma pop_snoc (lots : list Lot) (l : Lot) : pop (lots ++ [l]) = Some (l, lots).
Proof.
  unfold pop. destruct (lots ++ [l]) as [|d t] eqn:E.
  - destruct lots; discriminate.
  - rewrite <- E. rewrite last_last, removelast_last. reflexivity.
Qed.

Lemma sell_loop_done fuel delta lots remaining lts ivs bss :
  rat remaining == 0 ->
  sell_loop fuel delta lots remaining lts ivs bss = Ok (mkSold lots lts ivs bss None).
Proof.
  intros H. destruct fuel; simpl; unfold Sign; rewrite (Qsign_zero _ H); reflexivity.
Qed.

(** The three turns of the loop on a lot [l] at the tail of the slice. *)
Section Turn.
Variables (a : Asset) (l : Lot) (remaining : Amount).
Hypothesis Hl : lot_ok a l.
Hypothesis Ha : asset remaining = a.
Hypothesis Hr : rat remaining < 0.

Let tmp := rat (inventory l) + rat remaining.

Lemma turn_under fuel delta lots lts ivs bss :
  tmp < 0 ->
  sell_loop (S fuel) delta (lots ++ [l]) remaining lts ivs bss =
  sell_loop fuel delta lots
    (mkAmount (asset remaining) (rat remaining + rat (inventory l)))
    (lts ++ [assign_inventory l (ZeroClone (inventory l))])
    (ivs ++ [inventory l])
    (bss ++ [mkAmount (asset (startCost l)) (- (price l * rat (inventory l)))]).
Proof.
  intros Ht. destruct Hl as (Hi & Hp & Hal).
  cbn [sell_loop]. unfold Sign at 1. rewrite (Qsign_neg _ Hr). cbn [Z.eqb].
  rewrite pop_snoc. unfold Lot_Sell, Sign, Compatible.
  rewrite (Qsign_neg _ Hr). cbn [Z.gtb Z.compare Pos.compare Pos.compare_cont].
  rewrite bool_decide_eq_true_2 by congruence. cbn [negb].
  fold tmp. rewrite (Qsign_neg _ Ht).
  rewrite (Qsign_pos _ Hi). cbn -[sell_loop Qmult Qplus Qopp].
  assert (Hb : - (price l * rat (inventory l)) <= 0).
  { unfold priced in Hp.
    assert (0 <= price l * rat (inventory l)) by (apply Qmult_le_0_compat; lra). lra. }
  assert (Hr' : rat remaining + rat (inventory l) < 0) by (unfold tmp in Ht; lra).
  destruct (Qsign_cases (- (price l * rat (inventory l)))) as [[Hs Es]|[[Hs Es]|[Hs Es]]];
    try lra; rewrite Es; cbn -[sell_loop Qmult Qplus Qopp];
    unfold Sign; cbn -[sell_loop Qmult Qplus Qopp];
    rewrite ?(Qsign_pos _ Hi), ?Es, (Qsign_neg _ Hr'); reflexivity.
Qed.

Let basis_of (x : Q) := mkAmount (asset (startCost l)) (- (price l * x)).

Lemma basis_of_sign x : 0 <= x -> Qsign (- (price l * x)) <> 1%Z.
Proof.
  intros Hx E. apply Qsign_pos_inv in E. destruct Hl as (_ & Hp & _). unfold priced in Hp.
  assert (0 <= price l * x) by (apply Qmult_le_0_compat; lra). lra.
Qed.

Lemma turn_exact fuel delta lots lts ivs bss :
  tmp == 0 ->
  sell_loop (S fuel) delta (lots ++ [l]) remaining lts ivs bss =
  Ok (mkSold lots
        (lts ++ [assign_inventory l (ZeroClone (inventory l))])
        (ivs ++ [NegClone remaining])
        (bss ++ [basis_of (- rat remaining)]) None).
Proof.
  intros Ht. destruct Hl as (Hi & Hp & Hal).
  cbn [sell_loop]. unfold Sign at 1. rewrite (Qsign_neg _ Hr). cbn [Z.eqb].
  rewrite pop_snoc. unfold Lot_Sell, Sign, Compatible.
  rewrite (Qsign_neg _ Hr). cbn [Z.gtb Z.compare Pos.compare Pos.compare_cont].
  rewrite bool_decide_eq_true_2 by congruence. cbn [negb].
  fold tmp. rewrite (Qsign_zero _ Ht).
  assert (Hn : 0 < - rat remaining) by lra.
  cbn -[sell_loop Qmult Qplus Qopp]. rewrite (Qsign_pos _ Hn).
  cbn -[sell_loop Qmult Qplus Qopp].
  assert (Hz : rat remaining + - rat remaining == 0) by lra.
  pose proof (basis_of_sign (- rat remaining) ltac:(lra)) as Hb.
  destruct (Qsign_cases (- (price l * - rat remaining))) as [[Hs Es]|[[Hs Es]|[Hs Es]]];
    try congruence; rewrite Es; cbn -[sell_loop Qmult Qplus Qopp];
    unfold Sign; cbn -[sell_loop Qmult Qplus Qopp];
    rewrite ?(Qsign_pos _ Hn), ?Es, (Qsign_zero _ Hz); cbn -[sell_loop Qmult Qplus Qopp];
    rewrite sell_loop_done by exact Hz; reflexivity.
Qed.

Lemma turn_over fuel delta lots lts ivs bss :
  0 < tmp ->
  sell_loop (S fuel) delta (lots ++ [l]) remaining lts ivs bss =
  Ok (mkSold (lots ++ [set_inventory l tmp])
        (lts ++ [set_inventory l tmp])
        (ivs ++ [NegClone remaining])
        (bss ++ [basis_of (- rat remaining)]) None).
Proof.
  intros Ht. destruct Hl as (Hi & Hp & Hal).
  cbn [sell_loop]. unfold Sign at 1. rewrite (Qsign_neg _ Hr). cbn [Z.eqb].
  rewrite pop_snoc. unfold Lot_Sell, Sign, Compatible.
  rewrite (Qsign_neg _ Hr). cbn [Z.gtb Z.compare Pos.compare Pos.compare_cont].
  rewrite bool_decide_eq_true_2 by congruence. cbn [negb].
  fold tmp. rewrite (Qsign_pos _ Ht).
  assert (Hn : 0 < - rat remaining) by lra.
  cbn -[sell_loop Qmult Qplus Qopp]. rewrite (Qsign_pos _ Hn).
  cbn -[sell_loop Qmult Qplus Qopp].
  assert (Hz : rat remaining + - rat remaining == 0) by lra.
  pose proof (basis_of_sign (- rat remaining) ltac:(lra)) as Hb.
  destruct (Qsign_cases (- (price l * - rat remaining))) as [[Hs Es]|[[Hs Es]|[Hs Es]]];
    try congruence; rewrite Es; cbn -[sell_loop Qmult Qplus Qopp];
    unfold Sign; cbn -[sell_loop Qmult Qplus Qopp];
    rewrite ?(Qsign_pos _ Hn), ?Es, (Qsign_zero _ Hz), ?(Qsign_pos _ Ht);
    cbn -[sell_loop Qmult Qplus Qopp];
    rewrite sell_loop_done by exact Hz; reflexivity.
Qed.
End Turn.

Lemma total_pos a lots : Forall (lot_ok a) lots -> 0 <= total lots.
Proof.
  induction 1 as [|l lots Hl _ IH]; simpl; [lra|].
  destruct Hl as (Hi & _). lra.
Qed.

Lemma map_inventory_sumQ lots : sumQ (map inventory lots) == total lots.
Proof. induction lots as [|l lots IH]; simpl; [lra | rewrite IH; lra]. Qed.

(** The loop on a well-formed slice: it returns, what it sold and what it
    left add up to what was there, and it reports an error exactly when the
    slice held less than what was asked. *)
Lemma sell_loop_total (a : Asset) (delta : Amount) (lots : list Lot) :
  forall fuel remaining lts ivs bss,
    Forall (lot_ok a) lots -> asset remaining = a -> rat remaining < 0 ->
    (length lots < fuel)%nat ->
    exists s solds,
      sell_loop fuel delta lots remaining lts ivs bss = Ok s
      /\ sold_inventory s = ivs ++ solds
      /\ Forall (lot_ok a) (sold_queue s)
      /\ sumQ solds + total (sold_queue s) == total lots
      /\ Forall (fun x => 0 < rat x /\ asset x = a) solds
      /\ ((sold_err s = None /\ sumQ solds == - rat remaining
           /\ - rat remaining <= total lots)
          \/ (exists r, sold_err s = Some (ErrNoInventory r delta)
                /\ asset r = a
                /\ rat r == rat remaining + total lots
                /\ total lots < - rat remaining
                /\ sold_queue s = []
                /\ solds = map inventory (rev lots))).
Proof.
  induction lots as [|l lots IH] using rev_ind; intros fuel remaining lts ivs bss Hok Ha Hr Hf.
  - destruct fuel as [|fuel]; [simpl in Hf; lia|].
    cbn [sell_loop]. unfold Sign. rewrite (Qsign_neg _ Hr). cbn.
    eexists _, []. split; [reflexivity|]. cbn. rewrite app_nil_r.
    split; [reflexivity|]. split; [constructor|].
    split; [lra|]. split; [constructor|].
    right. exists remaining. repeat split; auto; lra.
  - apply Forall_app in Hok as [Hlots Hl]. apply Forall_inv in Hl.
    rewrite length_app in Hf. simpl in Hf.
    destruct fuel as [|fuel]; [lia|].
    pose proof Hl as (Hi & Hp & Hal).
    pose proof (total_pos a lots Hlots) as Htp.
    destruct (Q_dec (rat (inventory l) + rat remaining) 0) as [[Ht|Ht]|Ht].
    + rewrite (turn_under a l remaining Hl Ha Hr _ _ _ _ _ _ Ht).
      destruct (IH fuel (mkAmount (asset remaining) (rat remaining + rat (inventory l)))
                  (lts ++ [assign_inventory l (ZeroClone (inventory l))])
                  (ivs ++ [inventory l])
                  (bss ++ [mkAmount (asset (startCost l)) (- (price l * rat (inventory l)))]))
        as (s & solds & Es & Ei & Hq & Hsum & Hs & Hcase); auto; [simpl; lra | lia |].
      exists s, (inventory l :: solds). rewrite Es.
      split; [reflexivity|]. split; [rewrite Ei, <- app_assoc; reflexivity|].
      split; [exact Hq|]. rewrite total_app. simpl.
      split; [lra|]. split; [constructor; auto|].
      simpl in Hcase. destruct Hcase as [(He & H1 & H2)|(r & He & Har & H1 & H2 & H3 & H4)].
      * left. repeat split; auto; lra.
      * right. exists r. rewrite total_app, rev_app_distr. simpl.
        repeat split; auto; try lra. rewrite H4. reflexivity.
    + rewrite (turn_over a l remaining Hl Ha Hr _ _ _ _ _ _ Ht).
      eexists _, [NegClone remaining]. split; [reflexivity|]. cbn [sold_queue sold_lot sold_inventory sold_basis sold_err].
      split; [reflexivity|].
      split.
      { apply Forall_app. split; [exact Hlots|]. constructor; [|constructor].
        repeat split; auto. }
      rewrite !total_app. simpl.
      split; [lra|]. split; [constructor; [split; [simpl; lra | exact Ha] | constructor]|].
      left. repeat split; lra.
    + rewrite (turn_exact a l remaining Hl Ha Hr _ _ _ _ _ _ Ht).
      eexists _, [NegClone remaining]. split; [reflexivity|]. cbn [sold_queue sold_lot sold_inventory sold_basis sold_err].
      split; [reflexivity|].
      split; [exact Hlots|]. rewrite !total_app. simpl.
      split; [lra|]. split; [constructor; [split; [simpl; lra | exact Ha] | constructor]|].
      left. repeat split; lra.
Qed.

(** *** Insertion sort, a [Sorter] *)

Fixpoint insert_lot (o : order) (x : Lot) (l : list Lot) : list Lot :=
  match l with
  | [] => [x]
  | y :: l' => if lot_less o x y then x :: l else y :: insert_lot o x l'
  end.

Definition insertion_sort (o : order) (l : list Lot) : list Lot :=
  fold_right (insert_lot o) [] l.

Ltac zbool :=
  repeat match goal with
  | |- context [(?x >? ?y)%Z] => destruct (Z.gtb_spec x y)
  | |- context [(?x <? ?y)%Z] => destruct (Z.ltb_spec x y)
  | |- context [(?x =? ?y)%Z] => destruct (Z.eqb_spec x y)
  | H : context [(?x >? ?y)%Z] |- _ => destruct (Z.gtb_spec x y)
  | H : context [(?x <? ?y)%Z] |- _ => destruct (Z.ltb_spec x y)
  | H : context [(?x =? ?y)%Z] |- _ => destruct (Z.eqb_spec x y)
  end.

(** [x] is sold no later than [y] under the policy: by date, then weight;
    earliest first under FIFO, latest first under LIFO. *)
Definition sells_before (o : order) (x y : Lot) : Prop :=
  match o with
  | FIFO => (date x < date y)%Z \/ (date x = date y /\ (weight x <= weight y)%Z)
  | LIFO => (date y < date x)%Z \/ (date x = date y /\ (weight y <= weight x)%Z)
  end.

Lemma lot_less_false o a b : lot_less o b a = false <-> sells_before o b a.
Proof.
  unfold lot_less, sells_before. destruct o; zbool; simpl; intuition (try discriminate; try lia).
Qed.

Lemma lot_less_asym o a b : lot_less o a b = true -> lot_less o b a = false.
Proof. unfold lot_less. destruct o; zbool; simpl; intuition (try discriminate; try lia). Qed.

Lemma sells_before_trans o a b c :
  sells_before o a b -> sells_before o b c -> sells_before o a c.
Proof. unfold sells_before. destruct o; lia. Qed.

Lemma sells_before_total o a b : sells_before o a b \/ sells_before o b a.
Proof. unfold sells_before. destruct o; lia. Qed.

Lemma sells_before_refl o a : sells_before o a a.
Proof. unfold sells_before. destruct o; lia. Qed.

Lemma in_order_alt o l : in_order o l <-> StronglySorted (fun a b => sells_before o b a) l.
Proof.
  unfold in_order. split; induction 1; constructor; auto.
  - eapply Forall_impl; [eassumption|]. intros b Hb. apply lot_less_false, Hb.
  - eapply Forall_impl; [eassumption|]. intros b Hb. apply lot_less_false, Hb.
Qed.

Lemma insert_lot_perm o x l : Permutation (insert_lot o x l) (x :: l).
Proof.
  induction l as [|y l IH]; simpl; [reflexivity|].
  destruct (lot_less o x y); [reflexivity|].
  rewrite IH. apply perm_swap.
Qed.

Lemma insert_lot_in_order o x l : in_order o l -> in_order o (insert_lot o x l).
Proof.
  rewrite !in_order_alt. induction 1 as [|y l Hs IH Hy]; simpl.
  - constructor; constructor.
  - destruct (lot_less o x y) eqn:E.
    + constructor; [constructor; assumption|].
      apply lot_less_asym, lot_less_false in E.
      constructor; [exact E|].
      eapply Forall_impl; [exact Hy|]. intros b Hb. simpl in Hb.
      eapply sells_before_trans; eassumption.
    + constructor; [exact IH|].
      rewrite (insert_lot_perm o x l). constructor; [|exact Hy].
      apply lot_less_false. exact E.
Qed.

Lemma insertion_sort_perm o l : Permutation (insertion_sort o l) l.
Proof.
  induction l as [|x l IH]; simpl; [reflexivity|].
  rewrite insert_lot_perm. constructor. exact IH.
Qed.

Lemma insertion_sort_in_order o l : in_order o (insertion_sort o l).
Proof.
  induction l as [|x l IH]; simpl; [constructor|].
  apply insert_lot_in_order, IH.
Qed.

Definition insertion_sorter : Sorter :=
  {| sort_lots := insertion_sort;
     sort_lots_perm := insertion_sort_perm;
     sort_lots_in_order := insertion_sort_in_order |}.

(** *** Buy and Sell on a well-formed queue *)

(** A lot as the program buys it: made by [NewLot], its name and weight
    possibly overwritten afterwards (as [consumeMoves] and [consumeTrades]
    do). *)
Definition minted (l : Lot) : Prop :=
  exists nm d inv basis w l0 w',
    NewLot nm d inv basis w = Ok (l0, w')
    /\ l = set_name (set_weight l0 (weight l)) (name l).

(** The queues a program can hold: the empty queue, and what [Buy] of a
    minted lot and [Sell] make of such a queue when they return. *)
Inductive reachable `{Sorter} (o : order) : LotQueue -> Prop :=
| reach_empty : reachable o (mkQueue [] o)
| reach_Buy q l q' :
    reachable o q -> minted l -> LotQueue_Buy q l = Ok q' -> reachable o q'
| reach_Sell q delta s :
    reachable o q -> LotQueue_Sell q delta = Ok s -> reachable o (queue_after q s).

Lemma minted_ok l : minted l -> lot_ok (asset (inventory l)) l.
Proof.
  intros (nm & d & inv & basis & w & l0 & w' & HN & E).
  apply NewLot_ok in HN as (Hi & Hb & -> & _ & Hp).
  rewrite E. unfold lot_ok, priced in *. simpl in *. auto.
Qed.

Lemma sanity_ok_inv this delta :
  sanity this delta = Ok tt ->
  Sign delta <> 0%Z
  /\ match lot this with
     | [] => 0 < rat delta
     | l0 :: _ => asset delta = asset (inventory l0)
     end.
Proof.
  unfold sanity, Sign. intros H.
  destruct (Qsign_cases (rat delta)) as [[Hd Ed]|[[Hd Ed]|[Hd Ed]]]; rewrite Ed in *;
    simpl in H; try discriminate.
  - split; [lia|]. destruct (lot this); [discriminate|].
    destruct (bool_decide_reflect (asset delta <> asset (inventory l))) as [Hne|He];
      [discriminate|]. destruct (decide (asset delta = asset (inventory l))); tauto.
  - split; [lia|]. destruct (lot this); [exact Hd|].
    destruct (bool_decide_reflect (asset delta <> asset (inventory l))) as [Hne|He];
      [discriminate|]. destruct (decide (asset delta = asset (inventory l))); tauto.
Qed.

Lemma sanity_ok a this delta :
  Forall (lot_ok a) (lot this) -> lot this <> [] -> asset delta = a -> ~ rat delta == 0 ->
  sanity this delta = Ok tt.
Proof.
  intros Hq Hne Ha Hd. unfold sanity, Sign.
  destruct (Qsign_cases (rat delta)) as [[H0 Ed]|[[H0 Ed]|[H0 Ed]]]; rewrite Ed;
    try tauto; simpl.
  all: destruct (lot this) as [|l0 ?]; [congruence|].
  all: apply Forall_inv in Hq as (_ & _ & Hal).
  all: rewrite bool_decide_eq_false_2; [reflexivity|]; intros Hn; apply Hn; congruence.
Qed.

Section Queue.
Context `{Sorter}.

Lemma Buy_ok a this l :
  Forall (lot_ok a) (lot this) -> lot_ok a l ->
  exists q', LotQueue_Buy this l = Ok q'
    /\ Permutation (lot q') (lot this ++ [l])
    /\ in_order (qorder this) (lot q')
    /\ qorder q' = qorder this
    /\ Forall (lot_ok a) (lot q').
Proof.
  intros Hq Hl. unfold LotQueue_Buy.
  assert (Hs : sanity this (inventory l) = Ok tt).
  { destruct (lot this) as [|l0 t] eqn:E.
    - unfold sanity, Sign. destruct Hl as (Hi & _). rewrite (Qsign_pos _ Hi), E. reflexivity.
    - apply (sanity_ok a); rewrite ?E; auto; try congruence.
      + apply Hl.
      + destruct Hl as (Hi & _). lra. }
  rewrite Hs. simpl. eexists. split; [reflexivity|]. simpl.
  split; [apply sort_lots_perm|]. split; [apply sort_lots_in_order|].
  split; [reflexivity|].
  rewrite (sort_lots_perm (qorder this) (lot this ++ [l])).
  apply Forall_app. split; [exact Hq | constructor; [exact Hl | constructor]].
Qed.

Lemma Buy_inv this l q' :
  LotQueue_Buy this l = Ok q' ->
  sanity this (inventory l) = Ok tt
  /\ q' = mkQueue (sort_lots (qorder this) (lot this ++ [l])) (qorder this).
Proof.
  unfold LotQueue_Buy. destruct (sanity this (inventory l)) as [[]| |]; simpl;
    intros E; try discriminate. injection E as <-. auto.
Qed.

Lemma Sell_total a this delta :
  Forall (lot_ok a) (lot this) -> lot this <> [] -> asset delta = a -> rat delta < 0 ->
  exists s,
    LotQueue_Sell this delta = Ok s
    /\ Forall (lot_ok a) (sold_queue s)
    /\ sumQ (sold_inventory s) + total (sold_queue s) == total (lot this)
    /\ Forall (fun x => 0 < rat x /\ asset x = a) (sold_inventory s)
    /\ ((sold_err s = None /\ sumQ (sold_inventory s) == - rat delta
         /\ - rat delta <= total (lot this))
        \/ (exists r, sold_err s = Some (ErrNoInventory r delta)
              /\ asset r = a
              /\ rat r == rat delta + total (lot this)
              /\ total (lot this) < - rat delta
              /\ sold_queue s = []
              /\ sold_inventory s = map inventory (rev (lot this)))).
Proof.
  intros Hq Hne Ha Hd. unfold LotQueue_Sell.
  rewrite (sanity_ok a) by (auto; lra). simpl.
  destruct (sell_loop_total a delta (lot this) (S (Len this)) (Clone delta) [] [] [])
    as (s & solds & Es & Ei & Hrest); auto.
  exists s. split; [exact Es|]. simpl in Ei. subst solds. exact Hrest.
Qed.
End Queue.

(** *** The order of consumption *)

(** [l'] is the lot [l] after a sale: only the inventory moved. *)
Definition same_lot (l l' : Lot) : Prop :=
  name l' = name l /\ date l' = date l /\ weight l' = weight l
  /\ price l' = price l /\ startCost l' = startCost l.

Lemma same_lot_assign l x : same_lot l (assign_inventory l x).
Proof. repeat split. Qed.

Lemma same_lot_set l x : same_lot l (set_inventory l x).
Proof. repeat split. Qed.

Lemma sells_before_same_l o l l' x : same_lot l l' -> sells_before o l x -> sells_before o l' x.
Proof. intros (_ & Hd & Hw & _). unfold sells_before. rewrite Hd, Hw. auto. Qed.

Lemma sells_before_same_r o l l' x : same_lot l l' -> sells_before o x l -> sells_before o x l'.
Proof. intros (_ & Hd & Hw & _). unfold sells_before. rewrite Hd, Hw. auto. Qed.

(** The loop consumes a suffix of the slice from the tail, returns the lots
    it touched in that order, and leaves the rest, with the last lot touched
    put back when something of it remains. *)
Lemma sell_loop_order (a : Asset) (delta : Amount) (lots : list Lot) :
  forall fuel remaining lts ivs bss,
    Forall (lot_ok a) lots -> asset remaining = a -> rat remaining < 0 ->
    (length lots < fuel)%nat ->
    exists s rest consumed consumed',
      sell_loop fuel delta lots remaining lts ivs bss = Ok s
      /\ lots = rest ++ rev consumed
      /\ sold_lot s = lts ++ consumed'
      /\ Forall2 same_lot consumed consumed'
      /\ (lots <> [] -> consumed <> [])
      /\ (sold_queue s = rest
          \/ exists l l' cs cs',
               consumed = cs ++ [l] /\ consumed' = cs' ++ [l']
               /\ same_lot l l' /\ 0 < rat (inventory l')
               /\ sold_queue s = rest ++ [l']).
Proof.
  induction lots as [|l lots IH] using rev_ind; intros fuel remaining lts ivs bss Hok Ha Hr Hf.
  - destruct fuel as [|fuel]; [simpl in Hf; lia|].
    cbn [sell_loop]. unfold Sign. rewrite (Qsign_neg _ Hr). cbn.
    eexists _, [], [], []. split; [reflexivity|]. cbn. rewrite app_nil_r.
    split; [reflexivity|]. split; [reflexivity|]. split; [constructor|].
    split; [congruence|]. left. reflexivity.
  - apply Forall_app in Hok as [Hlots Hl]. apply Forall_inv in Hl.
    rewrite length_app in Hf. simpl in Hf.
    destruct fuel as [|fuel]; [lia|].
    pose proof Hl as (Hi & Hp & Hal).
    destruct (Q_dec (rat (inventory l) + rat remaining) 0) as [[Ht|Ht]|Ht].
    + rewrite (turn_under a l remaining Hl Ha Hr _ _ _ _ _ _ Ht).
      destruct (IH fuel (mkAmount (asset remaining) (rat remaining + rat (inventory l)))
                  (lts ++ [assign_inventory l (ZeroClone (inventory l))])
                  (ivs ++ [inventory l])
                  (bss ++ [mkAmount (asset (startCost l)) (- (price l * rat (inventory l)))]))
        as (s & rest & cons & cons' & Es & El & Esl & Hsame & _ & Htail);
        auto; [simpl; lra | lia |].
      exists s, rest, (l :: cons), (assign_inventory l (ZeroClone (inventory l)) :: cons').
      split; [exact Es|]. split; [simpl; rewrite El, app_assoc; reflexivity|].
      split; [rewrite Esl, <- app_assoc; reflexivity|].
      split; [constructor; [apply same_lot_assign | exact Hsame]|].
      split; [discriminate|].
      destruct Htail as [Hq|(lk & lk' & cs & cs' & -> & -> & Hs & Hpos & Hq)].
      * left. exact Hq.
      * right. exists lk, lk', (l :: cs), (assign_inventory l (ZeroClone (inventory l)) :: cs').
        repeat split; auto; apply Hs.
    + rewrite (turn_over a l remaining Hl Ha Hr _ _ _ _ _ _ Ht).
      eexists _, lots, [l], [_]. split; [reflexivity|].
      cbn [sold_queue sold_lot sold_inventory sold_basis sold_err].
      split; [reflexivity|]. split; [reflexivity|].
      split; [constructor; [apply same_lot_set | constructor]|].
      split; [discriminate|].
      right. eexists l, _, [], []. split; [reflexivity|]. split; [reflexivity|].
      split; [apply same_lot_set|]. split; [exact Ht | reflexivity].
    + rewrite (turn_exact a l remaining Hl Ha Hr _ _ _ _ _ _ Ht).
      eexists _, lots, [l], [_]. split; [reflexivity|].
      cbn [sold_queue sold_lot sold_inventory sold_basis sold_err].
      split; [reflexivity|]. split; [reflexivity|].
      split; [constructor; [apply same_lot_assign | constructor]|].
      split; [discriminate|]. left. reflexivity.
Qed.

Lemma lot_less_same_l o l l' x : same_lot l l' -> lot_less o l' x = lot_less o l x.
Proof. intros (_ & Hd & Hw & _). unfold lot_less. rewrite Hd, Hw. reflexivity. Qed.

Lemma in_order_put_back o rest cs l l' :
  in_order o (rest ++ rev (cs ++ [l])) -> same_lot l l' -> in_order o (rest ++ [l']).
Proof.
  unfold in_order. rewrite rev_app_distr. simpl.
  change (l :: rev cs) with ([l] ++ rev cs). rewrite app_assoc.
  intros Hs Hsame. apply StronglySorted_app_1_l in Hs.
  apply StronglySorted_app in Hs as (Hall & Hrest & _).
  apply StronglySorted_app. split; [|split; [exact Hrest | repeat constructor]].
  intros x1 x2 H1 H2. apply list_elem_of_singleton in H2 as ->.
  rewrite (lot_less_same_l o l l' x1 Hsame). apply Hall; [exact H1 | constructor].
Qed.

Lemma Sell_positive_panics this delta s :
  lot this <> [] -> 0 < rat delta -> LotQueue_Sell this delta = Ok s -> False.
Proof.
  intros Hne Hd. unfold LotQueue_Sell.
  destruct (sanity this delta) as [[]| |]; cbn [mbind outcome_bind]; try discriminate.
  cbn [sell_loop]. unfold Sign, Clone. cbn [rat]. rewrite (Qsign_pos _ Hd). cbn [Z.eqb].
  destruct (lot this) as [|l0 t _] using rev_ind; [congruence|].
  rewrite pop_snoc. unfold Lot_Sell, Sign. cbn [rat]. rewrite (Qsign_pos _ Hd). simpl. discriminate.
Qed.

Lemma Sell_empty this delta s :
  lot this = [] -> LotQueue_Sell this delta = Ok s ->
  sold_queue s = [] /\ sold_inventory s = [] /\ sold_lot s = [].
Proof.
  intros E. unfold LotQueue_Sell, Len. rewrite E.
  destruct (sanity this delta) as [[]| |]; cbn [mbind outcome_bind]; try discriminate.
  cbn [sell_loop length pop]. destruct (Sign _ =? 0)%Z; intros [= <-]; auto.
Qed.

Section Reachable.
Context `{Sorter}.

(** The invariant of the queues of a program: the slice is in the order
    of [Less], and its lots are well formed and of one asset. *)
Lemma reachable_inv o q :
  reachable o q ->
  qorder q = o /\ in_order o (lot q) /\ exists a, Forall (lot_ok a) (lot q).
Proof.
  induction 1 as [|q l q' Hr (Ho & Hin & a & Hok) Hm HB|q delta s Hr (Ho & Hin & a & Hok) HS].
  - simpl. split; [reflexivity|]. split; [constructor|]. exists EmptyString. constructor.
  - apply Buy_inv in HB as (Hs & ->). simpl.
    split; [exact Ho|]. split; [rewrite Ho; apply sort_lots_in_order|].
    pose proof (minted_ok l Hm) as Hl.
    destruct (lot q) as [|l0 t] eqn:E.
    + exists (asset (inventory l)). rewrite (sort_lots_perm (qorder q) ([] ++ [l])).
      constructor; [exact Hl | constructor].
    + exists a. rewrite (sort_lots_perm (qorder q) ((l0 :: t) ++ [l])).
      apply Forall_app. split; [exact Hok|]. constructor; [|constructor].
      apply sanity_ok_inv in Hs as (_ & Hs). rewrite E in Hs.
      pose proof (Forall_inv Hok) as (_ & _ & Ha0).
      destruct Hl as (Hi & Hp & _). repeat split; auto. congruence.
  - unfold queue_after. simpl. split; [exact Ho|].
    destruct (lot q) as [|l0 t] eqn:E.
    { destruct (Sell_empty q delta s E HS) as (-> & _). split; [constructor|].
      exists a. constructor. }
    assert (Hne : lot q <> []) by (rewrite E; discriminate).
    pose proof HS as HS'. unfold LotQueue_Sell in HS'.
    destruct (sanity q delta) as [[]| |] eqn:Es; cbn [mbind outcome_bind] in HS'; try discriminate.
    apply sanity_ok_inv in Es as (Hsg & Ha). rewrite E in Ha.
    assert (Haa : asset delta = a).
    { rewrite <- E in Hok. rewrite E in Hok. apply Forall_inv in Hok as (_ & _ & ?). congruence. }
    rewrite <- E in *.
    destruct (Qsign_cases (rat delta)) as [[Hd Ed]|[[Hd Ed]|[Hd Ed]]]; unfold Sign in Hsg;
      [| congruence | exfalso; eapply Sell_positive_panics; eauto].
    split.
    + destruct (sell_loop_order a delta (lot q) (S (Len q)) (Clone delta) [] [] [])
        as (s' & rest & cons & cons' & Es' & El & _ & _ & _ & Htail); auto.
      rewrite Es' in HS'. injection HS' as <-.
      destruct Htail as [->|(lk & lk' & cs & cs' & -> & _ & Hs & _ & ->)].
      * rewrite El in Hin. unfold in_order in *. eapply StronglySorted_app_1_l, Hin.
      * rewrite El in Hin. eapply in_order_put_back; eauto.
    + exists a. destruct (Sell_total a q delta) as (s' & Es' & Hq & _); auto.
      rewrite Es' in HS. injection HS as <-. exact Hq.
Qed.
End Reachable.

(** *** Sequences of calls on one queue *)

(** A call on the queue: [Buy] of the lot [NewLot] makes of its arguments,
    or [Sell]. *)
Inductive call :=
| DoBuy (nm : string) (d : Time) (inv basis : Amount)
| DoSell (delta : Amount).

(** The queue, the counter [weight], and two running sums: the inventories
    of the lots bought, and the amounts every [Sell] returned as sold. *)
Record book := mkBook { queue : LotQueue; counter : Z; bought : Q; sold : Q }.

Fixpoint run `{Sorter} (cs : list call) (b : book) : outcome book :=
  match cs with
  | [] => Ok b
  | DoBuy nm d inv basis :: cs' =>
      '(l, w') ← NewLot nm d inv basis (counter b);
      q' ← LotQueue_Buy (queue b) l;
      run cs' (mkBook q' w' (bought b + rat inv) (sold b))
  | DoSell delta :: cs' =>
      s ← LotQueue_Sell (queue b) delta;
      run cs' (mkBook (queue_after (queue b) s) (counter b) (bought b)
                 (sold b + sumQ (sold_inventory s)))
  end.

Lemma total_perm l1 l2 : Permutation l1 l2 -> total l1 == total l2.
Proof. induction 1; simpl; lra. Qed.

Section Run.
Context `{Sorter}.

Lemma Sell_conserves o q delta s :
  reachable o q -> LotQueue_Sell q delta = Ok s ->
  sumQ (sold_inventory s) + total (sold_queue s) == total (lot q).
Proof.
  intros Hr HS. destruct (reachable_inv o q Hr) as (_ & _ & a & Hok).
  destruct (lot q) as [|l0 t] eqn:E.
  { destruct (Sell_empty q delta s E HS) as (-> & -> & _). simpl. lra. }
  assert (Hne : lot q <> []) by (rewrite E; discriminate).
  pose proof HS as HS'. unfold LotQueue_Sell in HS'.
  destruct (sanity q delta) as [[]| |] eqn:Es; cbn [mbind outcome_bind] in HS'; try discriminate.
  apply sanity_ok_inv in Es as (Hsg & Ha). rewrite E in Ha.
  assert (Haa : asset delta = a).
  { apply Forall_inv in Hok as (_ & _ & ?). congruence. }
  rewrite <- E in *.
  destruct (Qsign_cases (rat delta)) as [[Hd Ed]|[[Hd Ed]|[Hd Ed]]]; unfold Sign in Hsg;
    [| congruence | exfalso; eapply Sell_positive_panics; eauto].
  destruct (Sell_total a q delta) as (s' & Es' & _ & Hsum & _); auto.
  rewrite Es' in HS. injection HS as <-. exact Hsum.
Qed.

Lemma run_conserves o cs : forall b b',
  reachable o (queue b) -> run cs b = Ok b' ->
  bought b == total (lot (queue b)) + sold b ->
  bought b' == total (lot (queue b')) + sold b'.
Proof.
  induction cs as [|c cs IH]; intros b b' Hr Hrun Hinv.
  - injection Hrun as <-. exact Hinv.
  - destruct c as [nm d inv basis|delta]; cbn [run] in Hrun.
    + destruct (NewLot nm d inv basis (counter b)) as [[l w']| |] eqn:EN;
        cbn [mbind outcome_bind] in Hrun; try discriminate.
      destruct (LotQueue_Buy (queue b) l) as [q'| |] eqn:EB;
        cbn [mbind outcome_bind] in Hrun; try discriminate.
      apply (IH _ _) in Hrun; [exact Hrun | |].
      * simpl. eapply reach_Buy; [exact Hr | | exact EB].
        exists nm, d, inv, basis, (counter b), l, w'. split; [exact EN|].
        destruct l; reflexivity.
      * simpl. apply Buy_inv in EB as (_ & ->). simpl.
        rewrite (total_perm _ _ (sort_lots_perm _ _)), total_app. simpl.
        apply NewLot_ok in EN as (_ & _ & -> & _). simpl. lra.
    + destruct (LotQueue_Sell (queue b) delta) as [s| |] eqn:ES;
        cbn [mbind outcome_bind] in Hrun; try discriminate.
      apply (IH _ _) in Hrun; [exact Hrun | |].
      * simpl. eapply reach_Sell; eassumption.
      * simpl. pose proof (Sell_conserves o _ _ _ Hr ES). lra.
Qed.
End Run.

(** *** Sample data: the lots of testdata/misc.ledger *)

Definition AAA : Asset := "AAA"%string.
Definition USD : Asset := "USD"%string.

(** 10 AAA bought for 1000 USD on day 17532 (2018-01-01), and 10 AAA bought
    for 5000 USD on day 18262 (2020-01-01). *)
Definition lot_2018 : Lot :=
  mkLot "Lot::2018-01-01:10AAA@100USD:1" 17532%Z 1%Z
        (mkAmount AAA 10) (mkAmount AAA 10) (mkAmount USD 1000) 100.
Definition lot_2020 : Lot :=
  mkLot "Lot::2020-01-01:10AAA@500USD:2" 18262%Z 2%Z
        (mkAmount AAA 10) (mkAmount AAA 10) (mkAmount USD 5000) 500.

Definition two_lots (o : order) : LotQueue :=
  mkQueue (match o with FIFO => [lot_2020; lot_2018] | LIFO => [lot_2018; lot_2020] end) o.

Definition two_buys : list call :=
  [DoBuy "lot1" 17532%Z (mkAmount AAA 10) (mkAmount USD 1000);
   DoBuy "lot2" 18262%Z (mkAmount AAA 10) (mkAmount USD 5000)].

(** ** The claims about lots and queues *)

(** C1. [Lot.Sell] on a lot with inventory [I > 0] and a negative,
    asset-compatible [delta] returns [actual = min(|delta|, I)], which is
    not negative; leaves [I - actual] in the lot (zero when [|delta| >= I]);
    and returns [basis = -(price * actual)], which is not positive. The lot
    is one whose unit price is not negative, as [NewLot] makes them
    ([NewLot_ok]). *)
Theorem Lot_Sell_actual_and_basis (this : Lot) (delta : Amount) :
  0 < rat (inventory this) -> priced this ->
  rat delta < 0 -> Compatible delta (inventory this) = true ->
  exists this' actual basis,
    Lot_Sell this delta = Ok (this', actual, basis)
    /\ rat actual == Qmin (Qabs (rat delta)) (rat (inventory this))
    /\ 0 <= rat actual
    /\ rat (inventory this') == rat (inventory this) - rat actual
    /\ (rat (inventory this) <= Qabs (rat delta) -> rat (inventory this') == 0)
    /\ rat basis == - (price this * rat actual)
    /\ rat basis <= 0.
Proof.
  intros Hi Hp Hd Hc. unfold Compatible in Hc. apply bool_decide_eq_true_1 in Hc.
  destruct (Lot_Sell_ok this delta Hi Hp Hd Hc)
    as (this' & actual & basis & E & Hact & Hpos & Hinv & _ & Hz & Hb & Hb0 & _).
  exists this', actual, basis. repeat split; auto; try lra.
  - intros Hle. rewrite (Hz Hle). reflexivity.
  - rewrite Hb. reflexivity.
Qed.

Lemma Lot_Sell_actual_and_basis_witness :
  exists this' actual basis,
    Lot_Sell lot_2018 (mkAmount AAA (-4)) = Ok (this', actual, basis)
    /\ rat actual == Qmin (Qabs (-4)) 10
    /\ 0 <= rat actual
    /\ rat (inventory this') == 10 - rat actual
    /\ (10 <= Qabs (-4) -> rat (inventory this') == 0)
    /\ rat basis == - (100 * rat actual)
    /\ rat basis <= 0.
Proof.
  apply (Lot_Sell_actual_and_basis lot_2018 (mkAmount AAA (-4))).
  - reflexivity.
  - unfold priced. simpl. discriminate.
  - reflexivity.
  - reflexivity.
Defined.

(** C2. Conservation: after any sequence of [Buy] and [Sell] calls on a
    queue that starts empty, the inventories of the lots bought add up to
    the inventories left in the queue plus the amounts the [Sell] calls
    returned as sold. The sequence is one in which every call returns; a
    [Sell] that returns the insufficient-inventory error is covered too,
    with the amounts it returns. *)
Theorem LotQueue_conservation `{Sorter} (o : order) (w : Z) (cs : list call) (b : book) :
  run cs (mkBook (mkQueue [] o) w 0 0) = Ok b ->
  bought b == total (lot (queue b)) + sold b.
Proof.
  intros Hrun. eapply (run_conserves o); [| exact Hrun |]; simpl.
  - apply reach_empty.
  - lra.
Qed.

Lemma LotQueue_conservation_witness :
  exists b,
    @run insertion_sorter (two_buys ++ [DoSell (mkAmount AAA (-12))])
         (mkBook (mkQueue [] FIFO) 0%Z 0 0) = Ok b
    /\ bought b == total (lot (queue b)) + sold b.
Proof.
  eexists. split; [vm_compute; reflexivity|].
  apply (@LotQueue_conservation insertion_sorter FIFO 0%Z
           (two_buys ++ [DoSell (mkAmount AAA (-12))])).
  vm_compute. reflexivity.
Defined.


(** The queue after the first purchase of testdata/misc.ledger. *)
Definition first_lot : Lot :=
  mkLot "lot1" 17532%Z 1%Z (mkAmount AAA 10) (mkAmount AAA 10)
        (mkAmount USD 1000) (1000 / 10).
Definition first_purchase : LotQueue := mkQueue [first_lot] FIFO.

Lemma first_purchase_reachable : @reachable insertion_sorter FIFO first_purchase.
Proof.
  eapply (@reach_Buy insertion_sorter FIFO (mkQueue [] FIFO) first_lot).
  - apply reach_empty.
  - exists "lot1"%string, 17532%Z, (mkAmount AAA 10), (mkAmount USD 1000), 0%Z.
    eexists _, _. split; reflexivity.
  - reflexivity.
Qed.

(** The queue after the second purchase, under either policy. *)
Definition second_lot : Lot :=
  mkLot "lot2" 18262%Z 2%Z (mkAmount AAA 10) (mkAmount AAA 10)
        (mkAmount USD 5000) (5000 / 10).
Definition both_purchases (o : order) : LotQueue :=
  mkQueue (match o with
           | FIFO => [second_lot; first_lot]
           | LIFO => [first_lot; second_lot]
           end) o.

Lemma both_purchases_reachable o : @reachable insertion_sorter o (both_purchases o).
Proof.
  eapply (@reach_Buy insertion_sorter o (mkQueue [first_lot] o) second_lot).
  - eapply (@reach_Buy insertion_sorter o (mkQueue [] o) first_lot).
    + apply reach_empty.
    + exists "lot1"%string, 17532%Z, (mkAmount AAA 10), (mkAmount USD 1000), 0%Z.
      eexists _, _. split; reflexivity.
    + reflexivity.
  - exists "lot2"%string, 18262%Z, (mkAmount AAA 10), (mkAmount USD 5000), 1%Z.
    eexists _, _. split; reflexivity.
  - destruct o; reflexivity.
Qed.

(** C10. Every lot in a queue has a positive remaining inventory. Lots come
    from [NewLot], which gives them one ([minted]); with that, the property
    holds of every queue reached from the empty one, and so is kept by
    every [Buy] of such a lot and by every [Sell], which puts a lot back
    only while something remains of it. *)
Theorem queued_lots_positive `{Sorter} (o : order) (q : LotQueue) :
  reachable o q ->
  Forall (fun l => 0 < rat (inventory l)) (lot q)
  /\ (forall l, minted l -> 0 < rat (inventory l))
  /\ (forall l q', minted l -> LotQueue_Buy q l = Ok q' ->
        Forall (fun l => 0 < rat (inventory l)) (lot q'))
  /\ (forall delta s, LotQueue_Sell q delta = Ok s ->
        Forall (fun l => 0 < rat (inventory l)) (sold_queue s)).
Proof.
  assert (Hpos : forall q0, reachable o q0 ->
                   Forall (fun l => 0 < rat (inventory l)) (lot q0)).
  { intros q0 Hr. destruct (reachable_inv o q0 Hr) as (_ & _ & a & Hok).
    eapply Forall_impl; [exact Hok|]. intros l Hl. apply Hl. }
  intros Hr. split; [apply Hpos, Hr|]. split; [intros l Hm; apply (minted_ok l Hm)|].
  split.
  - intros l q' Hm HB. apply Hpos. eapply reach_Buy; eassumption.
  - intros delta s HS. apply (Hpos (queue_after q s)). eapply reach_Sell; eassumption.
Qed.

Lemma queued_lots_positive_witness :
  Forall (fun l => 0 < rat (inventory l)) (lot first_purchase)
  /\ (forall l, minted l -> 0 < rat (inventory l))
  /\ (forall l q', minted l -> @LotQueue_Buy insertion_sorter first_purchase l = Ok q' ->
        Forall (fun l => 0 < rat (inventory l)) (lot q'))
  /\ (forall delta s, LotQueue_Sell first_purchase delta = Ok s ->
        Forall (fun l => 0 < rat (inventory l)) (sold_queue s)).
Proof.
  apply (@queued_lots_positive insertion_sorter FIFO first_purchase).
  apply first_purchase_reachable.
Defined.

Lemma StronglySorted_rev_flip {A} (R : A -> A -> Prop) (l : list A) :
  StronglySorted (fun a b => R b a) (rev l) -> StronglySorted R l.
Proof.
  induction l as [|x l IH]; simpl; intros Hs; [constructor|].
  apply StronglySorted_app in Hs as (Hall & Hl & _).
  constructor; [apply IH, Hl|].
  apply Forall_forall. intros y Hy. apply Hall; [|constructor].
  apply list_elem_of_In. apply list_elem_of_In in Hy. apply in_rev in Hy. exact Hy.
Qed.

Lemma same_lot_sorted o (l l' : list Lot) :
  Forall2 same_lot l l' ->
  StronglySorted (sells_before o) l -> StronglySorted (sells_before o) l'.
Proof.
  induction 1 as [|x x' l l' Hx Hl IH]; intros Hs; [constructor|].
  apply StronglySorted_inv in Hs as (Hs & Hall).
  constructor; [apply IH, Hs|].
  clear IH Hs. induction Hl as [|y y' l l' Hy Hl IHl]; [constructor|].
  apply Forall_cons in Hall as (Hxy & Hall).
  constructor; [|apply IHl, Hall].
  eapply sells_before_same_l; [exact Hx|]. eapply sells_before_same_r; eassumption.
Qed.

(** C3. The lots of a queue are consumed in the order of (date, weight):
    the lot at the selling end is first in that order among all the lots of
    the queue ([sells_before]: earliest date, then lowest weight, under
    FIFO; latest date, then highest weight, under LIFO); [Sell] consumes it
    first and returns the lots it consumed in that order; and selling less
    than that lot holds leaves it with the difference and every other lot
    as it was. *)
Theorem Sell_consumes_in_order `{Sorter} (o : order) (q : LotQueue) (delta : Amount) :
  reachable o q -> lot q <> [] ->
  Forall (fun l => Compatible delta (inventory l) = true) (lot q) ->
  rat delta < 0 ->
  exists (first : Lot) (rest : list Lot) (s : Sold),
    lot q = rest ++ [first]
    /\ Forall (sells_before o first) rest
    /\ LotQueue_Sell q delta = Ok s
    /\ (exists first' more, sold_lot s = first' :: more /\ same_lot first first')
    /\ StronglySorted (sells_before o) (sold_lot s)
    /\ (- rat delta < rat (inventory first) ->
          let first' := set_inventory first (rat (inventory first) + rat delta) in
          sold_queue s = rest ++ [first']
          /\ sold_lot s = [first']
          /\ sold_inventory s = [NegClone delta]
          /\ sold_err s = None).
Proof.
  intros Hr Hne Hc Hd.
  destruct (reachable_inv o q Hr) as (Ho & Hin & a & Hok).
  destruct (exists_last Hne) as (rest & first & Eq).
  assert (Ha : asset delta = a).
  { rewrite Eq in Hc, Hok. apply Forall_app in Hc as (_ & Hc), Hok as (_ & Hok).
    apply Forall_inv in Hc, Hok. unfold Compatible in Hc.
    apply bool_decide_eq_true_1 in Hc. destruct Hok as (_ & _ & Hok). congruence. }
  assert (Hsan : sanity q delta = Ok tt) by (apply (sanity_ok a); auto; lra).
  destruct (sell_loop_order a delta (lot q) (S (Len q)) (Clone delta) [] [] [])
    as (s & rest' & cons & cons' & Es & El & Esl & Hsame & Hcne & _); auto.
  assert (HS : LotQueue_Sell q delta = Ok s).
  { unfold LotQueue_Sell. rewrite Hsan. exact Es. }
  exists first, rest, s. split; [exact Eq|].
  split.
  { rewrite Eq in Hin. unfold in_order in Hin.
    apply StronglySorted_app in Hin as (Hall & _ & _).
    apply Forall_forall. intros x Hx. apply lot_less_false.
    apply Hall; [exact Hx | constructor]. }
  split; [exact HS|].
  specialize (Hcne Hne). destruct cons as [|c1 cs]; [congruence|].
  apply Forall2_cons_inv_l in Hsame as (c1' & cs' & Hc1 & Hcs & ->).
  assert (Hfirst : c1 = first).
  { rewrite Eq in El. simpl in El. rewrite app_assoc in El.
    apply app_inj_tail in El as (_ & ->). reflexivity. }
  subst c1. simpl in Esl.
  split; [exists c1', cs'; split; [exact Esl | exact Hc1]|].
  split.
  { rewrite Esl. apply (same_lot_sorted o (first :: cs)); [constructor; assumption|].
    apply StronglySorted_rev_flip. apply in_order_alt.
    rewrite El in Hin. unfold in_order in *. eapply StronglySorted_app_1_r, Hin. }
  intros Hpart first'.
  assert (Hl : lot_ok a first).
  { rewrite Eq in Hok. apply Forall_app in Hok as (_ & Hok). apply Forall_inv in Hok. exact Hok. }
  unfold LotQueue_Sell in HS. rewrite Hsan in HS. cbn [mbind outcome_bind] in HS.
  rewrite Eq in HS.
  rewrite (turn_over a first (Clone delta) Hl Ha Hd) in HS by (simpl; lra).
  injection HS as <-. cbn. auto.
Qed.

Lemma Sell_consumes_in_order_witness :
  exists (first : Lot) (rest : list Lot) (s : Sold),
    lot (both_purchases LIFO) = rest ++ [first]
    /\ Forall (sells_before LIFO first) rest
    /\ LotQueue_Sell (both_purchases LIFO) (mkAmount AAA (-4)) = Ok s
    /\ (exists first' more, sold_lot s = first' :: more /\ same_lot first first')
    /\ StronglySorted (sells_before LIFO) (sold_lot s)
    /\ (- (-4) < rat (inventory first) ->
          let first' := set_inventory first (rat (inventory first) + (-4)) in
          sold_queue s = rest ++ [first']
          /\ sold_lot s = [first']
          /\ sold_inventory s = [NegClone (mkAmount AAA (-4))]
          /\ sold_err s = None).
Proof.
  apply (@Sell_consumes_in_order insertion_sorter LIFO (both_purchases LIFO)
           (mkAmount AAA (-4))).
  - apply both_purchases_reachable.
  - discriminate.
  - repeat constructor.
  - reflexivity.
Defined.

(** ** The claim about splits *)

(** C5, as the code has it. When the cost is absent and price and delta are
    present, [Cost] returns [price * delta], with the sign of the delta
    (so [price * |delta|] only for a delta that is not negative), and stores
    it; when the price is absent and cost and a non-zero delta are present,
    [Price] returns [cost / delta]; and when price and cost are both absent
    either call fails with the invalid-split panic. *)
Theorem Split_Price_Cost_derived (this : Split) :
  (forall p d,
      split_cost this = None -> split_price this = Some p -> split_delta this = Some d ->
      let c := mkAmount (asset p) (rat p * rat d) in
      Split_Cost this = Ok (set_split_cost this c, c)
      /\ (0 <= rat d -> rat c == rat p * Qabs (rat d)))
  /\ (forall c d,
      split_price this = None -> split_cost this = Some c -> split_delta this = Some d ->
      ~ rat d == 0 ->
      let p := mkAmount (asset c) (rat c / rat d) in
      Split_Price this = Ok (set_split_price this p, p))
  /\ (split_price this = None -> split_cost this = None ->
      Split_Price this = Panic "cannot determine price of split"
      /\ Split_Cost this = Panic "cannot determine cost of split").
Proof.
  split; [|split].
  - intros p d Hc Hp Hd c. unfold Split_Cost. rewrite Hc, Hp, Hd.
    split; [reflexivity|]. intros Hpos. simpl. rewrite Qabs_pos by exact Hpos. reflexivity.
  - intros c d Hp Hc Hd Hnz p. unfold Split_Price, Quo. rewrite Hp, Hc, Hd.
    destruct (Qsign_cases (rat d)) as [[H0 E]|[[H0 E]|[H0 E]]]; rewrite E; try tauto;
      reflexivity.
  - intros Hp Hc. unfold Split_Price, Split_Cost. rewrite Hp, Hc. split; reflexivity.
Qed.

Lemma Split_Price_Cost_derived_witness :
  Split_Price costed_purchase =
    Ok (set_split_price costed_purchase (mkAmount "USD" (6 / 2)), mkAmount "USD" (6 / 2)).
Proof.
  apply (proj1 (proj2 (Split_Price_Cost_derived costed_purchase))
           (mkAmount "USD" 6) (mkAmount "ABC" 2)).
  - reflexivity.
  - reflexivity.
  - reflexivity.
  - discriminate.
Defined.

(** C5 as stated fails on a sale: for [-2 ABC @ 3 USD] the cost [Cost]
    returns is [-6 USD], not [3 * |-2| = 6 USD]. *)
Lemma Split_Cost_signed_counterexample :
  split_cost priced_sale = None
  /\ split_price priced_sale = Some (mkAmount "USD" 3)
  /\ split_delta priced_sale = Some (mkAmount "ABC" (-2))
  /\ exists this' c,
       Split_Cost priced_sale = Ok (this', c)
       /\ rat c == -6
       /\ ~ rat c == 3 * Qabs (-2).
Proof.
  split; [reflexivity|]. split; [reflexivity|]. split; [reflexivity|].
  eexists _, _. split; [reflexivity|]. simpl. split; [reflexivity | discriminate].
Qed.

(** ** Decimal strings *)

#[local] Arguments String.append : simpl nomatch.

Fixpoint string_forall (P : ascii -> bool) (s : string) : bool :=
  match s with
  | EmptyString => true
  | String c s' => P c && string_forall P s'
  end.

Definition is_digit (c : ascii) : bool :=
  match char_digit c with Some _ => true | None => false end.

Lemma string_app_assoc (s t u : string) : ((s ++ t) ++ u = s ++ (t ++ u))%string.
Proof. induction s as [|c s IH]; simpl; [reflexivity | rewrite IH; reflexivity]. Qed.

Lemma string_app_nil_r (s : string) : (s ++ EmptyString)%string = s.
Proof. induction s as [|c s IH]; simpl; [reflexivity | rewrite IH; reflexivity]. Qed.

Lemma string_length_app (s t : string) :
  String.length (s ++ t) = (String.length s + String.length t)%nat.
Proof. induction s as [|c s IH]; simpl; [reflexivity | rewrite IH; reflexivity]. Qed.

Lemma string_forall_app P s t :
  string_forall P (s ++ t) = string_forall P s && string_forall P t.
Proof. induction s as [|c s IH]; simpl; [reflexivity | rewrite IH, andb_assoc; reflexivity]. Qed.

Lemma string_forall_impl (P Q : ascii -> bool) s :
  (forall c, P c = true -> Q c = true) ->
  string_forall P s = true -> string_forall Q s = true.
Proof.
  intros HPQ. induction s as [|c s IH]; simpl; [reflexivity|].
  intros H. apply andb_prop in H as [H1 H2]. rewrite (HPQ c H1), (IH H2). reflexivity.
Qed.

Lemma char_digit_digit_char (d : N) : (d < 10)%N -> char_digit (digit_char d) = Some d.
Proof.
  intros Hd.
  assert (H : (d = 0 \/ d = 1 \/ d = 2 \/ d = 3 \/ d = 4 \/ d = 5 \/ d = 6 \/ d = 7
              \/ d = 8 \/ d = 9)%N) by lia.
  repeat (destruct H as [->|H]; [reflexivity|]). subst d. reflexivity.
Qed.

Lemma char_digit_bound c d : char_digit c = Some d -> (d < 10)%N.
Proof.
  unfold char_digit. destruct (andb _ _) eqn:E; [|discriminate].
  intros [= <-]. apply andb_prop in E as [E1 E2].
  apply N.leb_le in E1, E2. lia.
Qed.

Lemma digits_from_app s t a :
  digits_from (s ++ t) a =
  match digits_from s a with Some v => digits_from t v | None => None end.
Proof.
  revert a. induction s as [|c s IH]; intros a; simpl; [reflexivity|].
  destruct (char_digit c); [apply IH | reflexivity].
Qed.

Lemma digits_from_shift s a :
  digits_from s a =
  match digits_from s 0 with
  | Some v => Some (a * 10 ^ N.of_nat (String.length s) + v)%N
  | None => None
  end.
Proof.
  revert a. induction s as [|c s IH]; intros a.
  - simpl. f_equal. lia.
  - cbn [digits_from String.length]. destruct (char_digit c) as [d|]; [|reflexivity].
    rewrite (IH (10 * a + d)%N), (IH (10 * 0 + d)%N).
    destruct (digits_from s 0) as [v|]; [|reflexivity].
    f_equal. rewrite Nat2N.inj_succ, N.pow_succ_r'. lia.
Qed.

Lemma digits_from_is_digit s a v :
  digits_from s a = Some v -> string_forall is_digit s = true.
Proof.
  revert a. induction s as [|c s IH]; intros a; simpl; [reflexivity|].
  destruct (char_digit c) as [d|] eqn:E; [|discriminate].
  intros H. assert (Hc : is_digit c = true) by (unfold is_digit; rewrite E; reflexivity).
  rewrite Hc. simpl. eapply IH, H.
Qed.

Lemma utoa_loop_acc fuel n acc :
  utoa_loop fuel n acc = (utoa_loop fuel n EmptyString ++ acc)%string.
Proof.
  revert n acc. induction fuel as [|f IH]; intros n acc; simpl; [reflexivity|].
  destruct (n <? 10)%N; [reflexivity|].
  rewrite (IH _ (String _ acc)), (IH _ (String _ EmptyString)).
  rewrite string_app_assoc. reflexivity.
Qed.

Lemma utoa_loop_digits fuel n :
  (n < 2 ^ N.of_nat fuel)%N -> digits (utoa_loop fuel n EmptyString) = Some n.
Proof.
  unfold digits. revert n. induction fuel as [|f IH]; intros n Hn.
  - simpl in *. f_equal. lia.
  - cbn [utoa_loop]. destruct (N.ltb_spec n 10) as [H10|H10].
    + simpl. rewrite N.mod_small by exact H10.
      rewrite char_digit_digit_char by exact H10. simpl. f_equal; lia.
    + rewrite utoa_loop_acc, digits_from_app.
      rewrite IH.
      * simpl. rewrite char_digit_digit_char by (apply N.mod_lt; lia).
        f_equal. pose proof (N.div_mod n 10 ltac:(lia)). lia.
      * rewrite Nat2N.inj_succ, N.pow_succ_r' in Hn.
        apply N.Div0.div_lt_upper_bound. lia.
Qed.

Lemma utoa_digits n : digits (utoa n) = Some n.
Proof.
  unfold utoa. apply utoa_loop_digits.
  destruct n as [|p]; [reflexivity|].
  rewrite Nat2N.inj_succ, N2Nat.id.
  apply N.log2_spec. reflexivity.
Qed.

Lemma utoa_loop_length fuel n k :
  (n < 10 ^ N.of_nat k)%N -> (1 <= k)%nat ->
  (String.length (utoa_loop fuel n EmptyString) <= k)%nat.
Proof.
  revert n k. induction fuel as [|f IH]; intros n k Hn Hk; [simpl; lia|].
  cbn [utoa_loop]. destruct (N.ltb_spec n 10) as [H10|H10]; [simpl; lia|].
  rewrite utoa_loop_acc, string_length_app. simpl.
  destruct k as [|k]; [lia|]. destruct k as [|k].
  - simpl in Hn. lia.
  - assert (String.length (utoa_loop f (n / 10) EmptyString) <= S k)%nat; [|lia].
    apply IH; [|lia].
    rewrite Nat2N.inj_succ, N.pow_succ_r' in Hn.
    apply N.Div0.div_lt_upper_bound. lia.
Qed.

Lemma utoa_length n k :
  (n < 10 ^ N.of_nat k)%N -> (1 <= k)%nat -> (String.length (utoa n) <= k)%nat.
Proof. apply utoa_loop_length. Qed.

Lemma utoa_is_digit n : string_forall is_digit (utoa n) = true.
Proof. eapply digits_from_is_digit. apply utoa_digits. Qed.

Lemma utoa_nonempty n : exists c s, utoa n = String c s /\ is_digit c = true.
Proof.
  pose proof (utoa_is_digit n) as H. unfold utoa in *. cbn [utoa_loop] in *.
  destruct (n <? 10)%N.
  - eexists _, _. split; [reflexivity|]. simpl in H. apply andb_prop in H as [H _]. exact H.
  - rewrite utoa_loop_acc in *.
    destruct (utoa_loop _ _ EmptyString) as [|c s]; simpl in *.
    + eexists _, _. split; [reflexivity|]. apply andb_prop in H as [H _]. exact H.
    + eexists _, _. split; [reflexivity|]. apply andb_prop in H as [H _]. exact H.
Qed.

Lemma zeros_length k : String.length (zeros k) = k.
Proof. induction k; simpl; congruence. Qed.

Lemma zeros_is_digit k : string_forall is_digit (zeros k) = true.
Proof. induction k; simpl; auto. Qed.

Lemma digits_from_zeros k a : digits_from (zeros k) a = Some (a * 10 ^ N.of_nat k)%N.
Proof.
  revert a. induction k as [|k IH]; intros a.
  - simpl. f_equal. lia.
  - cbn [zeros digits_from]. change (char_digit "0") with (Some 0%N). cbn iota.
    rewrite IH. f_equal. rewrite Nat2N.inj_succ, N.pow_succ_r'. lia.
Qed.

(** A string of digits is its trimmed part followed by zeros. *)
Lemma TrimRight_zeros s :
  exists j, s = (strings_TrimRight s "0" ++ zeros j)%string
            /\ (String.length (strings_TrimRight s "0") + j = String.length s)%nat.
Proof.
  induction s as [|c s (j & E & L)].
  - exists 0%nat. split; reflexivity.
  - cbn [strings_TrimRight]. destruct (strings_TrimRight s "0") as [|d t] eqn:Et.
    + destruct (Ascii.eqb_spec c "0") as [->|Hne].
      * exists (S j). simpl in *. split; [congruence | lia].
      * exists j. simpl in *. split; [congruence | lia].
    + exists j. simpl in *. split; [congruence | lia].
Qed.

Lemma TrimRight_forall P s :
  string_forall P s = true -> string_forall P (strings_TrimRight s "0") = true.
Proof.
  induction s as [|c s IH]; simpl; [reflexivity|].
  intros H. apply andb_prop in H as [Hc Hs]. specialize (IH Hs).
  destruct (strings_TrimRight s "0") as [|d t].
  - destruct (Ascii.eqb c "0"); simpl; rewrite ?Hc; reflexivity.
  - cbn [string_forall] in *. rewrite Hc, IH. reflexivity.
Qed.

(** *** strings_Split *)

Lemma strings_Split_none s sep :
  string_forall (fun c => negb (Ascii.eqb c sep)) s = true -> strings_Split s sep = [s].
Proof.
  induction s as [|c s IH]; simpl; [reflexivity|].
  intros H. apply andb_prop in H as [Hc Hs]. apply negb_true_iff in Hc.
  rewrite Hc, (IH Hs). reflexivity.
Qed.

Lemma strings_Split_at s t sep :
  string_forall (fun c => negb (Ascii.eqb c sep)) s = true ->
  strings_Split (s ++ String sep t) sep = s :: strings_Split t sep.
Proof.
  induction s as [|c s IH]; simpl.
  - intros _. rewrite Ascii.eqb_refl. reflexivity.
  - intros H. apply andb_prop in H as [Hc Hs]. apply negb_true_iff in Hc.
    rewrite Hc, (IH Hs). reflexivity.
Qed.

(** ** Rounding *)

(** [x] rounded to [prec] decimal places, halves away from zero: the
    number of units of [10^-prec] in its absolute value, and the value. *)
Definition rounded_units (x : Q) (prec : nat) : Z :=
  Qfloor (Qabs x * inject_Z (Zpos (pow10 prec)) + (1 # 2)).

Definition round_half_away (x : Q) (prec : nat) : Q :=
  inject_Z (Qsign x) * (rounded_units x prec # pow10 prec).

Lemma pow10_spec k : Zpos (pow10 k) = (10 ^ Z.of_nat k)%Z.
Proof.
  induction k as [|k IH]; [reflexivity|].
  rewrite Nat2Z.inj_succ, Z.pow_succ_r by lia. cbn [pow10]. lia.
Qed.

Lemma pow10_N k : Npos (pow10 k) = (10 ^ N.of_nat k)%N.
Proof.
  induction k as [|k IH]; [reflexivity|].
  rewrite Nat2N.inj_succ, N.pow_succ_r'. cbn [pow10]. lia.
Qed.

(** The arithmetic of [FloatString]: quotient, scaled remainder, and the
    carry of the rounding. *)
Lemma round_arith (a b P : Z) :
  (0 <= a)%Z -> (0 < b)%Z -> (0 < P)%Z ->
  let q0 := (a / b)%Z in
  let r0 := (a mod b)%Z in
  let R0 := (r0 * P / b)%Z in
  let r2 := ((r0 * P) mod b)%Z in
  (0 <= R0 < P)%Z
  /\ (0 <= r2 < b)%Z
  /\ ((2 * a * P + b) / (2 * b) = q0 * P + R0 + (if (b <=? r2 + r2)%Z then 1 else 0))%Z.
Proof.
  intros Ha Hb HP q0 r0 R0 r2.
  pose proof (Z.div_mod a b ltac:(lia)) as Ea.
  pose proof (Z.mod_pos_bound a b Hb) as Hr0.
  pose proof (Z.div_mod (r0 * P) b ltac:(lia)) as Er.
  pose proof (Z.mod_pos_bound (r0 * P) b Hb) as Hr2.
  fold q0 r0 in Ea. fold r0 in Hr0. fold R0 r2 in Er. fold r2 in Hr2.
  assert (HR0 : (0 <= R0 < P)%Z).
  { split; [apply Z.div_pos; nia | apply Z.div_lt_upper_bound; nia]. }
  split; [exact HR0|]. split; [exact Hr2|].
  destruct (Z.leb_spec b (r2 + r2)).
  - symmetry. apply (Z.div_unique _ _ _ (r2 + r2 - b)); nia.
  - symmetry. apply (Z.div_unique _ _ _ (r2 + r2 + b)); nia.
Qed.

Lemma rounded_units_red (x : Q) (prec : nat) :
  rounded_units x prec =
  ((2 * Z.abs (Qnum (Qred x)) * Zpos (pow10 prec) + Zpos (Qden (Qred x)))
   / (2 * Zpos (Qden (Qred x))))%Z.
Proof.
  unfold rounded_units.
  transitivity (Qfloor ((2 * Z.abs (Qnum (Qred x)) * Zpos (pow10 prec) + Zpos (Qden (Qred x)))
                        # (2 * Qden (Qred x)))).
  - apply Qfloor_comp. rewrite <- (Qred_correct x) at 1.
    destruct (Qred x) as [n d]. unfold Qabs, Qeq, Qmult, Qplus, inject_Z. simpl. lia.
  - reflexivity.
Qed.

Lemma round_arith_N (a b p : N) :
  (b <> 0)%N -> (p <> 0)%N ->
  let q0 := (a / b)%N in
  let r0 := (a mod b * p)%N in
  let r2 := (r0 mod b)%N in
  let R0 := (r0 / b)%N in
  let r2 := (r2 + r2)%N in
  let '(q, r) :=
    if (b <=? r2)%N then
      let r := (R0 + 1)%N in
      if (p <=? r)%N then ((q0 + 1)%N, (r - p)%N) else (q0, r)
    else (q0, R0) in
  (r < p)%N
  /\ (Z.of_N q * Z.of_N p + Z.of_N r
      = (2 * Z.of_N a * Z.of_N p + Z.of_N b) / (2 * Z.of_N b))%Z.
Proof.
  intros Hb Hp q0 r0 r2 R0 r2'.
  destruct (round_arith (Z.of_N a) (Z.of_N b) (Z.of_N p)) as (HR & Hr2 & ->); try lia.
  assert (EA : Z.of_N q0 = (Z.of_N a / Z.of_N b)%Z) by (unfold q0; apply N2Z.inj_div).
  assert (ER : Z.of_N R0 = (Z.of_N a mod Z.of_N b * Z.of_N p / Z.of_N b)%Z).
  { unfold R0, r0. rewrite N2Z.inj_div, N2Z.inj_mul, N2Z.inj_mod. reflexivity. }
  assert (E2 : Z.of_N r2 = ((Z.of_N a mod Z.of_N b * Z.of_N p) mod Z.of_N b)%Z).
  { unfold r2, r0. rewrite N2Z.inj_mod, N2Z.inj_mul, N2Z.inj_mod. reflexivity. }
  rewrite <- EA, <- ER, <- E2 in *.
  unfold r2'. destruct (N.leb_spec b (r2 + r2)) as [H1|H1];
    destruct (Z.leb_spec (Z.of_N b) (Z.of_N r2 + Z.of_N r2)) as [H2|H2]; try lia.
  all: try (destruct (N.leb_spec p (R0 + 1)) as [H3|H3]); split; lia.
Qed.

(** ** FloatString *)

(** What [FloatString] writes: a sign, the digits of the integer part, and
    for a positive [prec] a point and exactly [prec] digits, which together
    count the rounded units of [x]. *)
Lemma FloatString_shape (x : Q) (prec : nat) :
  exists (qi r : N) (F : string),
    FloatString x prec =
      ((if (Qnum (Qred x) <? 0)%Z then "-" else "") ++ utoa qi ++
       (if (0 <? prec)%nat then "." ++ F else ""))%string
    /\ String.length F = prec
    /\ digits F = Some r
    /\ (Z.of_N qi * Zpos (pow10 prec) + Z.of_N r = rounded_units x prec)%Z.
Proof.
  rewrite rounded_units_red. unfold FloatString.
  set (n := Qnum (Qred x)). set (d := Qden (Qred x)).
  assert (Ha : Z.of_N (Z.abs_N n) = Z.abs n) by apply N2Z.inj_abs_N.
  destruct (N.eqb_spec (Npos d) 1) as [Hd|Hd].
  - injection Hd as Hd. rewrite Hd.
    exists (Z.abs_N n), 0%N, (zeros prec).
    split; [destruct prec; reflexivity|]. split; [apply zeros_length|].
    split; [unfold digits; rewrite digits_from_zeros; reflexivity|].
    rewrite Ha. apply (Z.div_unique _ _ _ 1); lia.
  - pose proof (round_arith_N (Z.abs_N n) (Npos d) (10 ^ N.of_nat prec)) as H.
    cbv zeta in H. rewrite <- pow10_N in *.
    destruct (if (Npos d <=? _)%N then _ else _) as [q r] eqn:E.
    destruct H as (Hr & Hv); [discriminate | discriminate |].
    rewrite Ha in Hv. change (Z.of_N (N.pos d)) with (Zpos d) in Hv.
    change (Z.of_N (N.pos (pow10 prec))) with (Zpos (pow10 prec)) in Hv.
    destruct prec as [|prec].
    + exists q, r, EmptyString. cbn [Nat.ltb Nat.leb].
      split; [reflexivity|]. split; [reflexivity|].
      assert (r = 0%N) by (simpl in Hr; lia). subst r.
      split; [reflexivity | exact Hv].
    + exists q, r, (zeros (S prec - String.length (utoa r)) ++ utoa r)%string.
      split; [reflexivity|].
      assert (Hlen : (String.length (utoa r) <= S prec)%nat).
      { apply utoa_length; [rewrite <- pow10_N; exact Hr | lia]. }
      split; [rewrite string_length_app, zeros_length; lia|].
      split; [|exact Hv].
      unfold digits. rewrite digits_from_app, digits_from_zeros. apply utoa_digits.
Qed.

(** ** SetString on what FloatString and String write *)

Definition not_byte (b : ascii) (c : ascii) : bool := negb (Ascii.eqb c b).

Lemma is_digit_not_point c : is_digit c = true -> not_byte "." c = true.
Proof.
  destruct c as [[] [] [] [] [] [] [] []]; try reflexivity; intros H; discriminate H.
Qed.

Lemma is_digit_not_blank c : is_digit c = true -> not_byte " " c = true.
Proof.
  destruct c as [[] [] [] [] [] [] [] []]; try reflexivity; intros H; discriminate H.
Qed.

Lemma is_digit_not_space c : is_digit c = true -> is_space c = false.
Proof.
  destruct c as [[] [] [] [] [] [] [] []]; try reflexivity; intros H; discriminate H.
Qed.

Lemma unsigned_body c t :
  is_digit c = true ->
  match String c t with
  | String "-" t' => (true, t')
  | String "+" t' => (false, t')
  | _ => (false, String c t)
  end = (false, String c t).
Proof.
  destruct c as [[] [] [] [] [] [] [] []]; try reflexivity; intros H; discriminate H.
Qed.

Definition sign_text (neg : bool) : string := if neg then "-" else "".
Definition signed (neg : bool) (v : Q) : Q := if neg then Qopp v else v.

Lemma SetString_body (neg : bool) (body : string) c t :
  body = String c t -> is_digit c = true ->
  SetString (sign_text neg ++ body) =
  match strings_Split body "." with
  | [ip] =>
      if (String.length ip =? 0)%nat then None else
      match digits ip with
      | Some n => Some (signed neg (inject_Z (Z.of_N n)))
      | None => None
      end
  | [ip; fp] =>
      if (String.length ip + String.length fp =? 0)%nat then None else
      match digits ip, digits fp with
      | Some n, Some m =>
          Some (signed neg (inject_Z (Z.of_N n) + (Z.of_N m # pow10 (String.length fp))))
      | _, _ => None
      end
  | _ => None
  end.
Proof.
  intros -> Hc. unfold SetString. destruct neg; simpl sign_text; cbn [append].
  - reflexivity.
  - rewrite (unsigned_body c t Hc). reflexivity.
Qed.

Lemma SetString_integer (neg : bool) (qi : N) :
  SetString (sign_text neg ++ utoa qi) = Some (signed neg (inject_Z (Z.of_N qi))).
Proof.
  destruct (utoa_nonempty qi) as (c & t & E & Hc).
  rewrite (SetString_body neg (utoa qi) c t E Hc).
  rewrite strings_Split_none.
  - rewrite utoa_digits, E. reflexivity.
  - eapply string_forall_impl; [apply is_digit_not_point | apply utoa_is_digit].
Qed.

Lemma SetString_fraction (neg : bool) (qi m : N) (G : string) :
  digits G = Some m ->
  SetString (sign_text neg ++ utoa qi ++ String "." G) =
  Some (signed neg (inject_Z (Z.of_N qi) + (Z.of_N m # pow10 (String.length G)))).
Proof.
  intros HG. destruct (utoa_nonempty qi) as (c & t & E & Hc).
  rewrite (SetString_body neg (utoa qi ++ String "." G) c (t ++ String "." G));
    [|rewrite E; reflexivity | exact Hc].
  rewrite strings_Split_at.
  - rewrite strings_Split_none.
    + rewrite utoa_digits, HG, E. reflexivity.
    + eapply string_forall_impl; [apply is_digit_not_point|].
      eapply digits_from_is_digit, HG.
  - eapply string_forall_impl; [apply is_digit_not_point | apply utoa_is_digit].
Qed.

Lemma pow10_add a b : pow10 (a + b) = (pow10 a * pow10 b)%positive.
Proof. induction a as [|a IH]; simpl pow10; [reflexivity | rewrite IH; lia]. Qed.

Lemma Qsign_comp (x y : Q) : x == y -> Qsign x = Qsign y.
Proof.
  intros E.
  destruct (Qsign_cases x) as [[Hx Ex]|[[Hx Ex]|[Hx Ex]]];
    destruct (Qsign_cases y) as [[Hy Ey]|[[Hy Ey]|[Hy Ey]]]; try lra; congruence.
Qed.

Lemma rounded_units_zero (x : Q) (prec : nat) : x == 0 -> rounded_units x prec = 0%Z.
Proof.
  intros E. unfold rounded_units.
  transitivity (Qfloor (1 # 2)); [|reflexivity].
  apply Qfloor_comp. rewrite E. reflexivity.
Qed.

Lemma rounded_units_nonneg (x : Q) (prec : nat) : (0 <= rounded_units x prec)%Z.
Proof.
  unfold rounded_units. change 0%Z with (Qfloor 0). apply Qfloor_resp_le.
  assert (0 <= Qabs x) by apply Qabs_nonneg.
  assert (0 <= Qabs x * inject_Z (Z.pos (pow10 prec))).
  { apply Qmult_le_0_compat; [assumption | discriminate]. }
  lra.
Qed.

(** The value of the decimal [sign qi.F], with [F] of [prec] digits. *)
Lemma decimal_value (x : Q) (prec : nat) (qi r : N) :
  (Z.of_N qi * Zpos (pow10 prec) + Z.of_N r = rounded_units x prec)%Z ->
  signed (Qnum (Qred x) <? 0)%Z (inject_Z (Z.of_N qi) + (Z.of_N r # pow10 prec))
  == round_half_away x prec.
Proof.
  intros Hv. unfold round_half_away. rewrite <- Hv.
  assert (Es : Qsign (Qred x) = Qsign x) by (apply Qsign_comp, Qred_correct).
  assert (Eq : inject_Z (Z.of_N qi) + (Z.of_N r # pow10 prec)
               == (Z.of_N qi * Z.pos (pow10 prec) + Z.of_N r # pow10 prec)).
  { unfold Qeq, Qplus, inject_Z. simpl. lia. }
  unfold Qsign in Es at 1.
  destruct (Qsign_cases x) as [[Hx Ex]|[[Hx Ex]|[Hx Ex]]]; rewrite Ex in *.
  - assert (Hn : (Qnum (Qred x) < 0)%Z) by lia.
    apply Z.ltb_lt in Hn. rewrite Hn. simpl signed. rewrite Eq.
    unfold Qeq, Qopp, Qmult, inject_Z. simpl. lia.
  - pose proof (rounded_units_zero x prec Hx) as Hz. rewrite <- Hv in Hz.
    rewrite Hz in *. destruct (Qnum (Qred x) <? 0)%Z; simpl signed; rewrite Eq;
      unfold Qeq, Qopp, Qmult, inject_Z; simpl; lia.
  - assert (Hn : (0 <= Qnum (Qred x))%Z) by lia.
    apply Z.ltb_ge in Hn. rewrite Hn. simpl signed. rewrite Eq.
    unfold Qeq, Qopp, Qmult, inject_Z. simpl. lia.
Qed.

(** [FloatString] read back by [SetString] is the rounded value: the
    "printed" amounts of the program. *)
Lemma SetString_FloatString (x : Q) (prec : nat) :
  exists v, SetString (FloatString x prec) = Some v /\ v == round_half_away x prec.
Proof.
  destruct (FloatString_shape x prec) as (qi & r & F & -> & HL & HF & Hv).
  fold (sign_text (Qnum (Qred x) <? 0)%Z).
  destruct prec as [|prec]; cbn [Nat.ltb Nat.leb].
  - rewrite string_app_nil_r, SetString_integer. eexists. split; [reflexivity|].
    destruct F; [|discriminate]. injection HF as <-.
    rewrite <- (decimal_value x 0 qi 0 Hv).
    destruct (Qnum (Qred x) <? 0)%Z; simpl signed; unfold Qeq, Qplus, Qopp, inject_Z;
      simpl; lia.
  - change ("." ++ F)%string with (String "." F).
    rewrite (SetString_fraction _ qi r F HF). eexists. split; [reflexivity|].
    rewrite HL. apply decimal_value, Hv.
Qed.

(** ** Amount.String and parseAmount *)

(** The count of bytes of the white space rune that a string ends with,
    read on the string reversed; [0] when it ends with none. *)
Definition space_width_reversed (r : string) : nat :=
  match r with
  | EmptyString => 0
  | String b1 r1 =>
      if is_space b1 then 1 else
      match r1 with
      | String b2 r2 =>
          if space_rune2 b2 b1 then 2 else
          match r2 with
          | String b3 _ => if space_rune3 b3 b2 b1 then 3 else 0
          | EmptyString => 0
          end
      | EmptyString => 0
      end
  end%nat.

Definition ends_in_space (s : string) : bool :=
  negb (space_width_reversed (string_rev s) =? 0)%nat.

(** An asset code as [parseAmount] can read one back: not empty, no space
    inside, and no white space rune at its end (which [strings.TrimSpace]
    would cut). *)
Definition is_token (a : Asset) : bool :=
  string_forall (not_byte " ") a
  && negb (String.eqb a EmptyString)
  && negb (ends_in_space a).

Lemma string_rev_app s t : string_rev (s ++ t) = (string_rev t ++ string_rev s)%string.
Proof.
  induction s as [|c s IH]; simpl.
  - rewrite string_app_nil_r. reflexivity.
  - rewrite IH, string_app_assoc. reflexivity.
Qed.

Lemma string_rev_involutive s : string_rev (string_rev s) = s.
Proof.
  induction s as [|c s IH]; [reflexivity|].
  simpl. rewrite string_rev_app, IH. reflexivity.
Qed.

Lemma string_rev_nonempty s : s <> EmptyString -> string_rev s <> EmptyString.
Proof.
  intros Hs Hr. apply Hs. rewrite <- (string_rev_involutive s), Hr. reflexivity.
Qed.

Lemma trim_space_reversed_id r :
  space_width_reversed r = 0%nat -> trim_space_reversed r = r.
Proof.
  destruct r as [|b1 [|b2 [|b3 r]]]; simpl; try reflexivity;
    destruct (is_space b1); try discriminate; try reflexivity;
    destruct (space_rune2 b2 b1); try discriminate; try reflexivity;
    destruct (space_rune3 b3 b2 b1); try discriminate; reflexivity.
Qed.

(** The space that [Amount.String] puts before the asset code is no part
    of a white space rune of more than one byte. *)
Lemma space_rune2_blank_l b : space_rune2 " " b = false.
Proof. reflexivity. Qed.

Lemma space_rune3_blank_l b c : space_rune3 " " b c = false.
Proof. reflexivity. Qed.

Lemma space_rune3_blank_m b c : space_rune3 b " " c = false.
Proof.
  unfold space_rune3. cbn zeta. change (N_of_ascii " ") with 32%N.
  change (32 =? 154)%N with false. change (32 =? 128)%N with false.
  change (32 =? 129)%N with false.
  repeat match goal with
         | |- context [(N_of_ascii ?x =? ?k)%N] => destruct (N_of_ascii x =? k)%N
         end; reflexivity.
Qed.

Lemma space_width_reversed_app x y :
  x <> EmptyString ->
  space_width_reversed (x ++ String " " y) = space_width_reversed x.
Proof.
  intros Hx. destruct x as [|b1 [|b2 [|b3 x]]]; [contradiction| | |]; cbn [append space_width_reversed].
  - destruct (is_space b1); [reflexivity|]. rewrite space_rune2_blank_l.
    destruct y; [reflexivity|]. rewrite space_rune3_blank_m. reflexivity.
  - destruct (is_space b1); [reflexivity|]. destruct (space_rune2 b2 b1); [reflexivity|].
    rewrite space_rune3_blank_l. reflexivity.
  - reflexivity.
Qed.

Lemma ends_in_space_app s a :
  a <> EmptyString -> ends_in_space (s ++ String " " a) = ends_in_space a.
Proof.
  intros Ha. unfold ends_in_space. rewrite string_rev_app. cbn [string_rev].
  rewrite string_app_assoc. cbn [append].
  rewrite space_width_reversed_app by (apply string_rev_nonempty, Ha). reflexivity.
Qed.

(** A string that starts with an ASCII byte that is no white space, and
    ends with no white space rune, is left as it is. *)
Lemma trim_left_space_ascii c s :
  is_space c = false -> (N_of_ascii c <? 128)%N = true ->
  trim_left_space (String c s) = String c s.
Proof.
  intros Hc Ha. apply N.ltb_lt in Ha. cbn [trim_left_space]. rewrite Hc.
  assert (H2 : forall b, space_rune2 c b = false).
  { intros b. unfold space_rune2. cbn zeta.
    destruct (N.eqb_spec (N_of_ascii c) 194); [lia | reflexivity]. }
  assert (H3 : forall b b', space_rune3 c b b' = false).
  { intros b b'. unfold space_rune3. cbn zeta.
    destruct (N.eqb_spec (N_of_ascii c) 225); [lia|].
    destruct (N.eqb_spec (N_of_ascii c) 226); [lia|].
    destruct (N.eqb_spec (N_of_ascii c) 227); [lia|]. reflexivity. }
  destruct s as [|b2 [|b3 s]]; rewrite ?H2, ?H3; reflexivity.
Qed.

Lemma TrimSpace_id c s :
  is_space c = false -> (N_of_ascii c <? 128)%N = true ->
  ends_in_space (String c s) = false ->
  strings_TrimSpace (String c s) = String c s.
Proof.
  intros Hc Ha He. unfold strings_TrimSpace. rewrite (trim_left_space_ascii c s Hc Ha).
  unfold trim_right_space. unfold ends_in_space in He. apply negb_false_iff in He.
  apply Nat.eqb_eq in He. rewrite (trim_space_reversed_id _ He).
  apply string_rev_involutive.
Qed.

(** A decimal number as [Amount.String] writes it. *)
Definition number_text (neg : bool) (qi : N) (core : string) : string :=
  (sign_text neg ++ utoa qi ++
   (if (String.length core =? 0)%nat then "" else String "." core))%string.

Lemma sign_digits_no_point neg qi :
  string_forall (not_byte ".") (sign_text neg ++ utoa qi) = true.
Proof.
  rewrite string_forall_app. apply andb_true_intro. split; [destruct neg; reflexivity|].
  eapply string_forall_impl; [apply is_digit_not_point | apply utoa_is_digit].
Qed.

Lemma number_text_no_blank neg qi core m :
  digits core = Some m -> string_forall (not_byte " ") (number_text neg qi core) = true.
Proof.
  intros Hc. unfold number_text. rewrite !string_forall_app.
  assert (Hd : string_forall (not_byte " ") core = true).
  { eapply string_forall_impl; [apply is_digit_not_blank|].
    eapply digits_from_is_digit, Hc. }
  repeat (apply andb_true_intro; split).
  - destruct neg; reflexivity.
  - eapply string_forall_impl; [apply is_digit_not_blank | apply utoa_is_digit].
  - destruct (String.length core =? 0)%nat; [reflexivity|]. simpl. exact Hd.
Qed.

Lemma is_digit_ascii c : is_digit c = true -> (N_of_ascii c <? 128)%N = true.
Proof.
  destruct c as [[] [] [] [] [] [] [] []]; try reflexivity; intros H; discriminate H.
Qed.

Lemma number_text_head_ascii neg qi core :
  exists c s, number_text neg qi core = String c s
              /\ is_space c = false /\ (N_of_ascii c <? 128)%N = true.
Proof.
  unfold number_text. destruct neg; simpl sign_text.
  - eexists _, _. repeat split; reflexivity.
  - destruct (utoa_nonempty qi) as (c & t & -> & Hc).
    eexists _, _. split; [reflexivity|].
    split; [apply is_digit_not_space, Hc | apply is_digit_ascii, Hc].
Qed.

Lemma SetString_number_text neg qi core m :
  digits core = Some m ->
  SetString (number_text neg qi core) =
  Some (signed neg (inject_Z (Z.of_N qi) + (Z.of_N m # pow10 (String.length core)))).
Proof.
  intros Hc. unfold number_text. destruct core as [|c core].
  - cbn [String.length Nat.eqb]. rewrite string_app_nil_r, SetString_integer.
    injection Hc as <-. f_equal. f_equal. unfold Qplus, inject_Z. simpl.
    f_equal; lia.
  - cbn [String.length Nat.eqb]. apply SetString_fraction, Hc.
Qed.

Lemma Amount_String_shape (dp : gmap Asset nat) (A : Amount) :
  exists (qi m : N) (core : string),
    Amount_String dp A =
      (number_text (Qnum (Qred (rat A)) <? 0)%Z qi core ++ " " ++ asset A)%string
    /\ digits core = Some m
    /\ (String.length core <= precision dp (asset A))%nat
    /\ signed (Qnum (Qred (rat A)) <? 0)%Z
         (inject_Z (Z.of_N qi) + (Z.of_N m # pow10 (String.length core)))
       == round_half_away (rat A) (precision dp (asset A)).
Proof.
  unfold Amount_String, Amount_FloatString.
  generalize (precision dp (asset A)). intros prec. set (x := rat A).
  destruct (FloatString_shape x prec) as (qi & r & F & -> & HL & HF & Hv).
  fold (sign_text (Qnum (Qred x) <? 0)%Z).
  destruct prec as [|prec]; cbn [Nat.ltb Nat.leb].
  - exists qi, 0%N, EmptyString.
    rewrite string_app_nil_r, (strings_Split_none _ _ (sign_digits_no_point _ qi)).
    split; [unfold number_text; simpl; rewrite string_app_nil_r; reflexivity|].
    split; [reflexivity|]. split; [simpl; lia|].
    destruct F; [|discriminate]. injection HF as <-.
    apply (decimal_value x 0 qi 0 Hv).
  - destruct (TrimRight_zeros F) as (j & EF & Lj).
    set (core := strings_TrimRight F "0") in *.
    assert (Hcore : exists m, digits core = Some m /\ r = (m * 10 ^ N.of_nat j)%N).
    { unfold digits in *. rewrite EF, digits_from_app in HF.
      destruct (digits_from core 0) as [m|]; [|discriminate].
      rewrite digits_from_zeros in HF. injection HF as <-. eauto. }
    destruct Hcore as (m & Hm & Er).
    exists qi, m, core.
    change ("." ++ F)%string with (String "." F).
    rewrite <- (string_app_assoc (sign_text _) (utoa qi) (String "." F)).
    rewrite (strings_Split_at _ _ _ (sign_digits_no_point _ qi)).
    rewrite strings_Split_none
      by (eapply string_forall_impl; [apply is_digit_not_point|];
          eapply digits_from_is_digit, HF).
    fold core. split.
    { unfold number_text. destruct (String.length core =? 0)%nat; simpl strings_Join.
      - rewrite string_app_nil_r. reflexivity.
      - rewrite !string_app_assoc. reflexivity. }
    split; [exact Hm|]. split; [lia|].
    rewrite <- (decimal_value x (S prec) qi r Hv).
    assert (Eq : (Z.of_N m # pow10 (String.length core)) == (Z.of_N r # pow10 (S prec))).
    { rewrite <- HL, <- Lj, pow10_add, Er. unfold Qeq. simpl Qnum. simpl Qden.
      rewrite N2Z.inj_mul, N2Z.inj_pow, nat_N_Z, Pos2Z.inj_mul, (pow10_spec j). lia. }
    destruct (Qnum (Qred x) <? 0)%Z; simpl signed; rewrite Eq; reflexivity.
Qed.

Lemma parseAmount_number_text (dp : gmap Asset nat) neg qi core m (a : Asset) :
  digits core = Some m ->
  (String.length core <= precision dp a)%nat ->
  is_token a = true ->
  parseAmount (number_text neg qi core ++ " " ++ a) dp =
  (inl (mkAmount a (signed neg (inject_Z (Z.of_N qi)
                                + (Z.of_N m # pow10 (String.length core))))), dp).
Proof.
  intros Hm Hlen Ha. unfold is_token in Ha. apply andb_prop in Ha as [Ha Hend].
  apply andb_prop in Ha as [Hnb Hne]. apply negb_true_iff in Hend.
  apply negb_true_iff, String.eqb_neq in Hne.
  unfold parseAmount.
  destruct (number_text_head_ascii neg qi core) as (c & s & Ehead & Hc & Hascii).
  assert (Etrim : strings_TrimSpace (number_text neg qi core ++ " " ++ a)
                  = (number_text neg qi core ++ " " ++ a)%string).
  { rewrite Ehead. cbn [append]. apply (TrimSpace_id c _ Hc Hascii).
    change (String c (s ++ String " " a)) with (String c s ++ String " " a)%string.
    rewrite ends_in_space_app by exact Hne. exact Hend. }
  rewrite Etrim.
  change (" " ++ a)%string with (String " " a).
  rewrite (strings_Split_at _ _ _ (number_text_no_blank neg qi core m Hm)), (strings_Split_none _ _ Hnb).
  rewrite (SetString_number_text neg qi core m Hm).
  unfold number_text. destruct core as [|d core].
  - cbn [String.length Nat.eqb]. rewrite string_app_nil_r.
    rewrite (strings_Split_none _ _ (sign_digits_no_point neg qi)). reflexivity.
  - cbn [Nat.eqb String.length] in *.
    rewrite <- (string_app_assoc (sign_text neg) (utoa qi) (String "." (String d core))).
    rewrite (strings_Split_at _ _ _ (sign_digits_no_point neg qi)).
    rewrite strings_Split_none
      by (eapply string_forall_impl; [apply is_digit_not_point|];
          eapply digits_from_is_digit, Hm).
    cbn [String.length]. destruct (Nat.ltb_spec (precision dp a) (S (String.length core)));
      [lia | reflexivity].
Qed.

(** Rounding leaves a value that has no more than [prec] decimals. *)
Lemma round_half_away_exact (x : Q) (prec : nat) (k : Z) :
  x * inject_Z (Zpos (pow10 prec)) == inject_Z k -> round_half_away x prec == x.
Proof.
  intros Hk. unfold round_half_away, rounded_units.
  assert (Hf : Qfloor (Qabs x * inject_Z (Z.pos (pow10 prec)) + (1 # 2)) = Z.abs k).
  { transitivity (Qfloor (2 * Z.abs k + 1 # 2)).
    - apply Qfloor_comp.
      assert (E : Qabs x * inject_Z (Z.pos (pow10 prec)) == inject_Z (Z.abs k)).
      { rewrite <- (Qabs_pos (inject_Z (Z.pos (pow10 prec)))) by discriminate.
        rewrite <- Qabs_Qmult, Hk. unfold Qabs, inject_Z. reflexivity. }
      rewrite E. unfold Qeq, Qplus, inject_Z. simpl. lia.
    - unfold Qfloor. simpl. symmetry. apply (Z.div_unique _ _ _ 1); lia. }
  rewrite Hf. destruct x as [n d]. unfold Qeq, Qmult, inject_Z, Qsign in *. simpl in *.
  destruct n as [|n|n]; simpl Z.sgn; nia.
Qed.

(** ** The claim about amounts *)

(** C9, for an asset code that is one token ([is_token]: not empty, no
    space in it, no white space at its end). Parsing what
    [Amount.String] writes succeeds, leaves the observed decimal places as
    they were, and gives an amount of the same asset whose value is the
    value of [A] rounded to the precision of its asset (halves away from
    zero): the value of [A] itself when that has no more decimals than the
    precision. *)
Theorem parse_String_round_trip (decimalPlaces : gmap Asset nat) (A : Amount) :
  is_token (asset A) = true ->
  exists v,
    parseAmount (Amount_String decimalPlaces A) decimalPlaces
      = (inl (mkAmount (asset A) v), decimalPlaces)
    /\ v == round_half_away (rat A) (precision decimalPlaces (asset A))
    /\ (forall k : Z,
          rat A * inject_Z (Zpos (pow10 (precision decimalPlaces (asset A)))) == inject_Z k ->
          v == rat A).
Proof.
  intros Ha.
  destruct (Amount_String_shape decimalPlaces A) as (qi & m & core & -> & Hm & Hlen & Hv).
  eexists. split; [apply (parseAmount_number_text _ _ qi core m); assumption|].
  split; [exact Hv|].
  intros k Hk. rewrite Hv. eapply round_half_away_exact, Hk.
Qed.

(** A third of a euro, the asset written with its sign. *)
Definition one_third_euro : Amount := mkAmount "€" (1 # 3).

Lemma parse_String_round_trip_witness :
  exists v,
    parseAmount (Amount_String ∅ one_third_euro) ∅ = (inl (mkAmount "€" v), ∅)
    /\ v == round_half_away (1 # 3) (precision ∅ "€")
    /\ (forall k : Z,
          (1 # 3) * inject_Z (Zpos (pow10 (precision ∅ "€"))) == inject_Z k ->
          v == 1 # 3).
Proof.
  apply (parse_String_round_trip ∅ one_third_euro). reflexivity.
Defined.

(** C9 as stated fails for an asset code with a space in it, and for one
    that ends in white space: [1 A B] is written as ["1 A B"] and read
    back as [1 A]; [1 A<tab>] is written with the tab at its end and read
    back as [1 A]. *)
Definition one_A_B : Amount := mkAmount "A B" 1.
Definition one_A_tab : Amount := mkAmount (String "A" (String "009" EmptyString)) 1.

Lemma parse_String_blank_asset_counterexample :
  (asset one_A_B <> EmptyString
   /\ Amount_String ∅ one_A_B = "1 A B"%string
   /\ exists B, fst (parseAmount (Amount_String ∅ one_A_B) ∅) = inl B
                /\ asset B <> asset one_A_B)
  /\ (asset one_A_tab <> EmptyString
      /\ exists B, fst (parseAmount (Amount_String ∅ one_A_tab) ∅) = inl B
                   /\ asset B = "A"%string
                   /\ asset B <> asset one_A_tab).
Proof.
  split.
  - split; [discriminate|]. split; [reflexivity|].
    eexists. split; [reflexivity | discriminate].
  - split; [discriminate|].
    eexists. split; [reflexivity|]. split; [reflexivity | discriminate].
Qed.

(** ** Gains *)

Lemma printed_ok (dp : gmap Asset nat) (x : Amount) :
  exists v, printed dp x = Ok v
            /\ v == round_half_away (rat x) (precision dp (asset x)).
Proof.
  unfold printed, Amount_FloatString.
  destruct (SetString_FloatString (rat x) (precision dp (asset x))) as (v & -> & Hv).
  eauto.
Qed.

(** The splits of a split set, in the order they are visited. *)
Definition all_splits (splits : SplitSet) : list Split :=
  flat_map (fun aq => flat_map snd (snd aq)) splits.

Lemma base_deltas_ok dp base split total :
  Forall (fun s => split_delta s <> None) split ->
  exists t, base_deltas dp base split total = Ok t.
Proof.
  revert total. induction split as [|s split IH]; intros total Hs; simpl; [eauto|].
  apply Forall_cons in Hs as (Hd & Hs).
  destruct (split_delta s) as [d|]; [|congruence].
  destruct (bool_decide (asset d = base)); [|apply IH, Hs].
  destruct (printed_ok dp d) as (v & -> & _). simpl. apply IH, Hs.
Qed.

Lemma base_deltas_qualified_ok dp base qualified total :
  Forall (fun s => split_delta s <> None) (flat_map snd qualified) ->
  exists t, base_deltas_qualified dp base qualified total = Ok t.
Proof.
  revert total. induction qualified as [|[q split] rest IH]; intros total Hs; simpl; [eauto|].
  simpl in Hs. apply Forall_app in Hs as (H1 & H2).
  destruct (base_deltas_ok dp base split total H1) as (t & ->). simpl. apply IH, H2.
Qed.

Lemma base_deltas_splits_ok dp base splits total :
  Forall (fun s => split_delta s <> None) (all_splits splits) ->
  exists t, base_deltas_splits dp base splits total = Ok t.
Proof.
  revert total. induction splits as [|[a qualified] rest IH]; intros total Hs; simpl; [eauto|].
  unfold all_splits in Hs. simpl in Hs. apply Forall_app in Hs as (H1 & H2).
  destruct (base_deltas_qualified_ok dp base qualified total H1) as (t & ->). simpl.
  apply IH, H2.
Qed.

Section GainProofs.
Variable Elapsed_years : Time -> Time -> Z.
Variable txDate : Time.

Definition is_long (l : Lot) : bool := (Elapsed_years (date l) txDate >? 0)%Z.

(** The inventory sold from the lots that [keep] selects. *)
Fixpoint disposed (keep : Lot -> bool) (lot : list Lot) (inventory : list Amount) : Q :=
  match lot, inventory with
  | l :: lot', i :: inventory' =>
      (if (Sign i >? 0)%Z && keep l then rat i else 0) + disposed keep lot' inventory'
  | _, _ => 0
  end.

Definition held (x : option Amount) : Q :=
  match x with Some a => rat a | None => 0 end.

(** The two inventories of a tally are set together, in one asset. *)
Definition tally_ok (a : Asset) (t : GainTally) : Prop :=
  match longInventory t, shortInventory t with
  | None, None => True
  | Some li, Some si => asset li = a /\ asset si = a
  | _, _ => False
  end.

Lemma tally_event_ok dp a t l i b :
  (0 < rat i -> asset i = a) -> tally_ok a t ->
  exists t',
    tally_event Elapsed_years dp txDate t l i b = Ok t'
    /\ tally_ok a t'
    /\ held (longInventory t')
       == held (longInventory t) + (if (Sign i >? 0)%Z && is_long l then rat i else 0)
    /\ held (shortInventory t')
       == held (shortInventory t)
          + (if (Sign i >? 0)%Z && negb (is_long l) then rat i else 0)
    /\ (longInventory t' = None <-> longInventory t = None /\ rat i <= 0).
Proof.
  intros Hi Ht. unfold tally_event, Sign. fold (is_long l).
  destruct (printed_ok dp b) as (p & Ep & _).
  unfold tally_ok in Ht.
  destruct (Qsign_cases (rat i)) as [[H0 E0]|[[H0 E0]|[H0 E0]]]; rewrite E0;
    cbn [Z.gtb Z.compare andb mbind outcome_bind]; rewrite ?Ep;
    cbn [mbind outcome_bind].
  - eexists. split; [reflexivity|]. simpl. split; [exact Ht|].
    split; [lra|]. split; [lra|]. intuition lra.
  - eexists. split; [reflexivity|]. simpl. split; [exact Ht|].
    split; [lra|]. split; [lra|]. intuition lra.
  - specialize (Hi H0).
    destruct (longInventory t) as [li|] eqn:ELi;
      destruct (shortInventory t) as [si|] eqn:ESi; try tauto.
    + destruct Ht as (Hli & Hsi).
      rewrite bool_decide_eq_false_2 by (intros Hn; apply Hn; congruence).
      cbn [mbind outcome_bind]. rewrite ?Ep. cbn [mbind outcome_bind].
      destruct (is_long l); cbn [negb add_to mbind outcome_bind];
        (eexists; split; [reflexivity|]); unfold tally_ok; simpl;
        (split; [auto|]); (split; [lra|]); (split; [lra|]);
        (split; [discriminate | intros [Hn _]; discriminate]).
    + rewrite bool_decide_eq_false_2 by (intros Hn; apply Hn; reflexivity).
      cbn [mbind outcome_bind]. rewrite ?Ep. cbn [mbind outcome_bind].
      destruct (is_long l); cbn [negb add_to mbind outcome_bind];
        (eexists; split; [reflexivity|]); unfold tally_ok; simpl;
        (split; [auto|]); (split; [lra|]); (split; [lra|]);
        (split; [discriminate | intros [_ Hn]; lra]).
Qed.

Lemma tally_events_ok dp a : forall lot inventory basis t,
  length lot = length inventory -> length lot = length basis ->
  Forall (fun i => 0 < rat i -> asset i = a) inventory ->
  tally_ok a t ->
  exists t',
    tally_events Elapsed_years dp txDate t lot inventory basis = Ok t'
    /\ tally_ok a t'
    /\ held (longInventory t') == held (longInventory t) + disposed is_long lot inventory
    /\ held (shortInventory t')
       == held (shortInventory t) + disposed (fun l => negb (is_long l)) lot inventory
    /\ (longInventory t' = None <->
        longInventory t = None /\ Forall (fun i => rat i <= 0) inventory).
Proof.
  intros lot. induction lot as [|l lot IH]; intros inventory basis t HL1 HL2 Ha Ht;
    destruct inventory as [|i inventory]; destruct basis as [|b basis];
    try discriminate.
  - exists t. simpl. repeat split; auto; try lra. tauto.
  - apply Forall_cons in Ha as (Hi & Ha).
    injection HL1 as HL1. injection HL2 as HL2.
    cbn [tally_events].
    destruct (tally_event_ok dp a t l i b Hi Ht) as (t1 & -> & Hok1 & HL & HS & Hn1).
    cbn [mbind outcome_bind].
    destruct (IH inventory basis t1 HL1 HL2 Ha Hok1) as (t' & -> & Hok & HLi & HSi & Hnone).
    exists t'. split; [reflexivity|]. split; [exact Hok|].
    cbn [disposed]. split; [lra|]. split; [lra|].
    rewrite Hnone, Hn1, Forall_cons. tauto.
Qed.
End GainProofs.

Lemma disposed_nonneg keep lot inventory : 0 <= disposed keep lot inventory.
Proof.
  revert inventory. induction lot as [|l lot IH]; intros [|i inventory]; simpl; try lra.
  specialize (IH inventory). unfold Sign.
  destruct (Qsign_cases (rat i)) as [[H0 E0]|[[H0 E0]|[H0 E0]]]; rewrite E0; simpl;
    try lra. destruct (keep l); lra.
Qed.

Lemma disposed_positive (keep : Lot -> bool) lot inventory :
  length lot = length inventory -> Exists (fun i => 0 < rat i) inventory ->
  0 < disposed keep lot inventory + disposed (fun l => negb (keep l)) lot inventory.
Proof.
  revert inventory. induction lot as [|l lot IH]; intros [|i inventory] HL Hex;
    try discriminate; try (apply Exists_nil in Hex; contradiction).
  injection HL as HL. simpl.
  pose proof (disposed_nonneg keep lot inventory) as Hk.
  pose proof (disposed_nonneg (fun l => negb (keep l)) lot inventory) as Hn.
  unfold Sign.
  destruct (Qsign_cases (rat i)) as [[H0 E0]|[[H0 E0]|[H0 E0]]]; rewrite E0; simpl.
  - apply Exists_cons in Hex as [Hex|Hex]; [lra|]. specialize (IH inventory HL Hex). lra.
  - apply Exists_cons in Hex as [Hex|Hex]; [lra|]. specialize (IH inventory HL Hex). lra.
  - destruct (keep l); simpl; lra.
Qed.

Lemma sold_or_not (inventory : list Amount) :
  Forall (fun i => rat i <= 0) inventory \/ Exists (fun i => 0 < rat i) inventory.
Proof.
  induction inventory as [|i inventory [IH|IH]].
  - left. constructor.
  - destruct (Qlt_le_dec 0 (rat i)); [right; apply Exists_cons; now left |].
    left. constructor; assumption.
  - right. apply Exists_cons. now right.
Qed.

(** ** A sample sale *)

(** A sale of 15 AAA for 9000 USD on day 18300, from the lot of 2018 (held
    for more than a year) and half of the lot of 2020. *)
Definition whole_years (d1 d2 : Time) : Z := ((d2 - d1) / 365)%Z.

Definition sale_splits : SplitSet :=
  [(AAA, [(EmptyString,
           [mkSplit "Assets:Exchange" (Some (mkAmount AAA (-15)))
                    (Some (mkAmount USD 600)) None EmptyString false EmptyString])]);
   (USD, [(EmptyString,
           [mkSplit "Assets:Bank" (Some (mkAmount USD 9000))
                    None None EmptyString false EmptyString])])].

(** ** Moves and deferred purchases on sample ledgers *)

(** The layout of the date in a lot's name plays no part below: the
    number of the day stands for it. *)
Definition day_number (d : Time) : string := utoa (Z.to_N d).

Definition cold : string := "Assets:Cold".
Definition hot : string := "Assets:Hot".
Definition exchange : string := "Assets:Exchange".
Definition BBB : Asset := "BBB"%string.

(** The lot of 2018, the first lot made (weight 1), in cold storage. *)
Definition cold_storage : Ledger := {[ AAA := {[ cold := mkQueue [lot_2018] FIFO ]} ]}.

(** Its 10 AAA moved to the hot wallet. *)
Definition to_hot : list (string * Q) := [(cold, -10); (hot, 10)].

(** The lots of 2018 and 2020 on an exchange, and 5 BBB bought there for
    15 AAA. *)
Definition on_exchange (o : order) : Ledger := {[ AAA := {[ exchange := two_lots o ]} ]}.

Definition barter : SplitSet :=
  [(AAA, [(exchange, [mkSplit exchange (Some (mkAmount BBB 5)) None
                              (Some (mkAmount AAA 15)) EmptyString false EmptyString])])].

(** The queue of an asset and qualifier in a ledger. *)
Definition queue_of (lotQueue : Ledger) (a : Asset) (qualifier : string)
  : option LotQueue :=
  inner ← lotQueue !! a; inner !! qualifier.

(** C7. A move of the 10 AAA of the lot of 2018 from cold storage to the
    hot wallet, in whichever order the map of the move is visited: the
    lot made for the hot wallet has the date and the price of the lot
    moved, but not its weight (1): it has the weight of the temporary lot
    of the first pass (2), the next value of the counter. *)
Theorem move_weight_is_temporary (again : list (string * Q) -> list (string * Q))
    (qualified : list (string * Q)) :
  Permutation to_hot qualified ->
  Permutation qualified (again qualified) ->
  exists st newLot,
    consumeMoves (H := insertion_sorter) USD FIFO ∅ day_number again
      [(AAA, qualified)] cold_storage 1 = Ok st
    /\ res_err st = None
    /\ queue_of (res_ledger st) AAA cold = Some (mkQueue [] FIFO)
    /\ queue_of (res_ledger st) AAA hot = Some (mkQueue [newLot] FIFO)
    /\ date newLot = date lot_2018
    /\ price newLot == price lot_2018
    /\ rat (inventory newLot) == 10
    /\ weight lot_2018 = 1%Z
    /\ weight newLot = 2%Z.
Proof.
  intros H1 H2. unfold consumeMoves, consume_moves.
  apply Permutation_length_2_inv in H1 as [-> | ->];
    rewrite bool_decide_eq_false_2 by discriminate;
    match goal with
    | Hp : Permutation ?l (again ?l) |- _ =>
        apply Permutation_length_2_inv in Hp as [Hp | Hp]; rewrite Hp
    end;
    (eexists _, _; split; [vm_compute; reflexivity|]);
    vm_compute; repeat split; reflexivity.
Qed.

Lemma move_weight_is_temporary_witness :
  exists st newLot,
    consumeMoves (H := insertion_sorter) USD FIFO ∅ day_number id
      [(AAA, to_hot)] cold_storage 1 = Ok st
    /\ res_err st = None
    /\ queue_of (res_ledger st) AAA cold = Some (mkQueue [] FIFO)
    /\ queue_of (res_ledger st) AAA hot = Some (mkQueue [newLot] FIFO)
    /\ date newLot = date lot_2018
    /\ price newLot == price lot_2018
    /\ rat (inventory newLot) == 10
    /\ weight lot_2018 = 1%Z
    /\ weight newLot = 2%Z.
Proof.
  apply (move_weight_is_temporary id to_hot); reflexivity.
Defined.

(** C8. 5 BBB bought for 15 AAA on day 18300, paid from the lots of 2020
    (day 18262) and 2018 (day 17532): under either order the lot made has
    the date of the trade, not the date of a lot consumed; the date of
    the lot consumed last is written in its name only, and under LIFO
    that is the earliest of the dates, 17532. *)
Theorem deferred_lot_dates (o : order) :
  exists st newLot,
    consumeTrades (H := insertion_sorter) USD o ∅ day_number barter 18300%Z
      (on_exchange o) 2 = Ok st
    /\ res_err st = None
    /\ map date (take 2 (res_lot st))
       = match o with FIFO => [17532; 18262] | LIFO => [18262; 17532] end%Z
    /\ queue_of (res_ledger st) BBB exchange = Some (mkQueue [newLot] o)
    /\ date newLot = 18300%Z
    /\ name newLot
       = match o with
         | FIFO => "Lot:Assets:Exchange:18262:5BBB@3AAA@3500USD:3"
         | LIFO => "Lot:Assets:Exchange:17532:5BBB@3AAA@5500USD:3"
         end%string.
Proof.
  destruct o; (eexists _, _; split; [vm_compute; reflexivity|]);
    vm_compute; repeat split; reflexivity.
Qed.

(** ** Further properties of lots and queues *)

(** X1. [NewLot] returns exactly when the inventory is positive and the
    basis is not negative; the lot then has the price basis / inventory
    and takes the next value of the weight counter. *)
Theorem NewLot_returns_iff nm d inv basis w :
  (0 < rat inv /\ 0 <= rat basis)
  <-> NewLot nm d inv basis w
      = Ok (mkLot nm d (uint_incr w) inv inv basis (rat basis / rat inv), uint_incr w).
Proof.
  split.
  - intros [Hi Hb]. unfold NewLot, Sign, Quo.
    rewrite (Qsign_pos _ Hi). cbn [Z.ltb Z.compare Z.eqb].
    destruct (Qsign_cases (rat basis)) as [[H0 E0]|[[H0 E0]|[H0 E0]]]; rewrite E0;
      try lra; cbn [Z.ltb Z.compare mbind outcome_bind price].
    + assert (Hp : rat basis / rat inv == 0) by (rewrite H0; field; lra).
      rewrite (Qsign_zero _ Hp). reflexivity.
    + assert (Hp : 0 < rat basis / rat inv).
      { apply Qlt_shift_div_l; lra. }
      rewrite (Qsign_pos _ Hp). reflexivity.
  - intros HN. apply NewLot_ok in HN. tauto.
Qed.

(** X2. Selling from a lot in two steps is selling the sum at once, when
    the first step leaves inventory: the same inventory remains, and the
    amounts sold and their bases add up. *)
Theorem Lot_Sell_in_two_steps (this : Lot) (d1 d2 : Amount) :
  priced this -> rat d1 < 0 -> rat d2 < 0 ->
  asset d1 = asset (inventory this) -> asset d2 = asset (inventory this) ->
  - rat d1 < rat (inventory this) ->
  exists this1 a1 b1 this2 a2 b2 this' a b,
    Lot_Sell this d1 = Ok (this1, a1, b1)
    /\ Lot_Sell this1 d2 = Ok (this2, a2, b2)
    /\ Lot_Sell this (mkAmount (asset d1) (rat d1 + rat d2)) = Ok (this', a, b)
    /\ rat (inventory this2) == rat (inventory this')
    /\ rat a1 + rat a2 == rat a
    /\ rat b1 + rat b2 == rat b.
Proof.
  intros Hp H1 H2 A1 A2 Hpart.
  assert (Hi : 0 < rat (inventory this)) by lra.
  destruct (Lot_Sell_ok this d1 Hi Hp H1 A1)
    as (this1 & a1 & b1 & E1 & Ea1 & _ & Ei1 & _ & _ & Eb1 & _ & _ & As1 & _ & _ & _ & _ & Pr1 & _).
  assert (Ha1 : rat a1 == - rat d1).
  { rewrite Ea1. rewrite Qabs_neg by lra. apply Q.min_l. lra. }
  assert (Hi1 : 0 < rat (inventory this1)) by (rewrite Ei1, Ha1; lra).
  assert (Hp1 : priced this1) by (unfold priced in *; rewrite Pr1; exact Hp).
  assert (A21 : asset d2 = asset (inventory this1)) by congruence.
  destruct (Lot_Sell_ok this1 d2 Hi1 Hp1 H2 A21)
    as (this2 & a2 & b2 & E2 & Ea2 & _ & Ei2 & _ & _ & Eb2 & _).
  assert (H12 : rat (mkAmount (asset d1) (rat d1 + rat d2)) < 0) by (simpl; lra).
  destruct (Lot_Sell_ok this (mkAmount (asset d1) (rat d1 + rat d2)) Hi Hp H12 A1)
    as (this' & a & b & E & Ea & _ & Ei & _ & _ & Eb & _).
  exists this1, a1, b1, this2, a2, b2, this', a, b.
  split; [exact E1|]. split; [exact E2|]. split; [exact E|].
  cbn [rat] in Ea. rewrite Qabs_neg in Ea2 by lra. rewrite Qabs_neg in Ea by lra.
  assert (Ha : rat a1 + rat a2 == rat a).
  { rewrite Ea, Ea2, Ha1, Ei1, Ha1.
    destruct (Q.min_spec (- rat d2) (rat (inventory this) - - rat d1)) as [[? ->]|[? ->]];
      destruct (Q.min_spec (- (rat d1 + rat d2)) (rat (inventory this))) as [[? ->]|[? ->]];
      lra. }
  split; [rewrite Ei2, Ei1, Ei; lra|]. split; [exact Ha|].
  rewrite Eb1, Eb2, Eb, Pr1, <- Ha. ring.
Qed.

Lemma Lot_Sell_in_two_steps_witness :
  exists this1 a1 b1 this2 a2 b2 this' a b,
    Lot_Sell lot_2018 (mkAmount AAA (-4)) = Ok (this1, a1, b1)
    /\ Lot_Sell this1 (mkAmount AAA (-9)) = Ok (this2, a2, b2)
    /\ Lot_Sell lot_2018 (mkAmount (asset (mkAmount AAA (-4))) (-4 + -9)) = Ok (this', a, b)
    /\ rat (inventory this2) == rat (inventory this')
    /\ rat a1 + rat a2 == rat a
    /\ rat b1 + rat b2 == rat b.
Proof.
  apply (Lot_Sell_in_two_steps lot_2018 (mkAmount AAA (-4)) (mkAmount AAA (-9)));
    try reflexivity.
  unfold priced. simpl. discriminate.
Defined.

(** The three slices a [Sell] returns grow together. *)
Lemma sell_loop_lengths fuel delta : forall lots remaining lts ivs bss s,
  length lts = length ivs -> length ivs = length bss ->
  sell_loop fuel delta lots remaining lts ivs bss = Ok s ->
  length (sold_lot s) = length (sold_inventory s)
  /\ length (sold_inventory s) = length (sold_basis s).
Proof.
  induction fuel as [|fuel IH]; intros lots remaining lts ivs bss s L1 L2; cbn [sell_loop].
  - destruct (Sign remaining =? 0)%Z; [|discriminate]. intros [= <-]. simpl. auto.
  - destruct (Sign remaining =? 0)%Z; [intros [= <-]; simpl; auto|].
    destruct (pop lots) as [[l lots']|]; [|intros [= <-]; simpl; auto].
    destruct (Lot_Sell l remaining) as [[[l' sold] soldBasis]| |]; cbn [mbind outcome_bind];
      try discriminate.
    destruct (_ || _); [discriminate|].
    assert (L1' : length (lts ++ [l']) = length (ivs ++ [sold]))
      by (rewrite !length_app; simpl; lia).
    assert (L2' : length (ivs ++ [sold]) = length (bss ++ [soldBasis]))
      by (rewrite !length_app; simpl; lia).
    repeat match goal with |- context [if ?c then _ else _] => destruct c end;
      try discriminate; apply IH; assumption.
Qed.

(** X3. The slices of lots, inventories and bases that [LotQueue.Sell]
    returns have one length, also when it returns an error. *)
Theorem LotQueue_Sell_lengths (this : LotQueue) (delta : Amount) (s : Sold) :
  LotQueue_Sell this delta = Ok s ->
  length (sold_lot s) = length (sold_inventory s)
  /\ length (sold_inventory s) = length (sold_basis s).
Proof.
  unfold LotQueue_Sell. destruct (sanity this delta); cbn [mbind outcome_bind];
    try discriminate.
  apply sell_loop_lengths; reflexivity.
Qed.

Lemma LotQueue_Sell_lengths_witness :
  exists s,
    LotQueue_Sell (two_lots FIFO) (mkAmount AAA (-15)) = Ok s
    /\ length (sold_lot s) = length (sold_inventory s)
    /\ length (sold_inventory s) = length (sold_basis s).
Proof.
  eexists. split; [vm_compute; reflexivity|].
  apply (LotQueue_Sell_lengths (two_lots FIFO) (mkAmount AAA (-15))).
  vm_compute. reflexivity.
Defined.

(** What [Lot.Sell] returns, read off its code. *)
Lemma Lot_Sell_inv (this : Lot) (delta : Amount) this' actual basis :
  Lot_Sell this delta = Ok (this', actual, basis) ->
  basis = mkAmount (asset (startCost this)) (- (price this * rat actual))
  /\ same_lot this this'.
Proof.
  unfold Lot_Sell. destruct (Sign delta >? -1)%Z; [discriminate|].
  destruct (negb _); [discriminate|].
  destruct (Qsign (rat (inventory this) + rat delta)); cbn zeta;
    repeat match goal with |- context [if ?c then _ else _] => destruct c end;
    try discriminate; intros [= <- <- <-]; split; try reflexivity; repeat split.
Qed.

(** A lot reported with the inventory sold from it and the basis of that
    inventory. *)
Definition basis_reported (l : Lot) (i b : Amount) : Prop :=
  rat b = - (price l * rat i) /\ asset b = asset (startCost l).

Lemma sell_loop_bases fuel delta : forall lots remaining lts ivs bss s,
  Forall3 basis_reported lts ivs bss ->
  sell_loop fuel delta lots remaining lts ivs bss = Ok s ->
  Forall3 basis_reported (sold_lot s) (sold_inventory s) (sold_basis s).
Proof.
  induction fuel as [|fuel IH]; intros lots remaining lts ivs bss s HF; cbn [sell_loop].
  - destruct (Sign remaining =? 0)%Z; [|discriminate]. intros [= <-]. exact HF.
  - destruct (Sign remaining =? 0)%Z; [intros [= <-]; exact HF|].
    destruct (pop lots) as [[l lots']|]; [|intros [= <-]; exact HF].
    destruct (Lot_Sell l remaining) as [[[l' sold] soldBasis]| |] eqn:EL;
      cbn [mbind outcome_bind]; try discriminate.
    apply Lot_Sell_inv in EL as (-> & _ & _ & _ & Hpr & Hsc).
    destruct (_ || _); [discriminate|].
    assert (HF' : Forall3 basis_reported (lts ++ [l']) (ivs ++ [sold])
                    (bss ++ [mkAmount (asset (startCost l)) (- (price l * rat sold))])).
    { apply Forall3_app; [exact HF|]. repeat constructor; simpl; congruence. }
    repeat match goal with |- context [if ?c then _ else _] => destruct c end;
      try discriminate; apply IH; assumption.
Qed.

(** X4. Every basis that [LotQueue.Sell] reports is that of the inventory
    reported with it, at the price of the lot reported with it, negated,
    in the asset of the lot's cost. *)
Theorem LotQueue_Sell_bases (this : LotQueue) (delta : Amount) (s : Sold) :
  LotQueue_Sell this delta = Ok s ->
  Forall3 basis_reported (sold_lot s) (sold_inventory s) (sold_basis s).
Proof.
  unfold LotQueue_Sell. destruct (sanity this delta); cbn [mbind outcome_bind];
    try discriminate.
  apply sell_loop_bases. constructor.
Qed.

Lemma LotQueue_Sell_bases_witness :
  exists s,
    LotQueue_Sell (two_lots LIFO) (mkAmount AAA (-15)) = Ok s
    /\ Forall3 basis_reported (sold_lot s) (sold_inventory s) (sold_basis s).
Proof.
  eexists. split; [vm_compute; reflexivity|].
  apply (LotQueue_Sell_bases (two_lots LIFO) (mkAmount AAA (-15))).
  vm_compute. reflexivity.
Defined.

(** ** Further properties of splits and amounts *)

(** X6. The tally of a split with a price or a cost and a delta that is
    not zero: the cost in size, and with the sign of the delta when the
    cost is not zero. *)
Theorem Split_Tally_priced (this : Split) (d : Amount) :
  split_delta this = Some d -> ~ rat d == 0 ->
  non_nil (split_cost this) || non_nil (split_price this) = true ->
  exists this' c t,
    Split_Cost this = Ok (this', c)
    /\ Split_Tally this = Ok (this', Some t)
    /\ asset t = asset c
    /\ Qabs (rat t) == Qabs (rat c)
    /\ (~ rat c == 0 -> Sign t = Sign d).
Proof.
  intros Hd Hnz Hp. unfold Split_Tally. rewrite Hp.
  assert (HC : exists this' c, Split_Cost this = Ok (this', c)
                               /\ split_delta this' = Some d).
  { unfold Split_Cost. destruct (split_cost this) as [c|] eqn:Ec; [eauto|].
    destruct (split_price this) as [p|]; [|discriminate]. rewrite Hd. eauto. }
  destruct HC as (this' & c & HC & Hd'). rewrite HC. cbn [mbind outcome_bind]. rewrite Hd'.
  unfold Sign.
  destruct (Qsign_cases (rat c)) as [[Hc Ec]|[[Hc Ec]|[Hc Ec]]];
    destruct (Qsign_cases (rat d)) as [[Hd0 Ed]|[[Hd0 Ed]|[Hd0 Ed]]]; try contradiction;
    rewrite Ec, Ed;
    match goal with
    | |- context [bool_decide ?P] => destruct (bool_decide P) eqn:Eb
    end;
    try (apply bool_decide_eq_true in Eb; try congruence);
    try (apply bool_decide_eq_false in Eb; exfalso; apply Eb; discriminate);
    eexists _, _, _; (split; [reflexivity|]); (split; [reflexivity|]);
    (split; [reflexivity|]); cbn [rat NegClone];
    (split; [try rewrite Qabs_opp; reflexivity|]); intros Hnc; try lra;
    try reflexivity;
    try (apply Qsign_neg; simpl; lra); try (apply Qsign_pos; simpl; lra).
Qed.

Lemma Split_Tally_priced_witness :
  exists this' c t,
    Split_Cost priced_sale = Ok (this', c)
    /\ Split_Tally priced_sale = Ok (this', Some t)
    /\ asset t = asset c
    /\ Qabs (rat t) == Qabs (rat c)
    /\ (~ rat c == 0 -> Sign t = Sign (mkAmount "ABC" (-2))).
Proof.
  apply (Split_Tally_priced priced_sale (mkAmount "ABC" (-2))).
  - reflexivity.
  - simpl. discriminate.
  - reflexivity.
Defined.

(** X7. [Price] and [Cost] compute what the split does not give once: the
    split they leave gives the same answers again, unchanged, and keeps
    its delta. *)
Theorem Split_Price_Cost_stored (this this' : Split) (x : Amount) :
  Split_Price this = Ok (this', x) \/ Split_Cost this = Ok (this', x) ->
  (Split_Price this = Ok (this', x) -> Split_Price this' = Ok (this', x))
  /\ (Split_Cost this = Ok (this', x) -> Split_Cost this' = Ok (this', x))
  /\ split_delta this' = split_delta this
  /\ account this' = account this.
Proof.
  intros HPC. split; [|split].
  - unfold Split_Price. destruct (split_price this) as [p|] eqn:Ep.
    + intros [= <- <-]. rewrite Ep. reflexivity.
    + destruct (split_cost this) as [c|]; [|discriminate].
      destruct (split_delta this) as [d|]; [|discriminate].
      destruct (Quo (rat c) (rat d)); cbn [mbind outcome_bind]; try discriminate.
      intros [= <- <-]. reflexivity.
  - unfold Split_Cost. destruct (split_cost this) as [c|] eqn:Ec.
    + intros [= <- <-]. rewrite Ec. reflexivity.
    + destruct (split_price this) as [p|]; [|discriminate].
      destruct (split_delta this) as [d|]; [|discriminate].
      intros [= <- <-]. reflexivity.
  - destruct HPC as [HP | HC].
    + unfold Split_Price in HP. destruct (split_price this) as [p|].
      * injection HP as <- <-. split; reflexivity.
      * destruct (split_cost this) as [c|]; [|discriminate].
        destruct (split_delta this) as [d|] eqn:Ed; [|discriminate].
        destruct (Quo (rat c) (rat d)); cbn [mbind outcome_bind] in HP; try discriminate.
        injection HP as <- <-. cbn. rewrite Ed. split; reflexivity.
    + unfold Split_Cost in HC. destruct (split_cost this) as [c|].
      * injection HC as <- <-. split; reflexivity.
      * destruct (split_price this) as [p|]; [|discriminate].
        destruct (split_delta this) as [d|] eqn:Ed; [|discriminate].
        injection HC as <- <-. cbn. rewrite Ed. split; reflexivity.
Qed.

Lemma Split_Price_Cost_stored_witness :
  exists this' x,
    Split_Cost priced_sale = Ok (this', x)
    /\ (Split_Price priced_sale = Ok (this', x) -> Split_Price this' = Ok (this', x))
    /\ (Split_Cost priced_sale = Ok (this', x) -> Split_Cost this' = Ok (this', x))
    /\ split_delta this' = split_delta priced_sale
    /\ account this' = account priced_sale.
Proof.
  eexists _, _. split; [reflexivity|].
  apply (Split_Price_Cost_stored priced_sale). right. reflexivity.
Defined.

(** X8. [parseAmount] never lowers the precision of an asset, leaves
    [decimalPlaces] as it is when it returns an error, and changes no
    entry but that of the asset it read. *)
Theorem parseAmount_registry (str : string) (decimalPlaces : gmap Asset nat) :
  (forall a, (precision decimalPlaces a
              <= precision (snd (parseAmount str decimalPlaces)) a)%nat)
  /\ (forall e, fst (parseAmount str decimalPlaces) = inr e ->
                snd (parseAmount str decimalPlaces) = decimalPlaces)
  /\ (forall A b, fst (parseAmount str decimalPlaces) = inl A -> b <> asset A ->
                  snd (parseAmount str decimalPlaces) !! b = decimalPlaces !! b).
Proof.
  unfold parseAmount.
  destruct (strings_Split (strings_TrimSpace str) " ") as [|num [|a rest]];
    cbn [fst snd]; try (repeat split; intros; try discriminate; reflexivity || lia).
  destruct (SetString num) as [v|]; cbn [fst snd];
    [|repeat split; intros; try discriminate; reflexivity || lia].
  assert (Hreg : forall d1 : string,
             let dp' := if (precision decimalPlaces a <? String.length d1)%nat
                        then <[a := String.length d1]> decimalPlaces else decimalPlaces in
             (forall b, (precision decimalPlaces b <= precision dp' b)%nat)
             /\ (forall b, b <> a -> dp' !! b = decimalPlaces !! b)).
  { intros d1. cbn zeta.
    destruct (precision decimalPlaces a <? String.length d1)%nat eqn:El.
    - apply Nat.ltb_lt in El. split.
      + intros b. unfold precision at 2. destruct (decide (b = a)) as [->|Hne].
        * rewrite lookup_insert_eq. lia.
        * rewrite lookup_insert_ne by congruence. unfold precision. reflexivity.
      + intros b Hne. rewrite lookup_insert_ne by congruence. reflexivity.
    - split; [intros; lia | reflexivity]. }
  destruct (strings_Split num ".") as [|d0 [|d1 more]];
    try (repeat split; intros; try discriminate; reflexivity || lia).
  destruct (Hreg d1) as [H1 H2]. split; [exact H1|]. split; [discriminate|].
  intros A b [= <-] Hne. apply H2. exact Hne.
Qed.

(** Rounding to [prec] places moves a value by half a unit of the last
    place at most. *)
Lemma round_half_away_close (x : Q) (prec : nat) :
  Qabs (round_half_away x prec - x) <= 1 # (2 * pow10 prec).
Proof.
  unfold round_half_away, rounded_units.
  set (P := inject_Z (Zpos (pow10 prec))).
  assert (HP : 0 < P) by (unfold P, Qlt; simpl; lia).
  set (y := Qabs x * P + (1 # 2)).
  pose proof (Qfloor_le y) as Hlo. pose proof (Qlt_floor y) as Hhi.
  rewrite inject_Z_plus in Hhi. change (inject_Z 1) with 1 in Hhi.
  set (U := inject_Z (Qfloor y)) in *.
  assert (Er : Qfloor y # pow10 prec == U / P) by (unfold U, P; apply Qmake_Qdiv).
  assert (Eh : 1 # (2 * pow10 prec) == (1 # 2) / P).
  { unfold P. rewrite Qmake_Qdiv. rewrite Pos2Z.inj_mul, inject_Z_mult.
    change (inject_Z 1) with 1. change (inject_Z 2) with 2. field.
    unfold Qeq; simpl; lia. }
  rewrite Er, Eh. clear Er Eh.
  set (r := U / P). assert (Hr : r * P == U) by (unfold r; field; lra).
  set (h := (1 # 2) / P). assert (Hh : h * P == 1 # 2) by (unfold h; field; lra).
  unfold y in Hlo, Hhi. clearbody r h U. clear y.
  assert (Hb : Qabs x - h <= r /\ r <= Qabs x + h).
  { split.
    - apply Qnot_lt_le. intros Hn.
      assert (r * P < (Qabs x - h) * P) by (apply Qmult_lt_compat_r; assumption).
      lra.
    - apply Qnot_lt_le. intros Hn.
      assert ((Qabs x + h) * P < r * P) by (apply Qmult_lt_compat_r; assumption).
      lra. }
  destruct Hb as [Hb1 Hb2]. apply Qabs_Qle_condition.
  assert (Hh0 : 0 <= h).
  { apply Qnot_lt_le. intros Hn.
    assert (h * P < 0 * P) by (apply Qmult_lt_compat_r; assumption). lra. }
  destruct (Qsign_cases x) as [[H0 E0]|[[H0 E0]|[H0 E0]]]; rewrite E0.
  - rewrite Qabs_neg in Hb1, Hb2 by lra.
    change (inject_Z (-1)) with (-(1)). split; lra.
  - rewrite H0 in Hb1, Hb2. change (Qabs 0) with 0 in *.
    change (inject_Z 0) with 0. split; lra.
  - rewrite Qabs_pos in Hb1, Hb2 by lra.
    change (inject_Z 1) with 1. split; lra.
Qed.

(** X9. An amount as printed ([FloatString], read back with [SetString],
    the way the gains tally it) is within half a unit of the last place
    printed of the amount. *)
Theorem printed_within_half_unit (decimalPlaces : gmap Asset nat) (x : Amount) :
  exists v,
    printed decimalPlaces x = Ok v
    /\ Qabs (v - rat x) <= 1 # (2 * pow10 (precision decimalPlaces (asset x))).
Proof.
  destruct (printed_ok decimalPlaces x) as (v & Hv & Ev).
  exists v. split; [exact Hv|]. rewrite Ev. apply round_half_away_close.
Qed.

(** X10. Reading [<number> <asset>] registers the decimals of the number:
    the precision of the asset afterwards is the larger of what it was
    and the count of digits after the point, and the amount read is the
    value of the number. *)
Theorem parseAmount_observes_decimals (decimalPlaces : gmap Asset nat)
    (neg : bool) (qi : N) (core : string) (m : N) (a : Asset) :
  digits core = Some m ->
  is_token a = true ->
  exists dp',
    parseAmount (number_text neg qi core ++ " " ++ a) decimalPlaces =
      (inl (mkAmount a (signed neg (inject_Z (Z.of_N qi)
                                    + (Z.of_N m # pow10 (String.length core))))), dp')
    /\ precision dp' a = Nat.max (precision decimalPlaces a) (String.length core).
Proof.
  intros Hm Ha. unfold is_token in Ha. apply andb_prop in Ha as [Ha Hend].
  apply andb_prop in Ha as [Hnb Hne]. apply negb_true_iff in Hend.
  apply negb_true_iff, String.eqb_neq in Hne.
  unfold parseAmount.
  destruct (number_text_head_ascii neg qi core) as (c & s & Ehead & Hc & Hascii).
  assert (Etrim : strings_TrimSpace (number_text neg qi core ++ " " ++ a)
                  = (number_text neg qi core ++ " " ++ a)%string).
  { rewrite Ehead. cbn [append]. apply (TrimSpace_id c _ Hc Hascii).
    change (String c (s ++ String " " a)) with (String c s ++ String " " a)%string.
    rewrite ends_in_space_app by exact Hne. exact Hend. }
  rewrite Etrim.
  change (" " ++ a)%string with (String " " a).
  rewrite (strings_Split_at _ _ _ (number_text_no_blank neg qi core m Hm)),
    (strings_Split_none _ _ Hnb).
  rewrite (SetString_number_text neg qi core m Hm).
  unfold number_text. destruct core as [|d core].
  - cbn [String.length Nat.eqb]. rewrite string_app_nil_r.
    rewrite (strings_Split_none _ _ (sign_digits_no_point neg qi)).
    eexists. split; [reflexivity|]. lia.
  - cbn [Nat.eqb String.length] in *.
    rewrite <- (string_app_assoc (sign_text neg) (utoa qi) (String "." (String d core))).
    rewrite (strings_Split_at _ _ _ (sign_digits_no_point neg qi)).
    rewrite strings_Split_none
      by (eapply string_forall_impl; [apply is_digit_not_point|];
          eapply digits_from_is_digit, Hm).
    cbn [String.length]. eexists. split; [reflexivity|].
    destruct (Nat.ltb_spec (precision decimalPlaces a) (S (String.length core))).
    + unfold precision at 1. rewrite lookup_insert_eq. lia.
    + lia.
Qed.

Lemma parseAmount_observes_decimals_witness :
  exists dp',
    parseAmount (number_text false 1 "12345678" ++ " " ++ "BTC") ∅ =
      (inl (mkAmount "BTC" (signed false (inject_Z (Z.of_N 1)
                              + (Z.of_N 12345678 # pow10 (String.length "12345678"))))), dp')
    /\ precision dp' "BTC" = Nat.max (precision ∅ "BTC") (String.length "12345678").
Proof.
  apply (parseAmount_observes_decimals ∅ false 1 "12345678" 12345678 "BTC"); reflexivity.
Defined.

Lemma strings_Split_nonempty s sep : strings_Split s sep <> [].
Proof. induction s as [|c s IH]; simpl; [discriminate|]. destruct (Ascii.eqb c sep); [discriminate|]. destruct (strings_Split s sep); discriminate. Qed.

Lemma strings_Split_some s sep :
  string_forall (not_byte sep) s = false ->
  exists a b rest, strings_Split s sep = a :: b :: rest.
Proof.
  induction s as [|c s IH]; simpl; [discriminate|]. unfold not_byte at 1.
  destruct (Ascii.eqb c sep); simpl.
  - intros _. pose proof (strings_Split_nonempty s sep).
    destruct (strings_Split s sep) as [|b rest]; [contradiction|]. eauto.
  - intros Hs. destruct (IH Hs) as (a & b & rest & ->). eauto.
Qed.

(** X11. [parseAmount] returns the error of a text that is not an amount
    and an asset exactly when the text, trimmed, holds no space. *)
Theorem parseAmount_shape_error (str : string) (decimalPlaces : gmap Asset nat) :
  fst (parseAmount str decimalPlaces) = inr (ErrAmountShape str)
  <-> string_forall (not_byte " ") (strings_TrimSpace str) = true.
Proof.
  unfold parseAmount. split.
  - destruct (string_forall (not_byte " ") (strings_TrimSpace str)) eqn:Hs; [reflexivity|].
    destruct (strings_Split_some _ _ Hs) as (a & b & rest & ->).
    destruct (SetString a); simpl; discriminate.
  - intros Hs. rewrite (strings_Split_none _ _ Hs). reflexivity.
Qed.

(** ** Further properties of the gains *)

(** An amount as it is printed, and the sum of amounts as printed. *)
Definition rounded (dp : gmap Asset nat) (x : Amount) : Q :=
  round_half_away (rat x) (precision dp (asset x)).

Definition sum_rounded (dp : gmap Asset nat) (xs : list Amount) : Q :=
  fold_right (fun x acc => rounded dp x + acc) 0 xs.

(** The deltas of the splits in the base asset. *)
Definition base_legs (base : Asset) (split : list Split) : list Amount :=
  flat_map (fun s => match split_delta s with
                     | Some d => if bool_decide (asset d = base) then [d] else []
                     | None => []
                     end) split.

Lemma sum_rounded_app dp xs ys :
  sum_rounded dp (xs ++ ys) == sum_rounded dp xs + sum_rounded dp ys.
Proof. induction xs as [|x xs IH]; simpl; [lra | rewrite IH; lra]. Qed.

Lemma base_deltas_sum dp base split : forall total t,
  base_deltas dp base split total = Ok t ->
  t == total + sum_rounded dp (base_legs base split).
Proof.
  induction split as [|s split IH]; intros total t; simpl.
  - intros [= <-]. lra.
  - destruct (split_delta s) as [d|]; [|discriminate].
    destruct (bool_decide (asset d = base)).
    + destruct (printed_ok dp d) as (p & -> & Hp). cbn [mbind outcome_bind].
      intros Ht. apply IH in Ht. rewrite Ht, sum_rounded_app. simpl.
      fold (rounded dp d) in Hp. rewrite Hp. lra.
    + intros Ht. apply IH in Ht. rewrite Ht. simpl. lra.
Qed.

Lemma base_deltas_qualified_sum dp base qualified : forall total t,
  base_deltas_qualified dp base qualified total = Ok t ->
  t == total + sum_rounded dp (base_legs base (flat_map snd qualified)).
Proof.
  induction qualified as [|[q split] rest IH]; intros total t; simpl.
  - intros [= <-]. lra.
  - destruct (base_deltas dp base split total) as [t1| |] eqn:E1;
      cbn [mbind outcome_bind]; try discriminate.
    intros Ht. apply IH in Ht. apply base_deltas_sum in E1.
    unfold base_legs in *. rewrite flat_map_app, sum_rounded_app, Ht, E1. lra.
Qed.

Lemma base_deltas_splits_sum dp base splits : forall total t,
  base_deltas_splits dp base splits total = Ok t ->
  t == total + sum_rounded dp (base_legs base (all_splits splits)).
Proof.
  induction splits as [|[a qualified] rest IH]; intros total t; simpl.
  - intros [= <-]. unfold all_splits. simpl. lra.
  - destruct (base_deltas_qualified dp base qualified total) as [t1| |] eqn:E1;
      cbn [mbind outcome_bind]; try discriminate.
    intros Ht. apply IH in Ht. apply base_deltas_qualified_sum in E1.
    unfold all_splits, base_legs in *. simpl.
    rewrite flat_map_app, sum_rounded_app, Ht, E1. lra.
Qed.

Section GainTotals.
Variable Elapsed_years : Time -> Time -> Z.
Variable txDate : Time.
Variable dp : gmap Asset nat.

Lemma tally_event_total t l i b t' :
  tally_event Elapsed_years dp txDate t l i b = Ok t' ->
  totalGain t' == totalGain t + rounded dp b.
Proof.
  unfold tally_event. destruct (printed_ok dp b) as (p & -> & Hp).
  match goal with |- context [mbind _ ?m] => destruct m as [[li si]| |] end;
    cbn [mbind outcome_bind]; try discriminate.
  match goal with |- context [mbind _ ?m] => destruct m as [[lb li']| |] end;
    cbn [mbind outcome_bind]; try discriminate.
  match goal with |- context [mbind _ ?m] => destruct m as [[sb si']| |] end;
    cbn [mbind outcome_bind]; try discriminate.
  intros [= <-]. cbn [totalGain]. unfold rounded. rewrite Hp. reflexivity.
Qed.

Lemma tally_events_total : forall lot inventory basis t t',
  length lot = length inventory -> length lot = length basis ->
  tally_events Elapsed_years dp txDate t lot inventory basis = Ok t' ->
  totalGain t' == totalGain t + sum_rounded dp basis.
Proof.
  intros lot. induction lot as [|l lot IH];
    intros [|i inventory] [|b basis] t t' L1 L2; try discriminate; simpl.
  - intros [= <-]. lra.
  - destruct (tally_event Elapsed_years dp txDate t l i b) as [t1| |] eqn:E1;
      cbn [mbind outcome_bind]; try discriminate.
    intros Ht. apply IH in Ht; [|simpl in *; lia ..].
    apply tally_event_total in E1. rewrite Ht, E1. lra.
Qed.

Lemma apportion_tally base t g : apportion base t = Ok g -> gain_tally g = t.
Proof.
  unfold apportion. destruct (shortInventory t) as [si|]; [|intros [= <-]; reflexivity].
  destruct (longInventory t) as [li|]; [|intros [= <-]; reflexivity].
  destruct (Quo _ _); cbn [mbind outcome_bind]; try discriminate.
  intros [= <-]. reflexivity.
Qed.

(** X12. The total gain of a transaction is the sum of the bases of the
    lots it touched and, for a trade, of the deltas in the base asset,
    each as it is printed. *)
Theorem lotMain_totalGain (base : Asset) (isTrade : bool) (splits : SplitSet)
    (lot : list Lot) (inventory basis : list Amount) (comment : list string)
    (g : Gains) :
  lotMain_gains Elapsed_years dp base isTrade splits txDate lot inventory basis comment
    = Ok g ->
  totalGain (gain_tally g)
  == (if isTrade then sum_rounded dp (base_legs base (all_splits splits)) else 0)
     + sum_rounded dp basis.
Proof.
  unfold lotMain_gains.
  destruct (length lot =? length inventory)%nat eqn:L1; [|discriminate].
  destruct (length lot =? length basis)%nat eqn:L2; [|discriminate].
  destruct (negb (length lot =? length comment)%nat); [discriminate|]. cbn [negb orb].
  apply Nat.eqb_eq in L1, L2.
  destruct (existsb _ inventory); [discriminate|].
  match goal with |- context [mbind _ ?m] => destruct m as [total| |] eqn:Et end;
    cbn [mbind outcome_bind]; try discriminate.
  match goal with |- context [mbind _ ?m] => destruct m as [t| |] eqn:Ett end;
    cbn [mbind outcome_bind]; try discriminate.
  intros Hg. apply apportion_tally in Hg. rewrite Hg.
  apply tally_events_total in Ett; [|assumption ..]. cbn [totalGain] in Ett.
  rewrite Ett. destruct isTrade.
  - apply base_deltas_splits_sum in Et. rewrite Et. lra.
  - injection Et as <-. lra.
Qed.
End GainTotals.

Lemma lotMain_totalGain_witness :
  exists g,
    lotMain_gains whole_years ∅ USD true sale_splits 18300%Z [lot_2018; lot_2020]
      [mkAmount AAA 10; mkAmount AAA 5] [mkAmount USD (-1000); mkAmount USD (-2500)]
      ["a"; "b"]%string = Ok g
    /\ totalGain (gain_tally g)
       == sum_rounded ∅ (base_legs USD (all_splits sale_splits))
          + sum_rounded ∅ [mkAmount USD (-1000); mkAmount USD (-2500)].
Proof.
  eexists. split; [vm_compute; reflexivity|].
  apply (lotMain_totalGain whole_years 18300%Z ∅ USD true sale_splits
           [lot_2018; lot_2020] [mkAmount AAA 10; mkAmount AAA 5]
           [mkAmount USD (-1000); mkAmount USD (-2500)] ["a"; "b"]%string).
  vm_compute. reflexivity.
Defined.

Section GainAssets.
Variable Elapsed_years : Time -> Time -> Z.
Variable txDate : Time.
Variable dp : gmap Asset nat.

(** The asset of the long term inventory of a tally is that of the first
    inventory sold, and every inventory sold after is in it. *)
Lemma tally_event_asset t l i b t' :
  tally_event Elapsed_years dp txDate t l i b = Ok t' ->
  match longInventory t with
  | Some x => (0 < rat i -> asset i = asset x)
              /\ exists x', longInventory t' = Some x' /\ asset x' = asset x
  | None => (rat i <= 0 /\ longInventory t' = None)
            \/ (0 < rat i /\ exists x', longInventory t' = Some x' /\ asset x' = asset i)
  end.
Proof.
  unfold tally_event, Sign. destruct (printed_ok dp b) as (p & -> & _).
  destruct (Qsign_cases (rat i)) as [[H0 E0]|[[H0 E0]|[H0 E0]]]; rewrite E0;
    cbn [Z.gtb Z.compare andb mbind outcome_bind].
  - intros [= <-]. cbn [longInventory]. destruct (longInventory t) as [x|].
    + split; [lra | eauto].
    + left. split; [lra | reflexivity].
  - intros [= <-]. cbn [longInventory]. destruct (longInventory t) as [x|].
    + split; [lra | eauto].
    + left. split; [lra | reflexivity].
  - destruct (longInventory t) as [x|] eqn:Ex.
    + destruct (bool_decide (asset x <> asset i)) eqn:Eb; cbn [mbind outcome_bind];
        [discriminate|].
      apply bool_decide_eq_false in Eb.
      assert (Ea : asset i = asset x)
        by (destruct (decide (asset x = asset i)); [congruence | contradiction]).
      destruct (Elapsed_years (date l) txDate >? 0)%Z;
        cbn [negb add_to mbind outcome_bind].
      * intros [= <-]. cbn [longInventory]. split; [auto | eauto].
      * destruct (shortInventory t); cbn [add_to mbind outcome_bind]; [|discriminate].
        intros [= <-]. cbn [longInventory]. split; [auto | eauto].
    + cbn [ZeroClone asset]. rewrite bool_decide_eq_false_2 by (intros Hn; apply Hn; reflexivity).
      cbn [mbind outcome_bind].
      destruct (Elapsed_years (date l) txDate >? 0)%Z;
        cbn [negb add_to mbind outcome_bind asset];
        intros [= <-]; cbn [longInventory]; right; (split; [exact H0|]); eauto.
Qed.

Lemma tally_events_asset_set : forall lot inventory basis t t' x,
  longInventory t = Some x ->
  tally_events Elapsed_years dp txDate t lot inventory basis = Ok t' ->
  Forall (fun i => 0 < rat i -> asset i = asset x) inventory.
Proof.
  intros lot. induction lot as [|l lot IH]; intros [|i inventory] [|b basis] t t' x Hx;
    simpl; try discriminate; try solve [intros _; constructor].
  destruct (tally_event Elapsed_years dp txDate t l i b) as [t1| |] eqn:E1;
    cbn [mbind outcome_bind]; try discriminate.
  apply tally_event_asset in E1. rewrite Hx in E1. destruct E1 as (Hi & x1 & Hx1 & Ea).
  intros Ht. constructor; [exact Hi|]. rewrite <- Ea. eapply IH; eassumption.
Qed.

Lemma tally_events_asset : forall lot inventory basis t t',
  longInventory t = None ->
  tally_events Elapsed_years dp txDate t lot inventory basis = Ok t' ->
  exists a, Forall (fun i => 0 < rat i -> asset i = a) inventory.
Proof.
  intros lot. induction lot as [|l lot IH]; intros [|i inventory] [|b basis] t t' Hx;
    simpl; try discriminate; try solve [intros _; exists EmptyString; constructor].
  destruct (tally_event Elapsed_years dp txDate t l i b) as [t1| |] eqn:E1;
    cbn [mbind outcome_bind]; try discriminate.
  apply tally_event_asset in E1. rewrite Hx in E1.
  destruct E1 as [[Hi Hn] | (Hi & x1 & Hx1 & Ea)]; intros Ht.
  - destruct (IH _ _ _ _ Hn Ht) as (a & Ha). exists a. constructor; [intros; lra | exact Ha].
  - exists (asset i). constructor; [reflexivity|]. rewrite <- Ea.
    eapply tally_events_asset_set; eassumption.
Qed.

(** X13. For slices of one length without an inventory of zero and, for a
    trade, splits with their deltas, the gains are computed exactly when
    the inventories sold are in one asset; otherwise the program
    panics. *)
Theorem lotMain_gains_returns_iff (base : Asset) (isTrade : bool) (splits : SplitSet)
    (lot : list Lot) (inventory basis : list Amount) (comment : list string) :
  length lot = length inventory -> length lot = length basis ->
  length lot = length comment ->
  Forall (fun i => ~ rat i == 0) inventory ->
  (isTrade = true -> Forall (fun s => split_delta s <> None) (all_splits splits)) ->
  returns (lotMain_gains Elapsed_years dp base isTrade splits txDate
             lot inventory basis comment)
  <-> exists a, Forall (fun i => 0 < rat i -> asset i = a) inventory.
Proof.
  intros HL1 HL2 HL3 Hnz Hsp. unfold lotMain_gains, returns.
  rewrite <- HL1, <- HL2, <- HL3, Nat.eqb_refl. cbn [negb orb].
  assert (Hz : existsb (fun i => (Sign i =? 0)%Z) inventory = false).
  { clear -Hnz. induction Hnz as [|i inv Hi _ IH]; [reflexivity|]. simpl. rewrite IH.
    unfold Sign. destruct (Qsign_cases (rat i)) as [[H0 E0]|[[H0 E0]|[H0 E0]]];
      rewrite E0; try reflexivity. contradiction. }
  rewrite Hz.
  assert (Ht : exists total,
             (if isTrade then base_deltas_splits dp base splits 0 else Ok 0) = Ok total).
  { destruct isTrade; [apply base_deltas_splits_ok, Hsp; reflexivity | eauto]. }
  destruct Ht as (total & ->). cbn [mbind outcome_bind]. split.
  - intros (g & Hg).
    destruct (tally_events Elapsed_years dp txDate (mkGainTally 0 0 None None total)
                lot inventory basis) as [t| |] eqn:Et;
      cbn [mbind outcome_bind] in Hg; try discriminate.
    eapply tally_events_asset; [|exact Et]. reflexivity.
  - intros (a & Ha).
    destruct (tally_events_ok Elapsed_years txDate dp a lot inventory basis
                (mkGainTally 0 0 None None total) HL1 HL2 Ha I)
      as (t & -> & Hok & HLi & HSi & Hnone).
    cbn [mbind outcome_bind]. unfold apportion, tally_ok in *.
    destruct (longInventory t) as [li|] eqn:Eli; destruct (shortInventory t) as [si|] eqn:Esi;
      try contradiction; [|eauto].
    destruct (sold_or_not inventory) as [HF|Hex].
    { assert (Hn : @None Amount = None /\ Forall (fun i => rat i <= 0) inventory)
        by (split; [reflexivity | exact HF]).
      apply Hnone in Hn. discriminate. }
    pose proof (disposed_positive (is_long Elapsed_years txDate) lot inventory HL1 Hex) as Hpos.
    simpl in HLi, HSi. unfold Quo. rewrite (Qsign_pos (rat si + rat li)) by lra.
    cbn [Z.eqb mbind outcome_bind]. eauto.
Qed.
End GainAssets.

Lemma lotMain_gains_returns_iff_witness :
  returns (lotMain_gains whole_years ∅ USD true sale_splits 18300%Z [lot_2018; lot_2020]
             [mkAmount AAA 10; mkAmount AAA 5]
             [mkAmount USD (-1000); mkAmount USD (-2500)] ["a"; "b"]%string)
  <-> exists a, Forall (fun i => 0 < rat i -> asset i = a) [mkAmount AAA 10; mkAmount AAA 5].
Proof.
  apply (lotMain_gains_returns_iff whole_years 18300%Z ∅ USD true sale_splits
           [lot_2018; lot_2020] [mkAmount AAA 10; mkAmount AAA 5]
           [mkAmount USD (-1000); mkAmount USD (-2500)] ["a"; "b"]%string).
  - reflexivity.
  - reflexivity.
  - reflexivity.
  - repeat constructor; simpl; intros H; discriminate H.
  - intros _. repeat constructor; simpl; discriminate.
Defined.

(** ** The claim about gains *)



Section GainOutcome.
Variable Elapsed_years : Time -> Time -> Z.
Variable txDate : Time.
Variable dp : gmap Asset nat.


End GainOutcome.







Lemma disposed_unsold keep lot inventory :
  Forall2 (fun l i => 0 < rat i -> keep l = false) lot inventory ->
  disposed keep lot inventory == 0.
Proof.
  intros HF. induction HF as [|l i lot inventory Hl _ IH]; simpl; [reflexivity|].
  rewrite IH. unfold Sign.
  destruct (Qsign_cases (rat i)) as [[H0 E0]|[[H0 E0]|[H0 E0]]]; rewrite E0; simpl;
    try lra.
  rewrite (Hl H0). lra.
Qed.

(** X14. When every lot sold from was held for more than a year, the
    short term gain is zero and the long term gain is the total gain; no
    posting of a short term gain is written. The lots that inventory was
    added to (lots bought in the trade) may be of any date. *)
Theorem long_term_only (Elapsed_years : Time -> Time -> Z) (txDate : Time)
    (dp : gmap Asset nat) (base : Asset) (isTrade : bool) (splits : SplitSet)
    (lot : list Lot) (inventory basis : list Amount) (comment : list string)
    (a : Asset) :
  length lot = length inventory -> length lot = length basis ->
  length lot = length comment ->
  Forall (fun i => ~ rat i == 0) inventory ->
  Forall (fun i => 0 < rat i -> asset i = a) inventory ->
  Exists (fun i => 0 < rat i) inventory ->
  (isTrade = true -> Forall (fun s => split_delta s <> None) (all_splits splits)) ->
  Forall2 (fun l i => 0 < rat i -> is_long Elapsed_years txDate l = true) lot inventory ->
  exists g shortGain longGain,
    lotMain_gains Elapsed_years dp base isTrade splits txDate lot inventory basis comment
      = Ok g
    /\ gain_parts g = Some (shortGain, longGain)
    /\ shortGain == 0
    /\ longGain == totalGain (gain_tally g)
    /\ Forall (fun p => fst p = "Lot:Income:long term gain"%string) (gain_postings g).
Proof.
  intros HL1 HL2 HL3 Hnz Ha Hex Hsp Hlong. unfold lotMain_gains.
  rewrite <- HL1, <- HL2, <- HL3, Nat.eqb_refl. cbn [negb orb].
  assert (Hz : existsb (fun i => (Sign i =? 0)%Z) inventory = false).
  { clear -Hnz. induction Hnz as [|i inv Hi _ IH]; [reflexivity|]. simpl. rewrite IH.
    unfold Sign. destruct (Qsign_cases (rat i)) as [[H0 E0]|[[H0 E0]|[H0 E0]]];
      rewrite E0; try reflexivity. contradiction. }
  rewrite Hz.
  assert (Ht : exists total,
             (if isTrade then base_deltas_splits dp base splits 0 else Ok 0) = Ok total).
  { destruct isTrade; [apply base_deltas_splits_ok, Hsp; reflexivity | eauto]. }
  destruct Ht as (total & ->). cbn [mbind outcome_bind].
  destruct (tally_events_ok Elapsed_years txDate dp a lot inventory basis
              (mkGainTally 0 0 None None total) HL1 HL2 Ha I)
    as (t & -> & Hok & HLi & HSi & Hnone).
  cbn [mbind outcome_bind]. unfold apportion, tally_ok in *.
  destruct (longInventory t) as [li|] eqn:Eli; destruct (shortInventory t) as [si|] eqn:Esi;
    try contradiction.
  2:{ exfalso. destruct Hnone as [Hnone _]. specialize (Hnone eq_refl) as [_ HF].
      apply Exists_exists in Hex as (i & Hin & Hi).
      rewrite Forall_forall in HF. specialize (HF i Hin). simpl in HF. lra. }
  pose proof (disposed_positive (is_long Elapsed_years txDate) lot inventory HL1 Hex) as Hpos.
  rewrite (disposed_unsold (fun l => negb (is_long Elapsed_years txDate l))) in HSi, Hpos
    by (eapply Forall2_impl; [exact Hlong|]; simpl; intros l i Hl Hi; rewrite (Hl Hi);
        reflexivity).
  simpl in HLi, HSi. unfold Quo. rewrite (Qsign_pos (rat si + rat li)) by lra.
  cbn [Z.eqb mbind outcome_bind].
  assert (Hs : totalGain t * (rat si / (rat si + rat li)) == 0).
  { rewrite HSi. field. lra. }
  rewrite (Qsign_zero _ Hs). cbn [Z.eqb negb app].
  eexists _, _, _. split; [reflexivity|]. cbn [gain_parts gain_tally gain_postings].
  split; [reflexivity|]. split; [exact Hs|]. split; [rewrite Hs; lra|].
  destruct (negb _); repeat constructor.
Qed.

(** The 10 AAA of the lot of 2018 given for 5 BBB on day 18300: the lot
    sold from is of 2018, the lot bought is of the day. *)
Definition lot_bought : Lot :=
  mkLot "Lot::18300:5BBB@2AAA@1000USD:3" 18300%Z 3%Z
        (mkAmount BBB 5) (mkAmount BBB 5) (mkAmount USD 1000) 200.

Lemma long_term_only_witness :
  exists g shortGain longGain,
    lotMain_gains whole_years ∅ USD true barter 18300%Z [lot_2018; lot_bought]
      [mkAmount AAA 10; mkAmount BBB (-5)] [mkAmount USD (-1000); mkAmount USD 1000]
      ["a"; "b"]%string = Ok g
    /\ gain_parts g = Some (shortGain, longGain)
    /\ shortGain == 0
    /\ longGain == totalGain (gain_tally g)
    /\ Forall (fun p => fst p = "Lot:Income:long term gain"%string) (gain_postings g).
Proof.
  apply (long_term_only whole_years 18300%Z ∅ USD true barter [lot_2018; lot_bought]
           [mkAmount AAA 10; mkAmount BBB (-5)] [mkAmount USD (-1000); mkAmount USD 1000]
           ["a"; "b"]%string AAA).
  - reflexivity.
  - reflexivity.
  - reflexivity.
  - repeat constructor; simpl; intros H; discriminate H.
  - constructor; [reflexivity|]. constructor; [|constructor]. simpl. intros H. discriminate H.
  - constructor. reflexivity.
  - intros _. repeat constructor; simpl; discriminate.
  - constructor; [reflexivity|]. constructor; [|constructor]. simpl. intros H. discriminate H.
Defined.

(** ** Properties of the ledger and the resolvers *)

(** The lots held for an asset and qualifier. *)
Definition lots_of (lotQueue : Ledger) (a : Asset) (qualifier : string) : list Lot :=
  match queue_of lotQueue a qualifier with
  | Some queue => lot queue
  | None => []
  end.

(** The four result slices have one length. *)
Definition aligned (st : Resolver) : Prop :=
  length (res_lot st) = length (res_inventory st)
  /\ length (res_lot st) = length (res_basis st)
  /\ length (res_lot st) = length (res_comment st).

Lemma aligned_report st l i b c : aligned st -> aligned (report st l i b c).
Proof.
  unfold aligned. simpl. rewrite !length_app. simpl. lia.
Qed.

Lemma aligned_set_ledger st lq : aligned st -> aligned (set_ledger st lq).
Proof. exact id. Qed.

Lemma aligned_set_counter st w : aligned st -> aligned (set_counter st w).
Proof. exact id. Qed.

Lemma aligned_set_err st e : aligned st -> aligned (set_err st e).
Proof. exact id. Qed.

Create HintDb aligned.
#[local] Hint Resolve aligned_report aligned_set_ledger aligned_set_counter
  aligned_set_err : aligned.

(** Takes apart a [match] on an outcome in the goal. *)
Ltac bind_case :=
  match goal with
  | |- context [mbind _ ?m] =>
      let E := fresh "E" in
      destruct m eqn:E; cbn [mbind outcome_bind]; try discriminate
  end.

Section Aligned.
Context `{Sorter}.
Variable base : Asset.
Variable orderFlag : order.
Variable decimalPlaces : gmap Asset nat.
Variable Format : Time -> string.
Variable range_again : list (string * Q) -> list (string * Q).

Lemma move_out_aligned amt qual total : forall l j i b tmpQueue st tmpQueue' st',
  aligned st ->
  move_out decimalPlaces amt qual total j l i b tmpQueue st = Ok (tmpQueue', st') ->
  aligned st'.
Proof.
  induction l as [|lj l IH]; intros j [|ij i] [|bj b] tmpQueue st tmpQueue' st' Hst;
    cbn [move_out]; try discriminate; try (intros [= <- <-]; exact Hst).
  bind_case. destruct a as [tmpLot w]. bind_case.
  apply IH. auto with aligned.
Qed.

Lemma first_pass_aligned a : forall qualified tmpQueue st tmpQueue' st',
  aligned st ->
  first_pass base orderFlag decimalPlaces a qualified tmpQueue st = Ok (tmpQueue', st') ->
  aligned st'.
Proof.
  induction qualified as [|[qual delta] rest IH]; intros tmpQueue st tmpQueue' st' Hst;
    cbn [first_pass]; [intros [= <- <-]; exact Hst|].
  destruct (Qsign delta =? -1)%Z; [|apply IH, Hst].
  bind_case. destruct a0 as [[[[l i] b] e] lq]. destruct e as [e|].
  - intros [= <- <-]. auto with aligned.
  - bind_case. destruct a0 as [tmpQueue1 st1].
    apply move_out_aligned in E0; [|auto with aligned]. apply IH, E0.
Qed.

Lemma move_in_aligned qual : forall l i b st st',
  aligned st ->
  move_in base orderFlag decimalPlaces Format qual l i b st = Ok st' ->
  aligned st'.
Proof.
  induction l as [|lj l IH]; intros [|ij i] [|bj b] st st' Hst;
    cbn [move_in]; try discriminate; try (intros [= <-]; exact Hst).
  bind_case. destruct a as [newLot w]. bind_case.
  apply IH. auto with aligned.
Qed.

Lemma second_pass_aligned a : forall qualified tmpQueue st st',
  aligned st ->
  second_pass base orderFlag decimalPlaces Format a qualified tmpQueue st = Ok st' ->
  aligned st'.
Proof.
  induction qualified as [|[qual delta] rest IH]; intros tmpQueue st st' Hst;
    cbn [second_pass]; [intros [= <-]; exact Hst|].
  destruct (Qsign delta =? 1)%Z; [|apply IH, Hst].
  bind_case. destruct (sold_err a0).
  - intros [= <-]. auto with aligned.
  - bind_case. apply move_in_aligned in E0; [|exact Hst]. apply IH, E0.
Qed.

Lemma consume_moves_aligned : forall moves st st',
  aligned st ->
  consume_moves base orderFlag decimalPlaces Format range_again moves st = Ok st' ->
  aligned st'.
Proof.
  induction moves as [|[a qualified] rest IH]; intros st st' Hst; cbn [consume_moves];
    [intros [= <-]; exact Hst|].
  destruct (bool_decide (a = base)); [apply IH, Hst|].
  bind_case. destruct a0 as [tmpQueue st1].
  apply first_pass_aligned in E; [|exact Hst].
  destruct (non_nil (res_err st1)); [intros [= <-]; exact E|].
  bind_case. apply second_pass_aligned in E0; [|exact E].
  destruct (non_nil (res_err a0)); [intros [= <-]; exact E0|].
  apply IH, E0.
Qed.

Lemma report_sold_aligned c : forall l i b st st',
  aligned st -> report_sold c l i b st = Ok st' -> aligned st'.
Proof.
  induction l as [|lj l IH]; intros [|ij i] [|bj b] st st' Hst;
    cbn [report_sold]; try discriminate; try (intros [= <-]; exact Hst).
  apply IH. auto with aligned.
Qed.

Lemma defer_aligned : forall l i b lotBasis lotDate st lotBasis' lotDate' st',
  aligned st ->
  defer decimalPlaces l i b lotBasis lotDate st = Ok (lotBasis', lotDate', st') ->
  aligned st'.
Proof.
  induction l as [|lj l IH]; intros [|ij i] [|bj b] lotBasis lotDate st lotBasis' lotDate' st'
    Hst; cbn [defer]; try discriminate; try (intros [= <- <- <-]; exact Hst).
  bind_case. apply IH. auto with aligned.
Qed.

Lemma consume_split_aligned txDate qual split st st' stop :
  aligned st ->
  consume_split base orderFlag decimalPlaces Format txDate qual split st = Ok (st', stop) ->
  aligned st'.
Proof.
  intros Hst. unfold consume_split.
  destruct (split_delta split) as [delta|]; [|discriminate].
  destruct (bool_decide (asset delta = base)).
  { destruct (_ || _); intros [= <- <-]; auto with aligned. }
  destruct (Sign delta =? -1)%Z.
  { destruct (negb _); [intros [= <- <-]; exact Hst|].
    bind_case. destruct a as [split1 cost]. bind_case.
    destruct a as [[[[l i] b] e] lq]. destruct e as [e|].
    - intros [= <- <-]. destruct (bool_decide _); auto with aligned.
    - bind_case. intros [= <- <-].
      eapply report_sold_aligned; [|exact E1].
      destruct (bool_decide _); auto with aligned. }
  destruct (negb _); [intros [= <- <-]; auto with aligned|].
  bind_case. destruct a as [split1 pr]. bind_case. destruct a as [split2 cost].
  bind_case. destruct a as [[[[[lotName lotDate] lotBasis] lotComment] st1] stop1].
  assert (Hst1 : aligned st1).
  { destruct (bool_decide (asset cost <> base)); [|injection E1 as _ _ _ _ <- _; exact Hst].
    revert E1. bind_case. destruct a as [[[[l i] b] e] lq]. destruct e as [e|].
    - intros [= _ _ _ _ <- _]. auto with aligned.
    - destruct (_ || _); [discriminate|]. destruct b as [|b0 b']; [discriminate|].
      bind_case. destruct a as [[lotBasis1 lotDate1] st2]. intros [= _ _ _ _ <- _].
      eapply defer_aligned; [|exact E2]. auto with aligned. }
  destruct stop1; [intros [= <- <-]; exact Hst1|].
  bind_case. destruct a as [l w]. bind_case. bind_case.
  intros [= <- <-]. auto with aligned.
Qed.

Lemma consume_splits_aligned txDate qual : forall splits st st' stop,
  aligned st ->
  consume_splits base orderFlag decimalPlaces Format txDate qual splits st = Ok (st', stop) ->
  aligned st'.
Proof.
  induction splits as [|split rest IH]; intros st st' stop Hst; cbn [consume_splits];
    [intros [= <- <-]; exact Hst|].
  bind_case. destruct a as [st1 stop1]. apply consume_split_aligned in E; [|exact Hst].
  destruct stop1; [intros [= <- <-]; exact E|]. apply IH, E.
Qed.

Lemma consume_qualified_aligned txDate : forall qualified st st' stop,
  aligned st ->
  consume_qualified base orderFlag decimalPlaces Format txDate qualified st = Ok (st', stop) ->
  aligned st'.
Proof.
  induction qualified as [|[qual splits] rest IH]; intros st st' stop Hst;
    cbn [consume_qualified]; [intros [= <- <-]; exact Hst|].
  bind_case. destruct a as [st1 stop1]. apply consume_splits_aligned in E; [|exact Hst].
  destruct stop1; [intros [= <- <-]; exact E|]. apply IH, E.
Qed.

Lemma consume_trades_aligned txDate : forall trades st st' stop,
  aligned st ->
  consume_trades base orderFlag decimalPlaces Format txDate trades st = Ok (st', stop) ->
  aligned st'.
Proof.
  induction trades as [|[a qualified] rest IH]; intros st st' stop Hst;
    cbn [consume_trades]; [intros [= <- <-]; exact Hst|].
  bind_case. destruct a0 as [st1 stop1]. apply consume_qualified_aligned in E; [|exact Hst].
  destruct stop1; [intros [= <- <-]; exact E|]. apply IH, E.
Qed.

Lemma aligned_start lq w : aligned (start lq w).
Proof. repeat split. Qed.

(** X15. Whenever [consumeMoves] or [consumeTrades] returns, with an
    error or without, the slices of lots, inventories, bases and comments
    it returns have one length: the check of [lotMain] on them cannot
    fail. *)
Theorem resolvers_return_aligned (lotQueue : Ledger) (w : Z) (st : Resolver) :
  (exists moves,
     consumeMoves base orderFlag decimalPlaces Format range_again moves lotQueue w = Ok st)
  \/ (exists trades txDate,
        consumeTrades base orderFlag decimalPlaces Format trades txDate lotQueue w = Ok st) ->
  length (res_lot st) = length (res_inventory st)
  /\ length (res_lot st) = length (res_basis st)
  /\ length (res_lot st) = length (res_comment st).
Proof.
  intros [(moves & Hm) | (trades & txDate & Ht)].
  - eapply consume_moves_aligned; [apply aligned_start | exact Hm].
  - unfold consumeTrades in Ht. revert Ht. bind_case. destruct a as [st1 stop].
    intros [= <-]. eapply consume_trades_aligned; [apply aligned_start | exact E].
Qed.
End Aligned.

Lemma resolvers_return_aligned_witness :
  exists st,
    consumeMoves (H := insertion_sorter) USD FIFO ∅ day_number id [(AAA, to_hot)]
      cold_storage 1 = Ok st
    /\ length (res_lot st) = length (res_inventory st)
    /\ length (res_lot st) = length (res_basis st)
    /\ length (res_lot st) = length (res_comment st).
Proof.
  eexists. split; [vm_compute; reflexivity|].
  apply (resolvers_return_aligned (H := insertion_sorter) USD FIFO ∅ day_number id
           cold_storage 1).
  left. exists [(AAA, to_hot)]. vm_compute. reflexivity.
Defined.

(** *** The ledger *)

Lemma queue_of_insert (lq : Ledger) (inner : gmap string LotQueue) a q queue a' q' :
  lq !! a = Some inner \/ (lq !! a = None /\ inner = ∅) ->
  queue_of (<[a := <[q := queue]> inner]> lq) a' q'
  = if bool_decide (a' = a /\ q' = q) then Some queue else queue_of lq a' q'.
Proof.
  intros Hin. unfold queue_of, Ledger in *.
  destruct (decide (a' = a)) as [->|Ha].
  - rewrite lookup_insert_eq. simpl.
    destruct (decide (q' = q)) as [->|Hq].
    + rewrite lookup_insert_eq, bool_decide_eq_true_2 by auto. reflexivity.
    + rewrite lookup_insert_ne by congruence.
      rewrite bool_decide_eq_false_2 by (intros [_ ?]; contradiction).
      destruct Hin as [-> | [-> ->]]; [reflexivity|]. rewrite lookup_empty. reflexivity.
  - rewrite lookup_insert_ne by congruence.
    rewrite bool_decide_eq_false_2 by (intros [? _]; contradiction). reflexivity.
Qed.

(** The one error of [LotQueue.Sell] is that of the inventory run out. *)
Lemma sell_loop_err fuel delta : forall lots remaining lts ivs bss s e,
  sell_loop fuel delta lots remaining lts ivs bss = Ok s -> sold_err s = Some e ->
  exists r, e = ErrNoInventory r delta.
Proof.
  induction fuel as [|fuel IH]; intros lots remaining lts ivs bss s e; cbn [sell_loop].
  - destruct (Sign remaining =? 0)%Z; [|discriminate]. intros [= <-]. discriminate.
  - destruct (Sign remaining =? 0)%Z; [intros [= <-]; discriminate|].
    destruct (pop lots) as [[l0 lots']|]; [|intros [= <-] [= <-]; eauto].
    bind_case. destruct a as [[l' sold] soldBasis].
    repeat match goal with |- context [if ?c then _ else _] => destruct c end;
      try discriminate; apply IH.
Qed.

Lemma LotQueue_Sell_err this delta s e :
  LotQueue_Sell this delta = Ok s -> sold_err s = Some e ->
  exists r, e = ErrNoInventory r delta.
Proof.
  unfold LotQueue_Sell. bind_case. apply sell_loop_err.
Qed.

Section LedgerProofs.
Context `{Sorter}.
Variable base : Asset.
Variable orderFlag : order.

Lemma getQueue_inv lq a q queue lq' :
  getQueue base orderFlag lq a q = Ok (queue, lq') ->
  queue = default (mkQueue [] orderFlag) (queue_of lq a q)
  /\ lq' !! a <> None
  /\ forall a' q', queue_of lq' a' q'
                  = if bool_decide (a' = a /\ q' = q) then Some queue
                    else queue_of lq a' q'.
Proof.
  unfold getQueue. destruct (_ && _); [discriminate|]. intros [= <- <-].
  split; [|split].
  - unfold queue_of. destruct (lq !! a); reflexivity.
  - unfold Ledger in *. rewrite lookup_insert_eq. discriminate.
  - intros a' q'. apply queue_of_insert. destruct (lq !! a); [left | right]; auto.
Qed.

Lemma store_inv lq a q queue :
  lq !! a <> None ->
  exists lq', store lq a q queue = Ok lq'
    /\ forall a' q', queue_of lq' a' q'
                    = if bool_decide (a' = a /\ q' = q) then Some queue
                      else queue_of lq a' q'.
Proof.
  intros Hin. unfold store. destruct (lq !! a) as [inner|] eqn:Ei; [|contradiction].
  eexists. split; [reflexivity|]. intros a' q'. apply queue_of_insert. left. exact Ei.
Qed.

(** X16. A [buy] that returns leaves, for the asset of the lot and the
    qualifier, the lots held before and the lot bought, in selling order;
    the lots of every other asset or qualifier are as they were. *)
Theorem buy_adds_the_lot (lotQueue lotQueue' : Ledger) (l : Lot) (qualifier : string) :
  buy base orderFlag lotQueue l qualifier = Ok lotQueue' ->
  Permutation (lots_of lotQueue' (asset (inventory l)) qualifier)
              (lots_of lotQueue (asset (inventory l)) qualifier ++ [l])
  /\ (exists queue, queue_of lotQueue' (asset (inventory l)) qualifier = Some queue
                    /\ in_order (qorder queue) (lot queue))
  /\ forall a q, a <> asset (inventory l) \/ q <> qualifier ->
                 lots_of lotQueue' a q = lots_of lotQueue a q.
Proof.
  unfold buy. bind_case. destruct a as [queue lq].
  apply getQueue_inv in E as (Eq & Hin & Hq). bind_case.
  destruct (store_inv lq (asset (inventory l)) qualifier a Hin) as (lq' & -> & Hq').
  intros [= <-]. apply Buy_inv in E as [_ ->].
  assert (El : lot queue = lots_of lotQueue (asset (inventory l)) qualifier).
  { rewrite Eq. unfold lots_of. destruct (queue_of _ _ _); reflexivity. }
  split; [|split].
  - unfold lots_of at 1. rewrite Hq', bool_decide_eq_true_2 by auto. cbn [lot].
    rewrite <- El. apply sort_lots_perm.
  - eexists. split; [rewrite Hq', bool_decide_eq_true_2 by auto; reflexivity|].
    cbn [lot qorder]. apply sort_lots_in_order.
  - intros a' q' Hne. unfold lots_of.
    rewrite Hq', Hq, !bool_decide_eq_false_2 by (intros [? ?]; destruct Hne; contradiction).
    reflexivity.
Qed.

(** X17. What [sell] returns: never its error of a count mismatch; three
    slices of one length; an error leaves the lots of every queue as they
    were, and a sale changes the lots of its asset and qualifier
    only. *)
Theorem sell_frame (lotQueue lotQueue' : Ledger) (qualifier : string) (delta : Amount)
    (l : list Lot) (i b : list Amount) (e : option error) :
  sell base orderFlag lotQueue qualifier delta = Ok (l, i, b, e, lotQueue') ->
  e <> Some ErrCountMismatch
  /\ length l = length i /\ length i = length b
  /\ (forall a q, a <> asset delta \/ q <> qualifier ->
                  lots_of lotQueue' a q = lots_of lotQueue a q)
  /\ (e <> None -> forall a q, lots_of lotQueue' a q = lots_of lotQueue a q).
Proof.
  unfold sell. destruct (bool_decide (asset delta = base)).
  { intros [= <- <- <- <- <-]. repeat split; auto; discriminate. }
  bind_case. destruct a as [queue lq]. apply getQueue_inv in E as (Eq & Hin & Hq).
  assert (Hframe : forall a q, a <> asset delta \/ q <> qualifier ->
                               lots_of lq a q = lots_of lotQueue a q).
  { intros a q Hne. unfold lots_of.
    rewrite Hq, bool_decide_eq_false_2 by (intros [? ?]; destruct Hne; contradiction).
    reflexivity. }
  assert (Hsame : forall a q, lots_of lq a q = lots_of lotQueue a q).
  { intros a q. unfold lots_of. rewrite Hq.
    destruct (bool_decide_reflect (a = asset delta /\ q = qualifier)) as [[-> ->]|];
      [|reflexivity].
    rewrite Eq. destruct (queue_of lotQueue (asset delta) qualifier); reflexivity. }
  destruct (Len queue <? 1)%nat.
  { intros [= <- <- <- <- <-]. repeat split; auto; discriminate. }
  bind_case. pose proof (LotQueue_Sell_lengths _ _ _ E) as [L1 L2].
  destruct (sold_err a) as [err|] eqn:Ee.
  { intros [= <- <- <- <- <-]. repeat split; auto.
    destruct (LotQueue_Sell_err _ _ _ _ E Ee) as (r & ->). discriminate. }
  rewrite L1, L2, !Nat.eqb_refl. cbn [negb orb].
  destruct (store_inv lq (asset delta) qualifier (queue_after queue a) Hin) as (lq' & -> & Hq').
  cbn [mbind outcome_bind]. intros [= <- <- <- <- <-].
  repeat split; auto; try discriminate; try contradiction.
  intros a' q' Hne. rewrite <- Hframe by exact Hne. unfold lots_of.
  rewrite Hq', bool_decide_eq_false_2 by (intros [? ?]; destruct Hne; contradiction).
  reflexivity.
Qed.
End LedgerProofs.

Lemma buy_adds_the_lot_witness :
  exists lotQueue',
    buy (H := insertion_sorter) USD FIFO cold_storage lot_2020 cold = Ok lotQueue'
    /\ Permutation (lots_of lotQueue' (asset (inventory lot_2020)) cold)
                   (lots_of cold_storage (asset (inventory lot_2020)) cold ++ [lot_2020])
    /\ (exists queue, queue_of lotQueue' (asset (inventory lot_2020)) cold = Some queue
                      /\ in_order (qorder queue) (lot queue))
    /\ forall a q, a <> asset (inventory lot_2020) \/ q <> cold ->
                   lots_of lotQueue' a q = lots_of cold_storage a q.
Proof.
  eexists. split; [vm_compute; reflexivity|].
  apply (buy_adds_the_lot (H := insertion_sorter) USD FIFO cold_storage).
  vm_compute. reflexivity.
Defined.

Lemma sell_frame_witness :
  exists l i b e lotQueue',
    sell USD FIFO (on_exchange FIFO) exchange (mkAmount AAA (-15))
      = Ok (l, i, b, e, lotQueue')
    /\ e <> Some ErrCountMismatch
    /\ length l = length i /\ length i = length b
    /\ (forall a q, a <> asset (mkAmount AAA (-15)) \/ q <> exchange ->
                    lots_of lotQueue' a q = lots_of (on_exchange FIFO) a q)
    /\ (e <> None -> forall a q, lots_of lotQueue' a q = lots_of (on_exchange FIFO) a q).
Proof.
  eexists _, _, _, _, _. split; [vm_compute; reflexivity|].
  apply (sell_frame USD FIFO (on_exchange FIFO) _ exchange (mkAmount AAA (-15))).
  vm_compute. reflexivity.
Defined.

(** X18. A [sell] of a negative amount of an asset that is not the base,
    from a queue that holds lots: it sells the amount, and the inventory
    sold and the inventory left in the queue add up to what the queue
    held; or, when the queue held less, it returns the error of the
    inventory run out. *)
Theorem sell_conserves (base : Asset) (orderFlag : order) (lotQueue : Ledger)
    (qualifier : string) (delta : Amount) :
  asset delta <> base -> rat delta < 0 ->
  lots_of lotQueue (asset delta) qualifier <> [] ->
  Forall (lot_ok (asset delta)) (lots_of lotQueue (asset delta) qualifier) ->
  exists l i b e lotQueue',
    sell base orderFlag lotQueue qualifier delta = Ok (l, i, b, e, lotQueue')
    /\ ((e = None
         /\ sumQ i == - rat delta
         /\ sumQ i + total (lots_of lotQueue' (asset delta) qualifier)
            == total (lots_of lotQueue (asset delta) qualifier))
        \/ ((exists r, e = Some (ErrNoInventory r delta))
            /\ total (lots_of lotQueue (asset delta) qualifier) < - rat delta)).
Proof.
  intros Hb Hd Hne Hok. unfold sell. rewrite bool_decide_eq_false_2 by exact Hb.
  unfold getQueue. rewrite bool_decide_eq_false_2 by exact Hb. cbn [andb mbind outcome_bind].
  set (inner := default ∅ (lotQueue !! asset delta)).
  set (queue := default (mkQueue [] orderFlag) (inner !! qualifier)).
  assert (El : lot queue = lots_of lotQueue (asset delta) qualifier).
  { unfold queue, inner, lots_of, queue_of.
    destruct (lotQueue !! asset delta) as [m|]; simpl; [|rewrite lookup_empty; reflexivity].
    destruct (m !! qualifier); reflexivity. }
  rewrite <- El in Hne, Hok.
  assert (HL : (Len queue <? 1)%nat = false).
  { unfold Len. destruct (lot queue); [contradiction | reflexivity]. }
  rewrite HL.
  destruct (Sell_total (asset delta) queue delta Hok Hne eq_refl Hd)
    as (s & ES & _ & Hsum & _ & Hcase).
  rewrite ES. cbn [mbind outcome_bind].
  pose proof (LotQueue_Sell_lengths _ _ _ ES) as [L1 L2].
  destruct Hcase as [(Ee & Hs & _) | (r & Ee & _ & _ & Hlt & _)]; rewrite Ee.
  - rewrite L1, L2, !Nat.eqb_refl. cbn [negb orb]. unfold store.
    unfold Ledger in *. rewrite lookup_insert_eq. cbn [mbind outcome_bind].
    eexists _, _, _, _, _. split; [reflexivity|]. left.
    split; [reflexivity|]. split; [exact Hs|].
    rewrite <- El. unfold lots_of, queue_of, Ledger.
    rewrite lookup_insert_eq. simpl. rewrite lookup_insert_eq. exact Hsum.
  - eexists _, _, _, _, _. split; [reflexivity|]. right. split; [eauto|].
    rewrite <- El. exact Hlt.
Qed.

Lemma sell_conserves_witness :
  exists l i b e lotQueue',
    sell USD LIFO (on_exchange LIFO) exchange (mkAmount AAA (-15))
      = Ok (l, i, b, e, lotQueue')
    /\ ((e = None
         /\ sumQ i == - rat (mkAmount AAA (-15))
         /\ sumQ i + total (lots_of lotQueue' (asset (mkAmount AAA (-15))) exchange)
            == total (lots_of (on_exchange LIFO) (asset (mkAmount AAA (-15))) exchange))
        \/ ((exists r, e = Some (ErrNoInventory r (mkAmount AAA (-15))))
            /\ total (lots_of (on_exchange LIFO) (asset (mkAmount AAA (-15))) exchange)
               < - rat (mkAmount AAA (-15)))).
Proof.
  apply (sell_conserves USD LIFO (on_exchange LIFO) exchange (mkAmount AAA (-15))).
  - discriminate.
  - reflexivity.
  - vm_compute. discriminate.
  - vm_compute. repeat constructor; discriminate.
Defined.

(** *** Moves *)

Section MoveProofs.
Context `{Sorter}.
Variable base : Asset.
Variable orderFlag : order.
Variable decimalPlaces : gmap Asset nat.
Variable Format : Time -> string.
Variable range_again : list (string * Q) -> list (string * Q).
Hypothesis range_again_perm : forall l, Permutation l (range_again l).

Lemma first_pass_idle a : forall qualified tmpQueue st,
  Forall (fun qd => 0 <= snd qd) qualified ->
  first_pass base orderFlag decimalPlaces a qualified tmpQueue st = Ok (tmpQueue, st).
Proof.
  induction qualified as [|[qual delta] rest IH]; intros tmpQueue st HF; cbn [first_pass];
    [reflexivity|].
  apply Forall_cons in HF as [Hd HF]. simpl in Hd.
  destruct (Qsign_cases delta) as [[H0 E0]|[[H0 E0]|[H0 E0]]]; rewrite E0; try lra;
    cbn [Z.eqb]; apply IH, HF.
Qed.

Lemma second_pass_idle a : forall qualified tmpQueue st,
  Forall (fun qd => snd qd <= 0) qualified ->
  second_pass base orderFlag decimalPlaces Format a qualified tmpQueue st = Ok st.
Proof.
  induction qualified as [|[qual delta] rest IH]; intros tmpQueue st HF; cbn [second_pass];
    [reflexivity|].
  apply Forall_cons in HF as [Hd HF]. simpl in Hd.
  destruct (Qsign_cases delta) as [[H0 E0]|[[H0 E0]|[H0 E0]]]; rewrite E0; try lra;
    cbn [Z.eqb]; apply IH, HF.
Qed.

(** X19. Moves of the base asset, and moves whose splits offset one
    another for every qualifier, change nothing: no lot is reported, the
    ledger and the weight counter are as they were. *)
Theorem consumeMoves_idle (moves : list (Asset * list (string * Q)))
    (lotQueue : Ledger) (w : Z) :
  Forall (fun m => fst m = base \/ Forall (fun qd => snd qd == 0) (snd m)) moves ->
  consumeMoves base orderFlag decimalPlaces Format range_again moves lotQueue w
  = Ok (start lotQueue w).
Proof.
  unfold consumeMoves. generalize (start lotQueue w). intros st HF.
  induction HF as [|[a qualified] rest Hm _ IH]; cbn [consume_moves]; [reflexivity|].
  destruct (bool_decide_reflect (a = base)) as [Ha|Ha]; [exact IH|].
  destruct Hm as [Hm|Hm]; [contradiction|]. cbn [snd] in Hm.
  rewrite first_pass_idle by (eapply Forall_impl; [exact Hm|]; simpl; intros; lra).
  cbn [mbind outcome_bind].
  destruct (non_nil (res_err st)) eqn:Ee.
  - reflexivity.
  - rewrite second_pass_idle.
    + cbn [mbind outcome_bind]. rewrite Ee. exact IH.
    + rewrite <- (range_again_perm qualified).
      eapply Forall_impl; [exact Hm|]. simpl. intros; lra.
Qed.


End MoveProofs.

Lemma consumeMoves_idle_witness :
  consumeMoves (H := insertion_sorter) USD FIFO ∅ day_number id
    [(USD, [(cold, -10)]); (AAA, [(cold, 0); (hot, 0)])] cold_storage 1
  = Ok (start cold_storage 1).
Proof.
  apply (consumeMoves_idle (H := insertion_sorter) USD FIFO ∅ day_number id
           (fun l => Permutation_refl l)).
  constructor; [left; reflexivity|].
  constructor; [right; repeat constructor | constructor].
Defined.


(** *** What the resolvers report *)

(** Each lot reported, with the inventory reported for it: positive when
    taken from the lot, negative when added to it. *)
Definition reported (st : Resolver) : list (Lot * Amount) :=
  zip (res_lot st) (res_inventory st).

(** [l] has the date and the price of a lot that inventory was taken
    from. *)
Definition taken_from (rep : list (Lot * Amount)) (l : Lot) : Prop :=
  exists l0 i0, (l0, i0) ∈ rep /\ 0 < rat i0 /\ date l = date l0 /\ price l == price l0.

Lemma reported_report st l i b c :
  aligned st -> reported (report st l i b c) = reported st ++ [(l, i)].
Proof.
  intros (L1 & _). unfold reported, report. cbn [res_lot res_inventory].
  rewrite zip_with_app by exact L1. reflexivity.
Qed.

Lemma taken_from_mono rep rep' l :
  taken_from rep l -> rep ⊆ rep' -> taken_from rep' l.
Proof. intros (l0 & i0 & Hin & Hrest) Hsub. exists l0, i0. split; [apply Hsub, Hin | exact Hrest]. Qed.

Lemma taken_from_same rep l l' :
  taken_from rep l -> date l' = date l -> price l' == price l -> taken_from rep l'.
Proof.
  intros (l0 & i0 & Hin & Hi & Hd & Hp) Ed Ep. exists l0, i0.
  repeat split; [exact Hin | exact Hi | congruence | rewrite Ep; exact Hp].
Qed.

Lemma Lot_Sell_pos this delta this' actual basis :
  Lot_Sell this delta = Ok (this', actual, basis) -> 0 < rat actual.
Proof.
  unfold Lot_Sell. destruct (Sign delta >? -1)%Z; [discriminate|].
  destruct (negb _); [discriminate|].
  destruct (Qsign (rat (inventory this) + rat delta)); cbn zeta;
    match goal with
    | |- context [(Sign ?x <? 1)%Z] =>
        unfold Sign; destruct (Qsign_cases (rat x)) as [[H0 E0]|[[H0 E0]|[H0 E0]]];
        rewrite E0; cbn [Z.ltb Z.compare]; try discriminate
    end;
    destruct (_ >? 0)%Z; try discriminate; intros [= <- <- <-]; exact H0.
Qed.

Lemma pop_inv lots l lots' : pop lots = Some (l, lots') -> lots = lots' ++ [l].
Proof.
  unfold pop. destruct lots as [|d t] eqn:E; [discriminate|]. rewrite <- E.
  intros [= <- <-]. apply app_removelast_last. rewrite E. discriminate.
Qed.

(** What a [Sell] reports, for lots with a property that a sale keeps. *)
Definition sale_reported (P : Lot -> Prop) (l : Lot) (i b : Amount) : Prop :=
  P l /\ 0 < rat i /\ basis_reported l i b.

Lemma sell_loop_reports (P : Lot -> Prop) fuel delta :
  (forall l l', P l -> same_lot l l' -> P l') ->
  forall lots remaining lts ivs bss s,
    Forall P lots -> Forall3 (sale_reported P) lts ivs bss ->
    sell_loop fuel delta lots remaining lts ivs bss = Ok s ->
    Forall3 (sale_reported P) (sold_lot s) (sold_inventory s) (sold_basis s)
    /\ Forall P (sold_queue s).
Proof.
  intros HP. induction fuel as [|fuel IH]; intros lots remaining lts ivs bss s HF H3;
    cbn [sell_loop].
  - destruct (Sign remaining =? 0)%Z; [|discriminate]. intros [= <-]. auto.
  - destruct (Sign remaining =? 0)%Z; [intros [= <-]; auto|].
    destruct (pop lots) as [[l lots']|] eqn:Epop; [|intros [= <-]; auto].
    apply pop_inv in Epop. subst lots. apply Forall_app in HF as [HF Hl].
    apply Forall_cons in Hl as [Hl _].
    destruct (Lot_Sell l remaining) as [[[l' sold] soldBasis]| |] eqn:EL;
      cbn [mbind outcome_bind]; try discriminate.
    pose proof (Lot_Sell_pos _ _ _ _ _ EL) as Hpos.
    apply Lot_Sell_inv in EL as (-> & Hsame).
    assert (Hl' : P l') by (eapply HP; eassumption).
    destruct (_ || _); [discriminate|].
    assert (H3' : Forall3 (sale_reported P) (lts ++ [l']) (ivs ++ [sold])
                    (bss ++ [mkAmount (asset (startCost l)) (- (price l * rat sold))])).
    { apply Forall3_app; [exact H3|]. repeat constructor; try assumption; simpl;
        destruct Hsame as (_ & _ & _ & Hpr & Hsc); congruence. }
    repeat match goal with |- context [if ?c then _ else _] => destruct c end;
      try discriminate; apply IH; try assumption.
    apply Forall_app. split; [exact HF | constructor; [exact Hl' | constructor]].
Qed.

Lemma LotQueue_Sell_reports (P : Lot -> Prop) this delta s :
  (forall l l', P l -> same_lot l l' -> P l') ->
  Forall P (lot this) ->
  LotQueue_Sell this delta = Ok s ->
  Forall3 (sale_reported P) (sold_lot s) (sold_inventory s) (sold_basis s)
  /\ Forall P (sold_queue s).
Proof.
  intros HP HF. unfold LotQueue_Sell. bind_case.
  apply sell_loop_reports; [exact HP | exact HF | constructor].
Qed.

Lemma sell_reports base orderFlag lq qual delta l i b lq' :
  sell base orderFlag lq qual delta = Ok (l, i, b, None, lq') ->
  Forall3 (sale_reported (fun _ => True)) l i b.
Proof.
  unfold sell. destruct (bool_decide _); [discriminate|].
  bind_case. destruct a as [queue lq1]. destruct (Len queue <? 1)%nat; [discriminate|].
  bind_case. apply (LotQueue_Sell_reports (fun _ => True)) in E0 as [H3 _];
    [|auto | apply Forall_forall; auto].
  destruct (sold_err a); [discriminate|]. destruct (_ || _); [discriminate|].
  bind_case. intros [= <- <- <- <-]. exact H3.
Qed.

(** Every lot that inventory was added to has the date and the price of
    a lot that inventory was taken from. *)
Definition moved_ok (st : Resolver) : Prop :=
  aligned st
  /\ forall l i, (l, i) ∈ reported st -> rat i < 0 -> taken_from (reported st) l.

Lemma moved_ok_taken st l i b c :
  moved_ok st -> 0 < rat i -> moved_ok (report st l i b c).
Proof.
  intros [Hal Hrep] Hi. split; [apply aligned_report, Hal|].
  intros l1 i1. rewrite (reported_report _ _ _ _ _ Hal). intros Hin Hneg.
  apply elem_of_app in Hin as [Hin|Hin].
  - eapply taken_from_mono; [eapply Hrep; eassumption|]. intros x Hx.
    apply elem_of_app. left. exact Hx.
  - apply list_elem_of_singleton in Hin. injection Hin as -> ->. lra.
Qed.

Lemma moved_ok_made st l i b c :
  moved_ok st -> taken_from (reported st) l -> moved_ok (report st l i b c).
Proof.
  intros [Hal Hrep] Hl. split; [apply aligned_report, Hal|].
  assert (Hsub : reported st ⊆ reported st ++ [(l, i)])
    by (intros x Hx; apply elem_of_app; left; exact Hx).
  intros l1 i1. rewrite (reported_report _ _ _ _ _ Hal). intros Hin Hneg.
  apply elem_of_app in Hin as [Hin|Hin].
  - eapply taken_from_mono; [eapply Hrep; eassumption | exact Hsub].
  - apply list_elem_of_singleton in Hin. injection Hin as -> ->.
    eapply taken_from_mono; [exact Hl | exact Hsub].
Qed.

Section MovedLots.
Context `{Sorter}.
Variable base : Asset.
Variable orderFlag : order.
Variable decimalPlaces : gmap Asset nat.
Variable Format : Time -> string.
Variable range_again : list (string * Q) -> list (string * Q).

Lemma move_out_moved amt qual total : forall l j i b tmpQueue st tmpQueue' st',
  moved_ok st -> Forall (taken_from (reported st)) (lot tmpQueue) ->
  Forall3 (sale_reported (fun _ => True)) l i b ->
  move_out decimalPlaces amt qual total j l i b tmpQueue st = Ok (tmpQueue', st') ->
  moved_ok st' /\ Forall (taken_from (reported st')) (lot tmpQueue')
  /\ reported st ⊆ reported st'.
Proof.
  induction l as [|lj l IH]; intros j i b tmpQueue st tmpQueue' st' Hst Htmp H3;
    inversion H3 as [|? ij bj ? i' b' (_ & Hpos & Hb & _) H3']; subst; cbn [move_out].
  - intros [= <- <-]. auto.
  - bind_case. destruct a as [tmpLot w]. bind_case.
    apply NewLot_ok in E as (Hi & _ & -> & _ & _).
    apply Buy_inv in E0 as [_ ->].
    set (st1 := report st lj (Clone ij) (Clone bj) (move_from_comment decimalPlaces amt qual (S j) total)).
    assert (Hst1 : moved_ok st1) by (apply moved_ok_taken; assumption).
    assert (Hsub : reported st ⊆ reported st1).
    { unfold st1. rewrite (reported_report _ _ _ _ _ (proj1 Hst)).
      intros x Hx. apply elem_of_app. left. exact Hx. }
    intros Hrec. apply IH in Hrec as (Hst' & Htmp' & Hsub'); [| exact Hst1 | | exact H3'].
    + split; [exact Hst'|]. split; [exact Htmp'|]. etransitivity; eassumption.
    + cbn [lot]. rewrite sort_lots_perm. apply Forall_app. split.
      * eapply Forall_impl; [exact Htmp|]. intros x Hx. eapply taken_from_mono; eassumption.
      * constructor; [|constructor]. exists lj, (Clone ij).
        split; [|split; [exact Hi|split; [reflexivity|]]].
        -- change (reported (set_counter st1 w)) with (reported st1).
           unfold st1. rewrite (reported_report _ _ _ _ _ (proj1 Hst)).
           apply elem_of_app. right. apply list_elem_of_singleton. reflexivity.
        -- cbn [price NegClone rat]. rewrite Hb. field. lra.
Qed.

Lemma first_pass_moved a : forall qualified tmpQueue st tmpQueue' st',
  moved_ok st -> Forall (taken_from (reported st)) (lot tmpQueue) ->
  first_pass base orderFlag decimalPlaces a qualified tmpQueue st = Ok (tmpQueue', st') ->
  moved_ok st' /\ Forall (taken_from (reported st')) (lot tmpQueue').
Proof.
  induction qualified as [|[qual delta] rest IH]; intros tmpQueue st tmpQueue' st' Hst Htmp;
    cbn [first_pass]; [intros [= <- <-]; auto|].
  destruct (Qsign delta =? -1)%Z; [|apply IH; assumption].
  bind_case. destruct a0 as [[[[l i] b] e] lq]. destruct e as [e|].
  - intros [= <- <-]. auto.
  - apply sell_reports in E. bind_case. destruct a0 as [tmpQueue1 st1].
    apply move_out_moved in E0 as (Hst1 & Htmp1 & _); [| exact Hst | exact Htmp | exact E].
    apply IH; assumption.
Qed.

Lemma move_in_moved qual : forall l i b st st',
  moved_ok st ->
  Forall3 (sale_reported (taken_from (reported st))) l i b ->
  move_in base orderFlag decimalPlaces Format qual l i b st = Ok st' ->
  moved_ok st' /\ reported st ⊆ reported st'.
Proof.
  induction l as [|lj l IH]; intros i b st st' Hst H3;
    inversion H3 as [|? ij bj ? i' b' (Hl & Hpos & Hb & _) H3']; subst; cbn [move_in].
  - intros [= <-]. auto.
  - bind_case. destruct a as [newLot w]. bind_case.
    apply NewLot_ok in E as (Hi & _ & -> & _ & _).
    match goal with
    | |- move_in _ _ _ _ _ _ _ _ (report ?s ?nl ?ni ?nb ?nc) = _ -> _ =>
        set (st1 := report s nl ni nb nc);
        assert (Hst1 : moved_ok st1);
        [apply (moved_ok_made s nl ni nb nc); [exact Hst|];
         eapply taken_from_same; [exact Hl | reflexivity |];
         cbn [price set_weight NegClone rat]; rewrite Hb; field; lra|];
        assert (Hsub : reported st ⊆ reported st1);
        [unfold st1; rewrite (reported_report s nl ni nb nc (proj1 Hst));
         intros x Hx; apply elem_of_app; left; exact Hx|]
    end.
    intros Hrec. apply IH in Hrec as (Hst' & Hsub'); [| exact Hst1 |].
    + split; [exact Hst' | etransitivity; eassumption].
    + eapply Forall3_impl; [exact H3'|]. intros x y z (Hx & Hy & Hz).
      split; [eapply taken_from_mono; eassumption | auto].
Qed.

Lemma taken_from_kept rep l l' : taken_from rep l -> same_lot l l' -> taken_from rep l'.
Proof.
  intros Hl (_ & Hd & _ & Hp & _). eapply taken_from_same; [exact Hl | exact Hd |].
  rewrite Hp. reflexivity.
Qed.

Lemma second_pass_moved a : forall qualified tmpQueue st st',
  moved_ok st -> Forall (taken_from (reported st)) (lot tmpQueue) ->
  second_pass base orderFlag decimalPlaces Format a qualified tmpQueue st = Ok st' ->
  moved_ok st'.
Proof.
  induction qualified as [|[qual delta] rest IH]; intros tmpQueue st st' Hst Htmp;
    cbn [second_pass]; [intros [= <-]; exact Hst|].
  destruct (Qsign delta =? 1)%Z; [|apply IH; assumption].
  bind_case.
  apply (LotQueue_Sell_reports (taken_from (reported st))) in E as [H3 Hq];
    [| apply taken_from_kept | exact Htmp].
  destruct (sold_err a0).
  - intros [= <-]. exact Hst.
  - bind_case. apply move_in_moved in E as [Hst1 Hsub]; [| exact Hst | exact H3].
    apply IH; [exact Hst1|]. cbn [queue_after lot].
    eapply Forall_impl; [exact Hq|]. intros x Hx. eapply taken_from_mono; eassumption.
Qed.

Lemma consume_moves_moved : forall moves st st',
  moved_ok st ->
  consume_moves base orderFlag decimalPlaces Format range_again moves st = Ok st' ->
  moved_ok st'.
Proof.
  induction moves as [|[a qualified] rest IH]; intros st st' Hst; cbn [consume_moves];
    [intros [= <-]; exact Hst|].
  destruct (bool_decide (a = base)); [apply IH, Hst|].
  bind_case. destruct a0 as [tmpQueue st1].
  apply first_pass_moved in E as [Hst1 Htmp]; [| exact Hst | constructor].
  destruct (non_nil (res_err st1)); [intros [= <-]; exact Hst1|].
  bind_case. apply second_pass_moved in E; [| exact Hst1 | exact Htmp].
  destruct (non_nil (res_err a0)); [intros [= <-]; exact E|].
  apply IH, E.
Qed.

(** X21. In what [consumeMoves] returns, every lot reported with a
    negative inventory (a lot made for the qualifier moved to) has the
    date and the price of a lot reported with a positive inventory (a
    lot that the move took inventory from). *)
Theorem moved_lots_keep_date_and_price (moves : list (Asset * list (string * Q)))
    (lotQueue : Ledger) (w : Z) (st : Resolver) (l : Lot) (i : Amount) :
  consumeMoves base orderFlag decimalPlaces Format range_again moves lotQueue w = Ok st ->
  (l, i) ∈ zip (res_lot st) (res_inventory st) -> rat i < 0 ->
  exists l0 i0,
    (l0, i0) ∈ zip (res_lot st) (res_inventory st)
    /\ 0 < rat i0 /\ date l = date l0 /\ price l == price l0.
Proof.
  intros Hm Hin Hneg.
  assert (Hst : moved_ok st).
  { eapply consume_moves_moved; [|exact Hm]. split; [apply aligned_start|].
    intros l1 i1 Hin1. apply elem_of_nil in Hin1. contradiction. }
  destruct Hst as [_ Hrep]. exact (Hrep l i Hin Hneg).
Qed.
End MovedLots.

Lemma moved_lots_keep_date_and_price_witness :
  exists st l i,
    consumeMoves (H := insertion_sorter) USD FIFO ∅ day_number id [(AAA, to_hot)]
      cold_storage 1 = Ok st
    /\ (l, i) ∈ zip (res_lot st) (res_inventory st)
    /\ rat i < 0
    /\ exists l0 i0,
         (l0, i0) ∈ zip (res_lot st) (res_inventory st)
         /\ 0 < rat i0 /\ date l = date l0 /\ price l == price l0.
Proof.
  eexists _, _, _. split; [vm_compute; reflexivity|].
  split; [apply (list_elem_of_lookup_2 _ 1%nat); vm_compute; reflexivity|].
  split; [vm_compute; reflexivity|].
  apply (moved_lots_keep_date_and_price (H := insertion_sorter) USD FIFO ∅ day_number id
           [(AAA, to_hot)] cold_storage 1 _ _ (mkAmount AAA (-10))).
  - vm_compute. reflexivity.
  - apply (list_elem_of_lookup_2 _ 1%nat). vm_compute. reflexivity.
  - vm_compute. reflexivity.
Defined.

(** *** Trades *)

(** Every lot that inventory was added to has the date of the
    transaction. *)
Definition bought_ok (txDate : Time) (st : Resolver) : Prop :=
  aligned st /\ forall l i, (l, i) ∈ reported st -> rat i < 0 -> date l = txDate.

Lemma bought_ok_sold txDate st l i b c :
  bought_ok txDate st -> 0 < rat i -> bought_ok txDate (report st l i b c).
Proof.
  intros [Hal Hrep] Hi. split; [apply aligned_report, Hal|].
  intros l1 i1. rewrite (reported_report _ _ _ _ _ Hal). intros Hin Hneg.
  apply elem_of_app in Hin as [Hin|Hin]; [eapply Hrep; eassumption|].
  apply list_elem_of_singleton in Hin. injection Hin as -> ->. lra.
Qed.

Lemma bought_ok_bought txDate st l i b c :
  bought_ok txDate st -> date l = txDate -> bought_ok txDate (report st l i b c).
Proof.
  intros [Hal Hrep] Hl. split; [apply aligned_report, Hal|].
  intros l1 i1. rewrite (reported_report _ _ _ _ _ Hal). intros Hin Hneg.
  apply elem_of_app in Hin as [Hin|Hin]; [eapply Hrep; eassumption|].
  apply list_elem_of_singleton in Hin. injection Hin as -> ->. exact Hl.
Qed.

Section BoughtLots.
Context `{Sorter}.
Variable base : Asset.
Variable orderFlag : order.
Variable decimalPlaces : gmap Asset nat.
Variable Format : Time -> string.
Variable txDate : Time.

Lemma report_sold_bought c : forall l i b st st',
  bought_ok txDate st -> Forall3 (sale_reported (fun _ => True)) l i b ->
  report_sold c l i b st = Ok st' -> bought_ok txDate st'.
Proof.
  induction l as [|lj l IH]; intros i b st st' Hst H3;
    inversion H3 as [|? ij bj ? i' b' (_ & Hpos & _) H3']; subst; cbn [report_sold].
  - intros [= <-]. exact Hst.
  - apply IH; [|exact H3']. apply bought_ok_sold; assumption.
Qed.

Lemma defer_bought : forall l i b lotBasis lotDate st lotBasis' lotDate' st',
  bought_ok txDate st -> Forall3 (sale_reported (fun _ => True)) l i b ->
  defer decimalPlaces l i b lotBasis lotDate st = Ok (lotBasis', lotDate', st') ->
  bought_ok txDate st'.
Proof.
  induction l as [|lj l IH]; intros i b lotBasis lotDate st lotBasis' lotDate' st' Hst H3;
    inversion H3 as [|? ij bj ? i' b' (_ & Hpos & _) H3']; subst; cbn [defer].
  - intros [= <- <- <-]. exact Hst.
  - bind_case. apply IH; [|exact H3']. apply bought_ok_sold; assumption.
Qed.

Lemma consume_split_bought qual split st st' stop :
  bought_ok txDate st ->
  consume_split base orderFlag decimalPlaces Format txDate qual split st = Ok (st', stop) ->
  bought_ok txDate st'.
Proof.
  intros Hst. unfold consume_split.
  destruct (split_delta split) as [delta|]; [|discriminate].
  destruct (bool_decide (asset delta = base)).
  { destruct (_ || _); intros [= <- <-]; exact Hst. }
  destruct (Sign delta =? -1)%Z.
  { destruct (negb _); [intros [= <- <-]; exact Hst|].
    bind_case. destruct a as [split1 cost]. bind_case.
    destruct a as [[[[l i] b] e] lq]. destruct e as [e|].
    - intros [= <- <-]. destruct (bool_decide _); exact Hst.
    - bind_case. intros [= <- <-]. apply sell_reports in E0.
      eapply report_sold_bought; [| exact E0 | exact E1].
      destruct (bool_decide _); exact Hst. }
  destruct (negb _); [intros [= <- <-]; exact Hst|].
  bind_case. destruct a as [split1 pr]. bind_case. destruct a as [split2 cost].
  bind_case. destruct a as [[[[[lotName lotDate] lotBasis] lotComment] st1] stop1].
  assert (Hst1 : bought_ok txDate st1).
  { destruct (bool_decide (asset cost <> base)); [|injection E1 as _ _ _ _ <- _; exact Hst].
    revert E1. bind_case. destruct a as [[[[l i] b] e] lq]. destruct e as [e|].
    - intros [= _ _ _ _ <- _]. exact Hst.
    - apply sell_reports in E1.
      destruct (_ || _); [discriminate|]. destruct b as [|b0 b']; [discriminate|].
      bind_case. destruct a as [[lotBasis1 lotDate1] st2]. intros [= _ _ _ _ <- _].
      eapply defer_bought; [| exact E1 | exact E2]. exact Hst. }
  destruct stop1; [intros [= <- <-]; exact Hst1|].
  bind_case. destruct a as [l w]. apply NewLot_ok in E2 as (_ & _ & -> & _ & _).
  bind_case. bind_case. intros [= <- <-].
  apply bought_ok_bought; [exact Hst1 | reflexivity].
Qed.

Lemma consume_splits_bought qual : forall splits st st' stop,
  bought_ok txDate st ->
  consume_splits base orderFlag decimalPlaces Format txDate qual splits st = Ok (st', stop) ->
  bought_ok txDate st'.
Proof.
  induction splits as [|split rest IH]; intros st st' stop Hst; cbn [consume_splits];
    [intros [= <- <-]; exact Hst|].
  bind_case. destruct a as [st1 stop1]. apply consume_split_bought in E; [|exact Hst].
  destruct stop1; [intros [= <- <-]; exact E|]. apply IH, E.
Qed.

Lemma consume_qualified_bought : forall qualified st st' stop,
  bought_ok txDate st ->
  consume_qualified base orderFlag decimalPlaces Format txDate qualified st = Ok (st', stop) ->
  bought_ok txDate st'.
Proof.
  induction qualified as [|[qual splits] rest IH]; intros st st' stop Hst;
    cbn [consume_qualified]; [intros [= <- <-]; exact Hst|].
  bind_case. destruct a as [st1 stop1]. apply consume_splits_bought in E; [|exact Hst].
  destruct stop1; [intros [= <- <-]; exact E|]. apply IH, E.
Qed.

Lemma consume_trades_bought : forall trades st st' stop,
  bought_ok txDate st ->
  consume_trades base orderFlag decimalPlaces Format txDate trades st = Ok (st', stop) ->
  bought_ok txDate st'.
Proof.
  induction trades as [|[a qualified] rest IH]; intros st st' stop Hst;
    cbn [consume_trades]; [intros [= <- <-]; exact Hst|].
  bind_case. destruct a0 as [st1 stop1]. apply consume_qualified_bought in E; [|exact Hst].
  destruct stop1; [intros [= <- <-]; exact E|]. apply IH, E.
Qed.

(** X22. In what [consumeTrades] returns, every lot reported with a
    negative inventory (a lot bought, with a deferred basis or not) has
    the date of the transaction, whatever the dates of the lots consumed
    to pay for it. *)
Theorem bought_lots_dated_by_trade (trades : SplitSet) (lotQueue : Ledger) (w : Z)
    (st : Resolver) (l : Lot) (i : Amount) :
  consumeTrades base orderFlag decimalPlaces Format trades txDate lotQueue w = Ok st ->
  (l, i) ∈ zip (res_lot st) (res_inventory st) -> rat i < 0 ->
  date l = txDate.
Proof.
  unfold consumeTrades. bind_case. destruct a as [st1 stop]. intros [= <-] Hin Hneg.
  assert (Hst : bought_ok txDate st1).
  { eapply consume_trades_bought; [|exact E]. split; [apply aligned_start|].
    intros l1 i1 Hin1. apply elem_of_nil in Hin1. contradiction. }
  destruct Hst as [_ Hrep]. exact (Hrep l i Hin Hneg).
Qed.
End BoughtLots.

Lemma bought_lots_dated_by_trade_witness :
  exists st l i,
    consumeTrades (H := insertion_sorter) USD LIFO ∅ day_number barter 18300%Z
      (on_exchange LIFO) 2 = Ok st
    /\ (l, i) ∈ zip (res_lot st) (res_inventory st)
    /\ rat i < 0
    /\ date l = 18300%Z.
Proof.
  eexists _, _, _. split; [vm_compute; reflexivity|].
  split; [apply (list_elem_of_lookup_2 _ 2%nat); vm_compute; reflexivity|].
  split; [vm_compute; reflexivity|].
  eapply (bought_lots_dated_by_trade (H := insertion_sorter) USD LIFO ∅ day_number 18300%Z
            barter (on_exchange LIFO) 2 _ _ (mkAmount BBB (-5))).
  - vm_compute. reflexivity.
  - apply (list_elem_of_lookup_2 _ 2%nat). vm_compute. reflexivity.
  - vm_compute. reflexivity.
Defined.
